(** * The auto-labelling engine of client-github (src/github-auto-labeler.ts)

    A shallow embedding of [GitHubAutoLabeler] and of the four gateway
    operations it calls on [GitHubClient], followed by the properties of
    [run] that the specification states.

    Modelling decisions, each following the TypeScript source:
    - a JavaScript object whose properties are optional is a record of
      [Field]s: a key may be absent, present with value [undefined], or
      present with a value; the object spread [{...a, ...b}] is [spread];
    - [Set<string>] iterated in insertion order ([labelsToAdd]) is a
      duplicate-free list; the set that is only queried and extended
      ([availableLabelNames]) is a [gset string];
    - [async]/[await] code is sequential: a computation takes the state of
      the outside world, and returns a value or a thrown error, the new
      world, and the transcript of what it did (gateway calls with their
      outcome, and error log lines);
    - the gateway is a record of four operations over any type of worlds;
      two instances are given, one with scripted answers and
      [GitHubClient] in front of a repository held in memory;
    - a [RegExp] is used only through [test]; on a pattern without the
      global or sticky flag, that is a predicate on the text, and the
      engine is embedded with such patterns first; the module
      [Stateful] embeds it again with [RegExp] objects that have a
      [lastIndex], and the two are shown to agree on patterns without
      those flags;
    - a thrown value is an [Error] with its [message].

    The methods of [GitHubClient] (src/github-client.ts) but
    [createMemoriesFromFiles], and the handlers of the label actions
    (github-label-actions.ts), are embedded the same way, in the module
    [Client], over an outside world that answers requests.

    The first part holds the definitions, the second the lemmas and the
    theorems: C1 to C10 on the engine as the specification states them,
    then X1 to X28 on the engine, the client and the actions as the code
    has them. *)

From stdpp Require Import base decidable option list sets gmap strings pretty.
From Stdlib Require Import ZArith Lia.
From Stdlib Require Ascii String.

(** ** JavaScript objects with optional properties *)

Inductive Field (A : Type) : Type :=
| Absent
| Undefined
| Value (a : A).
Arguments Absent {A}.
Arguments Undefined {A}.
Arguments Value {A} a.

(** Property read [o.k]: an absent key reads as [undefined]. *)
Definition get {A} (f : Field A) : option A :=
  match f with
  | Value a => Some a
  | _ => None
  end.

(** One key of [{...a, ...b}]: every own key of [b] wins, also one whose
    value is [undefined]. *)
Definition spread {A} (a b : Field A) : Field A :=
  match b with
  | Absent => a
  | _ => b
  end.

(** Truthiness of a possibly undefined boolean. *)
Definition truthy (o : option bool) : bool :=
  match o with
  | Some b => b
  | None => false
  end.

(** [s || d] on a possibly undefined string: the empty string is falsy. *)
Definition or_else (o : option string) (d : string) : string :=
  match o with
  | Some EmptyString => d
  | Some s => s
  | None => d
  end.

(** ** Data model *)

Inductive IssueState : Type := open | closed | all.

(** A rule whose pattern has neither the global nor the sticky flag:
    [rule_pattern] is [pattern.test], which then reads nothing but the
    text. Rules whose patterns are [RegExp] objects with a [lastIndex]
    are in the module [Stateful]. *)
Record LabelingRule : Type := {
  rule_pattern : string → bool;
  rule_labels : list string;
  rule_description : option string;
}.

Record AutoLabelConfig : Type := {
  createMissingLabels : Field bool;
  defaultLabelColor : Field string;
  relabelExistingIssues : Field bool;
  issueState : Field IssueState;
}.

Definition DEFAULT_CONFIG : AutoLabelConfig := {|
  createMissingLabels := Value false;
  defaultLabelColor := Value "0075ca";
  relabelExistingIssues := Value true;
  issueState := Value open;
|}.

(** [{...a, ...b}] on configurations. *)
Definition spread_config (a b : AutoLabelConfig) : AutoLabelConfig := {|
  createMissingLabels := spread (createMissingLabels a) (createMissingLabels b);
  defaultLabelColor := spread (defaultLabelColor a) (defaultLabelColor b);
  relabelExistingIssues :=
    spread (relabelExistingIssues a) (relabelExistingIssues b);
  issueState := spread (issueState a) (issueState b);
|}.

(** The empty object [{}], default of the constructor's second argument. *)
Definition empty_config : AutoLabelConfig := {|
  createMissingLabels := Absent;
  defaultLabelColor := Absent;
  relabelExistingIssues := Absent;
  issueState := Absent;
|}.

Record ResultDetail : Type := {
  issueNumber : Z;
  title : string;
  appliedLabels : list string;
}.

Record AutoLabelResult : Type := {
  totalIssues : nat;
  labeledIssues : nat;
  labelsCreated : nat;
  details : list ResultDetail;
}.

(** What the engine reads of an issue and of a label returned by the
    gateway. [issue_body] and [issue_labels] may be missing. *)
Record Issue : Type := {
  issue_number : Z;
  issue_title : string;
  issue_body : option string;
  issue_labels : option (list string);
}.

Record Label : Type := {
  label_name : string;
  label_color : string;
  label_description : option string;
}.

Record Error : Type := { message : string }.

(** ** The engine object *)

Record GitHubAutoLabeler : Type := {
  rules : list LabelingRule;
  config : AutoLabelConfig;
}.

Definition new_GitHubAutoLabeler (overrides : AutoLabelConfig)
  : GitHubAutoLabeler :=
  {| rules := []; config := spread_config DEFAULT_CONFIG overrides |}.

Definition addRule (rule : LabelingRule) (this : GitHubAutoLabeler)
  : GitHubAutoLabeler :=
  {| rules := rules this ++ [rule]; config := config this |}.

Definition addRules (rs : list LabelingRule) (this : GitHubAutoLabeler)
  : GitHubAutoLabeler :=
  {| rules := rules this ++ rs; config := config this |}.

Definition setConfig (partial : AutoLabelConfig) (this : GitHubAutoLabeler)
  : GitHubAutoLabeler :=
  {| rules := rules this; config := spread_config (config this) partial |}.

(** ** Gateway calls and transcripts *)

Inductive Call : Type :=
| GetRepoIssues (state : option IssueState)
| GetRepoLabels
| CreateLabel (name color description : string)
| LabelIssue (number : Z) (labels : list string).

(** [Called c None] is a call that returned, [Called c (Some err)] one that
    threw [err]; [LoggedError] is a line that [run] gives to
    [elizaLogger.error]. *)
Inductive Event : Type :=
| Called (c : Call) (failure : option Error)
| LoggedError (msg : string).

(** The gateway, over any type [W] of states of the outside world. What
    an operation gives to the logger is not part of its result: the
    lines of the label methods of [GitHubClient] are in the transcripts
    of the module [Client], and [logger] puts them next to those of
    [run]. *)
Record GitHubClient (W : Type) : Type := {
  getRepoIssues : option IssueState → W → (Error + list Issue) * W;
  getRepoLabels : W → (Error + list Label) * W;
  createLabel : string → string → string → W → (Error + unit) * W;
  labelIssue : Z → list string → W → (Error + unit) * W;
}.
Arguments getRepoIssues {W}.
Arguments getRepoLabels {W}.
Arguments createLabel {W}.
Arguments labelIssue {W}.

Definition dquote : string := String (Ascii.ascii_of_nat 34) EmptyString.

Definition NoRulesConfigured : Error :=
  {| message :=
       "No labeling rules defined. Add rules before running the auto-labeler." |}.

Definition failure_of {A} (r : Error + A) : option Error :=
  match r with
  | inl err => Some err
  | inr _ => None
  end.

(** ** Rule evaluation (lines 138-147) *)

Definition issueText (issue : Issue) : string :=
  issue_title issue +:+ " " +:+ or_else (issue_body issue) "".

(** [labelsToAdd.add(label)]: a set that remembers insertion order. *)
Definition set_add (label : string) (s : list string) : list string :=
  if decide (label ∈ s) then s else s ++ [label].

(** [rule.labels.forEach(label => labelsToAdd.add(label))]. *)
Definition add_all (labels : list string) (s : list string) : list string :=
  foldl (λ acc label, set_add label acc) s labels.

(** The loop over [this.rules], started from the set [s]. *)
Fixpoint collect (rs : list LabelingRule) (text : string) (s : list string)
  : list string :=
  match rs with
  | [] => s
  | rule :: rs' =>
      if rule_pattern rule text
      then collect rs' text (add_all (rule_labels rule) s)
      else collect rs' text s
  end.

Definition labelsToAdd (rs : list LabelingRule) (issue : Issue) : list string :=
  collect rs (issueText issue) [].

(** [issue.labels && issue.labels.length > 0]. *)
Definition has_labels (issue : Issue) : bool :=
  match issue_labels issue with
  | Some (_ :: _) => true
  | _ => false
  end.

(** ** Computations *)

Section Engine.
Context {W : Type}.

Definition M (A : Type) : Type := W → (Error + A) * W * list Event.

Definition ret {A} (a : A) : M A := λ w, (inr a, w, []).

Definition throw {A} (err : Error) : M A := λ w, (inl err, w, []).

Definition bind {A B} (m : M A) (k : A → M B) : M B := λ w,
  match m w with
  | (inl err, w1, t1) => (inl err, w1, t1)
  | (inr a, w1, t1) =>
      match k a w1 with
      | (r, w2, t2) => (r, w2, t1 ++ t2)
      end
  end.

(** [try { m } catch (error) { handler error }]. *)
Definition try_catch {A} (m : M A) (handler : Error → M A) : M A := λ w,
  match m w with
  | (inl err, w1, t1) =>
      match handler err w1 with
      | (r, w2, t2) => (r, w2, t1 ++ t2)
      end
  | (inr a, w1, t1) => (inr a, w1, t1)
  end.

Definition call {A} (c : Call) (op : W → (Error + A) * W) : M A := λ w,
  match op w with
  | (r, w1) => (r, w1, [Called c (failure_of r)])
  end.

Definition logError (msg : string) : M unit := λ w,
  (inr tt, w, [LoggedError msg]).

Notation "x <~ m ;; k" := (bind m (λ x, k))
  (at level 100, m at next level, right associativity).

(** [for (const x of xs) { ... }] over loop-carried variables [S]. *)
Fixpoint forOf {A S} (xs : list A) (body : S → A → M S) (s : S) : M S :=
  match xs with
  | [] => ret s
  | x :: xs' => s' <~ body s x ;; forOf xs' body s'
  end.

Variable client : GitHubClient W.

Definition description_for (label : string) : string :=
  "Auto-created label for " +:+ label.

Definition create_failed_msg (label : string) (err : Error) : string :=
  "Failed to create label " +:+ dquote +:+ label +:+ dquote +:+ ": "
    +:+ message err.

Definition run_failed_msg (err : Error) : string :=
  "Auto-labeling failed: " +:+ message err.

(** The variables the issue loop updates: [availableLabelNames] and
    [result]. *)
Definition LoopState : Type := gset string * AutoLabelResult.

Definition incr_labelsCreated (r : AutoLabelResult) : AutoLabelResult :=
  {| totalIssues := totalIssues r;
     labeledIssues := labeledIssues r;
     labelsCreated := S (labelsCreated r);
     details := details r |}.

Definition record_labeled (d : ResultDetail) (r : AutoLabelResult)
  : AutoLabelResult :=
  {| totalIssues := totalIssues r;
     labeledIssues := S (labeledIssues r);
     labelsCreated := labelsCreated r;
     details := details r ++ [d] |}.

(** Lines 151-165, one iteration: the body of the loop over
    [Array.from(labelsToAdd)]. *)
Definition createIfMissing (cfg : AutoLabelConfig) (st : LoopState)
    (label : string) : M LoopState :=
  if decide (label ∈ st.1) then ret st
  else
    try_catch
      (_ <~ call
              (CreateLabel label (or_else (get (defaultLabelColor cfg)) "0075ca")
                 (description_for label))
              (createLabel client label
                 (or_else (get (defaultLabelColor cfg)) "0075ca")
                 (description_for label)) ;;
       ret ({[label]} ∪ st.1, incr_labelsCreated st.2))
      (λ error, _ <~ logError (create_failed_msg label error) ;; ret st).

(** Line 134: the issue is left alone. *)
Definition skips (this : GitHubAutoLabeler) (issue : Issue) : bool :=
  negb (truthy (get (relabelExistingIssues (config this))))
  && has_labels issue.

(** Lines 150-166. *)
Definition createMissing (this : GitHubAutoLabeler)
    (candidates : list string) (st : LoopState) : M LoopState :=
  if truthy (get (createMissingLabels (config this)))
  then forOf candidates (createIfMissing (config this)) st
  else ret st.

(** Lines 168-181: filter the candidates, apply and record what is left. *)
Definition applyValid (issue : Issue) (candidates : list string)
    (st : LoopState) : M LoopState :=
  let validLabels := filter (λ label : string, label ∈ st.1) candidates in
  if (0 <? length validLabels)%nat
  then
    _ <~ call (LabelIssue (issue_number issue) validLabels)
           (labelIssue client (issue_number issue) validLabels) ;;
    ret (st.1,
         record_labeled
           {| issueNumber := issue_number issue;
              title := issue_title issue;
              appliedLabels := validLabels |} st.2)
  else ret st.

(** Lines 133-181: the body of the loop over the issues. *)
Definition processIssue (this : GitHubAutoLabeler) (st : LoopState)
    (issue : Issue) : M LoopState :=
  if skips this issue then ret st
  else
    let candidates := labelsToAdd (rules this) issue in
    st1 <~ createMissing this candidates st ;;
    applyValid issue candidates st1.

Definition run (this : GitHubAutoLabeler) : M AutoLabelResult :=
  if (length (rules this) =? 0)%nat
  then throw NoRulesConfigured
  else
    try_catch
      (issues <~ call (GetRepoIssues (get (issueState (config this))))
                   (getRepoIssues client (get (issueState (config this)))) ;;
       availableLabels <~ call GetRepoLabels (getRepoLabels client) ;;
       st <~ forOf issues (processIssue this)
               (list_to_set (label_name <$> availableLabels),
                {| totalIssues := length issues;
                   labeledIssues := 0;
                   labelsCreated := 0;
                   details := [] |}) ;;
       ret st.2)
      (λ error, _ <~ logError (run_failed_msg error) ;; throw error).

End Engine.

Arguments M W A : clear implicits.

(** ** The rule catalogue ([CommonLabelingRules]) *)

Module Regex.

Definition code (c : Ascii.ascii) : nat := Ascii.nat_of_ascii c.

(** [\w] without the unicode flag: [A-Za-z0-9_]. *)
Definition is_word_char (c : Ascii.ascii) : bool :=
  let n := code c in
  ((65 <=? n) && (n <=? 90)) || ((97 <=? n) && (n <=? 122))
  || ((48 <=? n) && (n <=? 57)) || (n =? 95).

(** Case folding of the [i] flag on the ASCII range. *)
Definition fold_case (c : Ascii.ascii) : nat :=
  let n := code c in
  if (65 <=? n) && (n <=? 90) then n + 32 else n.

(** The rest of [s] after a case-insensitive occurrence of [w] at its
    start. *)
Fixpoint strip_prefix_ci (w s : string) : option string :=
  match w, s with
  | EmptyString, _ => Some s
  | String a w', String b s' =>
      if fold_case a =? fold_case b then strip_prefix_ci w' s' else None
  | String _ _, EmptyString => None
  end.

(** [\b] after a word: end of text or a non-word character. *)
Definition boundary (rest : string) : bool :=
  match rest with
  | EmptyString => true
  | String c _ => negb (is_word_char c)
  end.

(** [\b\?] after a word: a question mark. *)
Definition question_mark (rest : string) : bool :=
  match rest with
  | String c _ => code c =? 63
  | EmptyString => false
  end.

(** [/\b(w1|w2|...)\b<after>/i.test(s)] for words made of letters:
    [prev_word] tells whether the character before [s] is a word
    character. *)
Fixpoint scan (words : list string) (after : string → bool)
    (prev_word : bool) (s : string) : bool :=
  (negb prev_word
   && existsb (λ w, match strip_prefix_ci w s with
                    | Some rest => after rest
                    | None => false
                    end) words)
  || match s with
     | EmptyString => false
     | String c s' => scan words after (is_word_char c) s'
     end.

Definition words (ws : list string) (s : string) : bool :=
  scan ws boundary false s.

Definition words_then_question_mark (ws : list string) (s : string) : bool :=
  scan ws question_mark false s.

End Regex.

Module CommonLabelingRules.

Definition bug : LabelingRule := {|
  rule_pattern :=
    Regex.words ["bug"; "fix"; "crash"; "problem"; "error"; "failure"; "issue"];
  rule_labels := ["bug"];
  rule_description := Some "Issues that report bugs or problems";
|}.

Definition enhancement : LabelingRule := {|
  rule_pattern :=
    Regex.words
      ["feature"; "enhancement"; "improvement"; "add"; "improve"; "request"];
  rule_labels := ["enhancement"];
  rule_description := Some "Issues that request features or enhancements";
|}.

Definition documentation : LabelingRule := {|
  rule_pattern :=
    Regex.words ["doc"; "documentation"; "readme"; "guide"; "tutorial"];
  rule_labels := ["documentation"];
  rule_description := Some "Issues related to documentation";
|}.

Definition question : LabelingRule := {|
  rule_pattern :=
    Regex.words_then_question_mark
      ["how"; "what"; "when"; "where"; "why"; "question"; "help"; "support"];
  rule_labels := ["question"];
  rule_description := Some "Issues asking questions or requesting help";
|}.

Definition security : LabelingRule := {|
  rule_pattern :=
    Regex.words
      ["security"; "vulnerability"; "exploit"; "attack"; "auth";
       "authentication"; "authorization"];
  rule_labels := ["security"];
  rule_description := Some "Issues related to security concerns";
|}.

Definition performance : LabelingRule := {|
  rule_pattern :=
    Regex.words
      ["performance"; "slow"; "speed"; "optimize"; "optimization";
       "efficient"; "efficiency"];
  rule_labels := ["performance"];
  rule_description := Some "Issues related to performance";
|}.

End CommonLabelingRules.

(** ** Two gateways *)

(** A gateway with scripted answers, as the mocked Octokit of
    __tests__/auto-labeler.test.ts: the outside world has no state. *)
Module Mock.

Record Script : Type := {
  on_getRepoIssues : Error + list Issue;
  on_getRepoLabels : Error + list Label;
  on_createLabel : string → Error + unit;
  on_labelIssue : Z → Error + unit;
}.

Definition client (s : Script) : GitHubClient unit := {|
  getRepoIssues := λ _ w, (on_getRepoIssues s, w);
  getRepoLabels := λ w, (on_getRepoLabels s, w);
  createLabel := λ name _ _ w, (on_createLabel s name, w);
  labelIssue := λ n _ w, (on_labelIssue s n, w);
|}.

End Mock.

(** [GitHubClient] of src/github-client.ts in front of a repository held in
    memory: the issue tracker that [octokit] talks to keeps a list of
    issues, each open or closed, and a list of labels, and it answers
    every request but the lookup of an issue it does not have. The lines
    the client itself gives to the logger are not recorded: a transcript
    holds what the engine does. *)
Module Repo.

Record StoredIssue : Type := {
  is_open : bool;
  content : Issue;
}.

Record t : Type := {
  issues : list StoredIssue;
  labels : list Label;
}.

Definition listed (state : option IssueState) (i : StoredIssue) : bool :=
  match state with
  | Some all => true
  | Some closed => negb (is_open i)
  | Some open | None => is_open i
  end.

(** Modelled from the spec: [getRepoIssues] is not in src/github-client.ts;
    section 6 gives it as "issue-state filter -> ordered sequence of
    Issue", and step 2 of [run] as "fetch issues from the gateway
    filtered by issueState". A missing filter lists the open issues, the
    default of the configuration. *)
Definition getRepoIssues (state : option IssueState) (r : t)
  : (Error + list Issue) * t :=
  (inr (content <$> filter (λ i, listed state i = true) (issues r)), r).

(** Lines 320-337: [octokit.issues.listLabelsForRepo]. *)
Definition getRepoLabels (r : t) : (Error + list Label) * t :=
  (inr (labels r), r).

(** [color.replace(/^#/, '')]. *)
Definition strip_hash (color : string) : string :=
  match color with
  | String c rest => if Ascii.nat_of_ascii c =? 35 then rest else color
  | EmptyString => color
  end.

Definition invalid_label : Error :=
  {| message := "Invalid parameters: name and color are required" |}.

(** Lines 345-374: [!name || !color] is rejected, otherwise
    [octokit.issues.createLabel] adds the label. *)
Definition createLabel (name color description : string) (r : t)
  : (Error + unit) * t :=
  match name, color with
  | EmptyString, _ | _, EmptyString => (inl invalid_label, r)
  | _, _ =>
      (inr tt,
       {| issues := issues r;
          labels := labels r ++
            [{| label_name := name;
                label_color := strip_hash color;
                label_description := Some description |}] |})
  end.

Definition invalid_issue : Error :=
  {| message :=
       "Invalid parameters: issueNumber must be a number and labels must be an array" |}.

Definition not_found : Error := {| message := "Not Found" |}.

(** [octokit.issues.addLabels]: the labels not yet on the issue are
    added to it. *)
Definition add_labels (new : list string) (i : Issue) : Issue :=
  {| issue_number := issue_number i;
     issue_title := issue_title i;
     issue_body := issue_body i;
     issue_labels :=
       Some (default [] (issue_labels i)
             ++ list_difference new (default [] (issue_labels i))) |}.

Definition add_labels_to (n : Z) (new : list string) (i : StoredIssue)
  : StoredIssue :=
  if decide (issue_number (content i) = n)
  then {| is_open := is_open i; content := add_labels new (content i) |}
  else i.

(** Lines 213-243: [!issueNumber] is rejected, [octokit.issues.get]
    fails for an issue the repository does not have, otherwise
    [octokit.issues.addLabels] labels the issue. *)
Definition labelIssue (n : Z) (new : list string) (r : t)
  : (Error + unit) * t :=
  if decide (n = 0%Z) then (inl invalid_issue, r)
  else if decide (n ∈ (λ i, issue_number (content i)) <$> issues r)
  then (inr tt,
        {| issues := add_labels_to n new <$> issues r; labels := labels r |})
  else (inl not_found, r).

Definition client : GitHubClient t :=
  Build_GitHubClient t getRepoIssues getRepoLabels createLabel labelIssue.

End Repo.

(** ** Reading transcripts *)

(** The label a successful [createLabel] call created. *)
Definition created_name (ev : Event) : option string :=
  match ev with
  | Called (CreateLabel name _ _) None => Some name
  | _ => None
  end.

Definition created (t : list Event) : list string := omap created_name t.

(** The arguments of a [labelIssue] call. *)
Definition label_call (ev : Event) : option (Z * list string) :=
  match ev with
  | Called (LabelIssue n labels) _ => Some (n, labels)
  | _ => None
  end.

Definition label_calls (t : list Event) : list (Z * list string) :=
  omap label_call t.

Definition create_call (ev : Event) : option string :=
  match ev with
  | Called (CreateLabel name _ _) _ => Some name
  | _ => None
  end.

(** The names [createLabel] was called with, successfully or not. *)
Definition create_calls (t : list Event) : list string := omap create_call t.

(** The error of a failed call that [run] does not catch: any gateway
    call but [createLabel]. *)
Definition fatal (ev : Event) : option Error :=
  match ev with
  | Called (CreateLabel _ _ _) _ => None
  | Called _ failure => failure
  | LoggedError _ => None
  end.

(** [availableLabelNames] after an event, and after a transcript. *)
Definition learn (known : gset string) (ev : Event) : gset string :=
  match created_name ev with
  | Some name => {[name]} ∪ known
  | None => known
  end.

Definition known_after (known : gset string) (t : list Event) : gset string :=
  foldl learn known t.

(** Every event of [t] satisfies [P] for the label names known when it
    happens. *)
Fixpoint follows (P : gset string → Event → Prop) (known : gset string)
    (t : list Event) : Prop :=
  match t with
  | [] => True
  | ev :: t' => P known ev ∧ follows P (learn known ev) t'
  end.

(** What holds of each gateway call made while the issues [issues] are
    processed. *)
Definition step_ok (this : GitHubAutoLabeler) (issues : list Issue)
    (known : gset string) (ev : Event) : Prop :=
  match ev with
  | Called (CreateLabel name color description) _ =>
      truthy (get (createMissingLabels (config this))) = true
      ∧ (name ∉ known)
      ∧ color = or_else (get (defaultLabelColor (config this))) "0075ca"
      ∧ description = description_for name
      ∧ ∃ i, i ∈ issues ∧ skips this i = false
             ∧ name ∈ labelsToAdd (rules this) i
  | Called (LabelIssue n labels) _ =>
      labels ≠ []
      ∧ ∃ i, i ∈ issues ∧ skips this i = false ∧ n = issue_number i
             ∧ labels = filter (λ l : string, l ∈ known)
                          (labelsToAdd (rules this) i)
  | _ => True
  end.

(** The transcript of the issue loop has no failed call but [createLabel]
    ones, except that a loop that throws ends at the [labelIssue] call
    that threw the error. *)
Definition ends {A} (out : Error + A) (t : list Event) : Prop :=
  match out with
  | inr _ => Forall (λ ev, fatal ev = None) t
  | inl err =>
      ∃ pre n labels,
        t = pre ++ [Called (LabelIssue n labels) (Some err)]
        ∧ Forall (λ ev, fatal ev = None) pre
  end.

Definition entry_key (d : ResultDetail) : Z * list string :=
  (issueNumber d, appliedLabels d).

(** The [details] entry [d] records the labelling of issue [i] by the
    call that follows [pre] in the transcript [t], begun with the label
    names [known]. *)
Definition entry_of (this : GitHubAutoLabeler) (known : gset string)
    (t : list Event) (d : ResultDetail) (i : Issue) (pre : list Event) : Prop :=
  skips this i = false
  ∧ issueNumber d = issue_number i
  ∧ title d = issue_title i
  ∧ appliedLabels d = filter (λ l : string, l ∈ known_after known pre)
                        (labelsToAdd (rules this) i)
  ∧ ∃ post, t = pre ++ Called (LabelIssue (issue_number i) (appliedLabels d))
                         None :: post.

(** How [result] changes over a stretch of the issue loop with transcript
    [t] that handles the issues [issues], begun with the label names
    [known]. *)
Definition accounts (this : GitHubAutoLabeler) (issues : list Issue)
    (known : gset string) (r : AutoLabelResult) (t : list Event)
    (r' : AutoLabelResult) : Prop :=
  totalIssues r' = totalIssues r
  ∧ labelsCreated r' = labelsCreated r + length (created t)
  ∧ labeledIssues r' = labeledIssues r + length (label_calls t)
  ∧ ∃ ds, details r' = details r ++ ds
          ∧ (entry_key <$> ds) = label_calls t
          ∧ (issueNumber <$> ds) `sublist_of` (issue_number <$> issues)
          ∧ Forall (λ d, ∃ i pre, i ∈ issues ∧ entry_of this known t d i pre)
              ds.

(** A stretch of the issue loop that handles [issues], some of the
    fetched issues [fetched]: its transcript and its effect on the loop
    variables. *)
Definition segment (this : GitHubAutoLabeler) (fetched issues : list Issue)
    (st : gset string * AutoLabelResult)
    (out : Error + gset string * AutoLabelResult) (t : list Event) : Prop :=
  follows (step_ok this fetched) st.1 t
  ∧ ends out t
  ∧ ∀ st', out = inr st' →
           st'.1 = known_after st.1 t ∧ accounts this issues st.1 st.2 t st'.2.

(** ** Specifications in the words of the specification *)

(** One key of a shallow merge, in the words of the specification: a key
    the partial object does not mention keeps its prior value, a key it
    mentions takes the partial object's value. *)
Definition merged {A} (prior partial result : Field A) : Prop :=
  (partial = Absent → result = prior) ∧ (partial ≠ Absent → result = partial).

Definition shallow_merge (prior partial result : AutoLabelConfig) : Prop :=
  merged (createMissingLabels prior) (createMissingLabels partial)
    (createMissingLabels result)
  ∧ merged (defaultLabelColor prior) (defaultLabelColor partial)
      (defaultLabelColor result)
  ∧ merged (relabelExistingIssues prior) (relabelExistingIssues partial)
      (relabelExistingIssues result)
  ∧ merged (issueState prior) (issueState partial) (issueState result).

(** In the words of the specification: the labels of every rule whose
    pattern matches, in rule order, and that sequence with duplicates
    removed, each label at the place where it is first seen. *)
Definition matching_labels (rs : list LabelingRule) (text : string)
  : list string :=
  concat (rule_labels <$> filter (λ rule, rule_pattern rule text = true) rs).

Fixpoint dedup_first (l : list string) : list string :=
  match l with
  | [] => []
  | x :: l' => x :: filter (λ y, y ≠ x) (dedup_first l')
  end.

(** ** What a run fetches, and what it returns *)

(** What the two fetches of [run] return in the world [w]. *)
Definition fetched_issues {W} (client : GitHubClient W)
    (this : GitHubAutoLabeler) (w : W) : Error + list Issue :=
  (getRepoIssues client (get (issueState (config this))) w).1.

Definition fetched_labels {W} (client : GitHubClient W)
    (this : GitHubAutoLabeler) (w : W) : Error + list Label :=
  (getRepoLabels client
     (getRepoIssues client (get (issueState (config this))) w).2).1.

(** [availableLabelNames] as first built from the fetched labels. *)
Definition known_names (labs : list Label) : gset string :=
  list_to_set (label_name <$> labs).

Definition initial_result (issues : list Issue) : AutoLabelResult :=
  {| totalIssues := length issues;
     labeledIssues := 0;
     labelsCreated := 0;
     details := [] |}.

Definition result_of (out : Error + gset string * AutoLabelResult)
  : Error + AutoLabelResult :=
  match out with
  | inl err => inl err
  | inr st => inr st.2
  end.

Definition failure_log {A} (out : Error + A) : list Event :=
  match out with
  | inl err => [LoggedError (run_failed_msg err)]
  | inr _ => []
  end.

(** Issue [i] was handled in a run of the loop begun with the label names
    [known], with transcript [t] and final entries [ds]: at the point
    [pre] of the transcript where its labels are filtered, every
    candidate is known or its creation was tried (when labels are
    created at all), and the labels that pass the filter, if any, are
    applied and recorded. *)
Definition processed (this : GitHubAutoLabeler) (known : gset string)
    (t : list Event) (ds : list ResultDetail) (i : Issue) : Prop :=
  ∃ pre,
    (∃ post, t = pre ++ post)
    ∧ (truthy (get (createMissingLabels (config this))) = true →
       ∀ c, c ∈ labelsToAdd (rules this) i →
            c ∈ known_after known pre ∨ c ∈ create_calls pre)
    ∧ (filter (λ l : string, l ∈ known_after known pre)
         (labelsToAdd (rules this) i) = []
       ∨ ∃ d, d ∈ ds ∧ entry_of this known t d i pre).

(** ** Runs compared *)

(** The gateway [client] with the labelled issues left out of what
    [getRepoIssues] returns. *)
Definition only_unlabelled {W} (client : GitHubClient W) : GitHubClient W := {|
  getRepoIssues := λ state w,
    match getRepoIssues client state w with
    | (inr issues, w1) => (inr (filter (λ i, has_labels i = false) issues), w1)
    | (inl err, w1) => (inl err, w1)
    end;
  getRepoLabels := getRepoLabels client;
  createLabel := createLabel client;
  labelIssue := labelIssue client;
|}.

Definition with_total (n : nat) (r : AutoLabelResult) : AutoLabelResult :=
  {| totalIssues := n;
     labeledIssues := labeledIssues r;
     labelsCreated := labelsCreated r;
     details := details r |}.

(** A result without its [totalIssues]. *)
Definition forget_total (out : Error + AutoLabelResult)
  : Error + AutoLabelResult :=
  match out with
  | inl err => inl err
  | inr r => inr (with_total 0 r)
  end.

Definition retotal {W} (n : nat)
    (x : (Error + gset string * AutoLabelResult) * W * list Event)
  : (Error + gset string * AutoLabelResult) * W * list Event :=
  match x with
  | (inr st, w, t) => (inr (st.1, with_total n st.2), w, t)
  | (inl err, w, t) => (inl err, w, t)
  end.

(** ** The repository over a run *)

(** The arguments of a [labelIssue] call that returned. *)
Definition applied_call (ev : Event) : option (Z * list string) :=
  match ev with
  | Called (LabelIssue n labels) None => Some (n, labels)
  | _ => None
  end.

Definition applied (t : list Event) : list (Z * list string) :=
  omap applied_call t.

(** How often issue number [n] was labelled in the transcript [t]. *)
Definition times_labelled (n : Z) (t : list Event) : nat :=
  length (filter (λ c, c.1 = n) (applied t)).

(** A stored issue later on: the same issue, and still labelled if it was. *)
Definition grows (a b : Repo.StoredIssue) : Prop :=
  Repo.is_open a = Repo.is_open b
  ∧ issue_number (Repo.content a) = issue_number (Repo.content b)
  ∧ issue_title (Repo.content a) = issue_title (Repo.content b)
  ∧ issue_body (Repo.content a) = issue_body (Repo.content b)
  ∧ (has_labels (Repo.content a) = true → has_labels (Repo.content b) = true).

(** A [createLabel] call that the repository can refuse: one without a
    name. *)
Definition refusable (ev : Event) : Prop :=
  ∀ c, create_call ev = Some c → created_name ev = Some c ∨ c = "".

(** The repository [s'] that the calls of the transcript [t] leave of
    the repository [s]. *)
Definition evolves (t : list Event) (s s' : Repo.t) : Prop :=
  Forall2 grows (Repo.issues s) (Repo.issues s')
  ∧ label_name <$> Repo.labels s' = (label_name <$> Repo.labels s) ++ created t
  ∧ Forall refusable t
  ∧ ("" ∉ created t)
  ∧ ∀ n labels b,
      (n, labels) ∈ applied t → b ∈ Repo.issues s' →
      issue_number (Repo.content b) = n → has_labels (Repo.content b) = true.

(** No label can be applied to issue [i], now or later in the run: none
    of its candidates is among the names [known], and where labels are
    created, each is the empty name, which the repository refuses. *)
Definition dead (this : GitHubAutoLabeler) (known : gset string) (i : Issue)
  : Prop :=
  ∀ c, c ∈ labelsToAdd (rules this) i →
       (c ∉ known)
       ∧ (truthy (get (createMissingLabels (config this))) = true → c = "").

(** ** Fixtures: the data of __tests__/auto-labeler.test.ts *)

Module Fixtures.

Definition crash_issue : Issue := {|
  issue_number := 1;
  issue_title := "Bug: Application crashes on startup";
  issue_body := Some "The application crashes when I try to start it.";
  issue_labels := Some [];
|}.

Definition dark_mode_issue (labels : list string) : Issue := {|
  issue_number := 2;
  issue_title := "Feature request: Add dark mode";
  issue_body := Some "Please add dark mode to the application.";
  issue_labels := Some labels;
|}.

Definition docs_issue : Issue := {|
  issue_number := 3;
  issue_title := "Documentation needs update";
  issue_body := Some "The documentation is outdated.";
  issue_labels := Some [];
|}.

Definition security_issue : Issue := {|
  issue_number := 1;
  issue_title := "Security vulnerability found";
  issue_body := Some "There is a security issue in the authentication system.";
  issue_labels := Some [];
|}.

(** An issue without body that no catalogue rule matches. *)
Definition greeting_issue : Issue := {|
  issue_number := 4;
  issue_title := "Hello";
  issue_body := None;
  issue_labels := Some [];
|}.


(** An issue that the catalogue rules [bug] and [security] both match. *)
Definition auth_crash_issue : Issue := {|
  issue_number := 6;
  issue_title := "Crash in auth module";
  issue_body := Some "";
  issue_labels := Some [];
|}.

(** A rule with the pattern of [bug] that proposes "bug" again. *)
Definition triage : LabelingRule := {|
  rule_pattern := rule_pattern CommonLabelingRules.bug;
  rule_labels := ["triage"; "bug"];
  rule_description := None;
|}.

Definition label (name color : string) : Label :=
  {| label_name := name; label_color := color; label_description := None |}.

Definition three_labels : list Label :=
  [label "bug" "ff0000"; label "enhancement" "00ff00";
   label "documentation" "0000ff"].

Definition two_labels : list Label :=
  [label "bug" "ff0000"; label "enhancement" "00ff00"].

Definition three_issues : list Issue :=
  [crash_issue; dark_mode_issue []; docs_issue].

Definition autoLabeler : GitHubAutoLabeler := new_GitHubAutoLabeler empty_config.

Definition only (f : AutoLabelConfig → AutoLabelConfig) : AutoLabelConfig :=
  f empty_config.

Definition with_createMissingLabels (v : Field bool) (c : AutoLabelConfig)
  : AutoLabelConfig :=
  {| createMissingLabels := v;
     defaultLabelColor := defaultLabelColor c;
     relabelExistingIssues := relabelExistingIssues c;
     issueState := issueState c |}.

Definition with_defaultLabelColor (v : Field string) (c : AutoLabelConfig)
  : AutoLabelConfig :=
  {| createMissingLabels := createMissingLabels c;
     defaultLabelColor := v;
     relabelExistingIssues := relabelExistingIssues c;
     issueState := issueState c |}.

Definition with_relabelExistingIssues (v : Field bool) (c : AutoLabelConfig)
  : AutoLabelConfig :=
  {| createMissingLabels := createMissingLabels c;
     defaultLabelColor := defaultLabelColor c;
     relabelExistingIssues := v;
     issueState := issueState c |}.

Definition boom : Error := {| message := "boom" |}.

(** All gateway calls answer; the issues and labels are as given. *)
Definition answering (issues : list Issue) (labels : list Label)
  : Mock.Script := {|
  Mock.on_getRepoIssues := inr issues;
  Mock.on_getRepoLabels := inr labels;
  Mock.on_createLabel := λ _, inr tt;
  Mock.on_labelIssue := λ _, inr tt;
|}.

(** As [answering], but labelling issue [n] is rejected. *)
Definition rejecting_issue (n : Z) (issues : list Issue) (labels : list Label)
  : Mock.Script := {|
  Mock.on_getRepoIssues := inr issues;
  Mock.on_getRepoLabels := inr labels;
  Mock.on_createLabel := λ _, inr tt;
  Mock.on_labelIssue := λ k, if decide (k = n) then inl boom else inr tt;
|}.

(** As [answering], but creating the label [name] is rejected. *)
Definition rejecting_label (name : string) (issues : list Issue)
    (labels : list Label) : Mock.Script := {|
  Mock.on_getRepoIssues := inr issues;
  Mock.on_getRepoLabels := inr labels;
  Mock.on_createLabel := λ l, if decide (l = name) then inl boom else inr tt;
  Mock.on_labelIssue := λ _, inr tt;
|}.

(** The engine of the test "should skip already labeled issues", with
    the three catalogue rules of the first test. *)
Definition skipping_labeler : GitHubAutoLabeler :=
  addRules [CommonLabelingRules.bug; CommonLabelingRules.enhancement;
            CommonLabelingRules.documentation]
    (setConfig (only (with_relabelExistingIssues (Value false))) autoLabeler).


Definition stored (i : Issue) : Repo.StoredIssue :=
  {| Repo.is_open := true; Repo.content := i |}.

Definition repo (issues : list Issue) (labels : list Label) : Repo.t :=
  {| Repo.issues := stored <$> issues; Repo.labels := labels |}.

(** The three issues of the test suite and one that no rule matches. *)
Definition four_issues_repo : Repo.t :=
  repo (three_issues ++ [greeting_issue]) three_labels.

End Fixtures.

(** * More of the engine: the shape of transcripts and of the catalogue *)

(** ** The shape of a transcript of the issue loop *)

(** The issue loop emits creations that returned, creations that threw
    each followed by its log line, [labelIssue] calls that returned, and
    nothing after a [labelIssue] call that threw. *)
Inductive shaped : list Event → Prop :=
| shaped_nil : shaped []
| shaped_created name color description t :
    shaped t →
    shaped (Called (CreateLabel name color description) None :: t)
| shaped_refused name color description err t :
    shaped t →
    shaped (Called (CreateLabel name color description) (Some err)
              :: LoggedError (create_failed_msg name err) :: t)
| shaped_labelled n labels t :
    shaped t → shaped (Called (LabelIssue n labels) None :: t)
| shaped_rejected n labels err :
    shaped [Called (LabelIssue n labels) (Some err)].

(** A gateway whose [createLabel] always returns. *)
Definition never_refuses {W} (client : GitHubClient W) : Prop :=
  ∀ name color description w,
    (createLabel client name color description w).1 = inr tt.

(** Every [createLabel] call of the transcript returned. *)
Definition all_created (t : list Event) : Prop :=
  Forall (λ ev, create_call ev = created_name ev) t.

(** The calls to the two fetch operations in a transcript. *)
Definition fetch_call (ev : Event) : option Call :=
  match ev with
  | Called (GetRepoIssues state) _ => Some (GetRepoIssues state)
  | Called GetRepoLabels _ => Some GetRepoLabels
  | _ => None
  end.

Definition fetch_calls (t : list Event) : list Call := omap fetch_call t.

(** The lines given to the logger. *)
Definition logged_line (ev : Event) : option string :=
  match ev with
  | LoggedError msg => Some msg
  | _ => None
  end.

Definition log_lines (t : list Event) : list string := omap logged_line t.

(** The [createLabel] calls that threw, each with its error. *)
Definition refused_call (ev : Event) : option (string * Error) :=
  match ev with
  | Called (CreateLabel name _ _) (Some err) => Some (name, err)
  | _ => None
  end.

Definition refused (t : list Event) : list (string * Error) :=
  omap refused_call t.

Definition refusal_line (p : string * Error) : string :=
  create_failed_msg p.1 p.2.

(** Nothing can be applied to the issue [i] when the names [known] are
    known: where labels are created it has no candidate, elsewhere no
    candidate that is known. *)
Definition nothing_to_apply (this : GitHubAutoLabeler) (known : gset string)
    (i : Issue) : Prop :=
  if truthy (get (createMissingLabels (config this)))
  then labelsToAdd (rules this) i = []
  else ∀ l, l ∈ labelsToAdd (rules this) i → l ∉ known.

(** ** Reading the catalogue patterns *)

(** The rules of [CommonLabelingRules], in the order of the object's keys. *)
Definition common_rules : list LabelingRule :=
  [CommonLabelingRules.bug; CommonLabelingRules.enhancement;
   CommonLabelingRules.documentation; CommonLabelingRules.question;
   CommonLabelingRules.security; CommonLabelingRules.performance].

(** A text as the [i] flag reads it. *)
Fixpoint case_folded (s : string) : list nat :=
  match s with
  | EmptyString => []
  | String c s' => Regex.fold_case c :: case_folded s'
  end.

(** Whether the text [pre], coming after a word character or not as
    [prev_word] tells, ends in a word character. *)
Fixpoint word_before (prev_word : bool) (pre : string) : bool :=
  match pre with
  | EmptyString => prev_word
  | String c pre' => word_before (Regex.is_word_char c) pre'
  end.

(** The text [s] holds one of the words [ws], in any letter case, at a
    place that no word character precedes and where [after] accepts what
    comes next. *)
Definition occurs (ws : list string) (after : string → bool)
    (prev_word : bool) (s : string) : Prop :=
  ∃ pre x rest w,
    s = pre +:+ x +:+ rest
    ∧ word_before prev_word pre = false
    ∧ w ∈ ws ∧ case_folded x = case_folded w
    ∧ after rest = true.

(** * The client (src/github-client.ts)

    [GitHubClient] talks to GitHub through [octokit] and to the local
    clone through [git]. Both are the outside world here: a request is
    answered with the [data] of the response or with a thrown error. The
    transcript of a method holds the requests it sent, each with its
    outcome, and the lines it gave to [elizaLogger]. Numbers are
    integers, printed in decimal as a template literal prints them. *)

Module Client.

Record GitHubConfig : Type := {
  owner : string;
  repo : string;
  branch : option string;
  path : option string;
  token : string;
}.

(** What the methods read of a client object; [octokit] tells whether
    that field is set. *)
Record t : Type := {
  config : GitHubConfig;
  octokit : bool;
  repoPath : string;
}.

(** The calls on [octokit], on [git] and on [fs], with the fields of
    their arguments. [simpleGit dir] is the call [simpleGit(dir)] that
    makes the [git] of a directory, and a call on that [git] carries the
    directory; [git_clone] is called on the [git] of the constructor;
    [fs.mkdir] is always called with [recursive: true]. *)
Inductive Request : Type :=
| issues_get (owner repo : string) (issue_number : Z)
| issues_addLabels (owner repo : string) (issue_number : Z)
    (labels : list string)
| issues_removeLabel (owner repo : string) (issue_number : Z) (name : string)
| issues_removeAllLabels (owner repo : string) (issue_number : Z)
| issues_setLabels (owner repo : string) (issue_number : Z)
    (labels : list string)
| issues_listLabelsForRepo (owner repo : string)
| issues_createLabel (owner repo name color description : string)
| pulls_create (owner repo title body head base : string)
| git_clone (url path : string)
| simpleGit (dir : string)
| git_pull (dir : string)
| git_checkout (dir : string) (args : list string)
| git_add (dir files : string)
| git_commit (dir message : string)
| git_push (dir : string) (args : list string)
| fs_mkdir (path : string)
| fs_writeFile (path content : string).

Inductive Level : Type := level_error | level_log.

(** [Sent r None] is a request that was answered, [Sent r (Some err)] one
    that threw [err]; [Logged] is a line given to [elizaLogger]; [Replied]
    is a call of the callback of an action, with its outcome. *)
Inductive Event : Type :=
| Sent (r : Request) (failure : option Error)
| Logged (level : Level) (msg : string)
| Replied (text : string) (failure : option Error).

(** A truthy string: defined and not empty. *)
Definition given (o : option string) : option string :=
  match o with
  | Some (String c s) => Some (String c s)
  | _ => None
  end.

Definition not_initialized : Error :=
  {| message := "GitHub client not initialized" |}.

Definition invalid_issue_number : Error :=
  {| message := "Invalid parameter: issueNumber must be a number" |}.

Definition label_failed_msg (issueNumber : Z) (err : Error) : string :=
  "Failed to label issue #" +:+ pretty issueNumber +:+ ": " +:+ message err.

Definition remove_failed_msg (issueNumber : Z) (err : Error) : string :=
  "Failed to remove label(s) from issue #" +:+ pretty issueNumber +:+ ": "
    +:+ message err.

Definition set_failed_msg (issueNumber : Z) (err : Error) : string :=
  "Failed to set labels for issue #" +:+ pretty issueNumber +:+ ": "
    +:+ message err.

Definition list_failed_msg (err : Error) : string :=
  "Failed to get repository labels: " +:+ message err.

Definition repositoryUrl (c : GitHubConfig) : string :=
  "https://github.com/" +:+ owner c +:+ "/" +:+ repo c +:+ ".git".

Definition maxRetries : nat := 3.

Definition cloned_msg (url : string) : string :=
  "Successfully cloned repository from " +:+ url.

Definition retrying_msg (url : string) : string :=
  "Failed to clone repository from " +:+ url +:+ ". Retrying...".

Definition unable_to_clone (url : string) : Error :=
  {| message := "Unable to clone repository from " +:+ url +:+ " after "
                  +:+ pretty maxRetries +:+ " retries." |}.

Section Methods.
Context {W Data : Type}.

(** The outside world: how a request is answered in a state of the
    world, and the state it leaves. *)
Variable remote : Request → W → (Error + Data) * W.

Definition M (A : Type) : Type := W → (Error + A) * W * list Event.

Definition ret {A} (a : A) : M A := λ w, (inr a, w, []).

Definition throw {A} (err : Error) : M A := λ w, (inl err, w, []).

Definition bind {A B} (m : M A) (k : A → M B) : M B := λ w,
  match m w with
  | (inl err, w1, t1) => (inl err, w1, t1)
  | (inr a, w1, t1) =>
      match k a w1 with
      | (r, w2, t2) => (r, w2, t1 ++ t2)
      end
  end.

Definition try_catch {A} (m : M A) (handler : Error → M A) : M A := λ w,
  match m w with
  | (inl err, w1, t1) =>
      match handler err w1 with
      | (r, w2, t2) => (r, w2, t1 ++ t2)
      end
  | (inr a, w1, t1) => (inr a, w1, t1)
  end.

Definition send (r : Request) : M Data := λ w,
  match remote r w with
  | (out, w1) => (out, w1, [Sent r (failure_of out)])
  end.

Definition log (level : Level) (msg : string) : M unit := λ w,
  (inr tt, w, [Logged level msg]).

Notation "x <~ m ;; k" := (bind m (λ x, k))
  (at level 100, m at next level, right associativity).

(** [try { body } catch (error) { elizaLogger.error(msg); throw error; }],
    the frame of the five label methods. *)
Definition logged {A} (msg : Error → string) (body : M A) : M A :=
  try_catch body
    (λ error, _ <~ log level_error (msg error) ;; throw error).

(** Lines 213-243. [labels] is [None] for a value that is not an array. *)
Definition labelIssue (this : t) (issueNumber : Z)
    (labels : option (list string)) : M Data :=
  logged (label_failed_msg issueNumber)
    (if negb (octokit this) then throw not_initialized
     else
       match labels with
       | Some labels' =>
           if (issueNumber =? 0)%Z then throw Repo.invalid_issue
           else
             _ <~ send (issues_get (owner (config this)) (repo (config this))
                          issueNumber) ;;
             send (issues_addLabels (owner (config this)) (repo (config this))
                     issueNumber labels')
       | None => throw Repo.invalid_issue
       end).

(** Lines 251-283. *)
Definition removeIssueLabel (this : t) (issueNumber : Z)
    (label : option string) : M Data :=
  logged (remove_failed_msg issueNumber)
    (if negb (octokit this) then throw not_initialized
     else if (issueNumber =? 0)%Z then throw invalid_issue_number
     else
       match given label with
       | Some name =>
           send (issues_removeLabel (owner (config this)) (repo (config this))
                   issueNumber name)
       | None =>
           send (issues_removeAllLabels (owner (config this))
                   (repo (config this)) issueNumber)
       end).

(** Lines 291-314. *)
Definition setIssueLabels (this : t) (issueNumber : Z)
    (labels : option (list string)) : M Data :=
  logged (set_failed_msg issueNumber)
    (if negb (octokit this) then throw not_initialized
     else
       match labels with
       | Some labels' =>
           if (issueNumber =? 0)%Z then throw Repo.invalid_issue
           else
             send (issues_setLabels (owner (config this)) (repo (config this))
                     issueNumber labels')
       | None => throw Repo.invalid_issue
       end).

(** Lines 320-336. *)
Definition getRepoLabels (this : t) : M Data :=
  logged list_failed_msg
    (if negb (octokit this) then throw not_initialized
     else
       send (issues_listLabelsForRepo (owner (config this))
               (repo (config this)))).

(** Lines 345-369. *)
Definition createLabel (this : t) (name color : string)
    (description : option string) : M Data :=
  logged (create_failed_msg name)
    (if negb (octokit this) then throw not_initialized
     else
       match name, color with
       | String _ _, String _ _ =>
           send (issues_createLabel (owner (config this)) (repo (config this))
                   name (Repo.strip_hash color) (or_else description ""))
       | _, _ => throw Repo.invalid_label
       end).

(** Lines 71-95, one turn of the [while] loop with [remaining] standing
    for [maxRetries - retries]: the loop is left by [return] after a
    clone, by [throw] when [retries] reaches [maxRetries], and by its
    condition when no turn remains. *)
Fixpoint cloneLoop (this : t) (remaining : nat) : M unit :=
  match remaining with
  | 0 => ret tt
  | S remaining' =>
      cloned <~ try_catch
                  (_ <~ send (git_clone (repositoryUrl (config this))
                                (repoPath this)) ;;
                   _ <~ log level_log
                          (cloned_msg (repositoryUrl (config this))) ;;
                   ret true)
                  (λ _,
                     _ <~ log level_error
                            (retrying_msg (repositoryUrl (config this))) ;;
                     if (remaining' =? 0)%nat
                     then throw (unable_to_clone (repositoryUrl (config this)))
                     else ret false) ;;
      if cloned : bool then ret tt else cloneLoop this remaining'
  end.

Definition cloneRepository (this : t) : M unit := cloneLoop this maxRetries.

End Methods.

(** What a clone that failed with [err] leaves in the transcript, and
    what clones that failed one after the other leave. *)
Definition failed_clone (this : t) (err : Error) : list Event :=
  [Sent (git_clone (repositoryUrl (config this)) (repoPath this)) (Some err);
   Logged level_error (retrying_msg (repositoryUrl (config this)))].

Definition failed_clones (this : t) (errs : list Error) : list Event :=
  errs ≫= failed_clone this.

(** ** The local clone: [initialize], [createPullRequest], [createCommit] *)

(** A file to write: [{ path, content }]. *)
Record File : Type := {
  file_path : string;
  file_content : string;
}.

Section Repository.
Context {W Data : Type}.

Variable remote : Request → W → (Error + Data) * W.

(** Node's [path.join] and [path.dirname], [process.cwd()], and
    [existsSync] in a state of the world. *)
Variable path_join : list string → string.
Variable path_dirname : string → string.
Variable cwd : string.
Variable existsSync : string → W → bool.

Notation "x <~ m ;; k" := (bind m (λ x, k))
  (at level 100, m at next level, right associativity).

(** Lines 30-48, for a runtime whose settings are [settings]: [octokit]
    is always set. *)
Definition new_GitHubClient (settings : GitHubConfig) : t := {|
  config := settings;
  octokit := true;
  repoPath := path_join [cwd; ".repos"; owner settings; repo settings];
|}.

Definition exists_now (path : string) : M (W:=W) bool := λ w,
  (inr (existsSync path w), w, []).

(** Lines 50-69. *)
Definition initialize (this : t) : M (W:=W) unit :=
  _ <~ send remote (fs_mkdir (path_join [cwd; ".repos"; owner (config this)])) ;;
  there <~ exists_now (repoPath this) ;;
  _ <~ (if negb there then cloneRepository remote this
        else
          _ <~ send remote (simpleGit (repoPath this)) ;;
          _ <~ send remote (git_pull (repoPath this)) ;;
          ret tt) ;;
  match given (branch (config this)) with
  | Some b =>
      _ <~ send remote (simpleGit (repoPath this)) ;;
      _ <~ send remote (git_checkout (repoPath this) [b]) ;;
      ret tt
  | None => ret tt
  end.

(** Lines 160-164 and 192-196: the loop that writes the files. *)
Fixpoint writeFiles (this : t) (files : list File) : M (W:=W) unit :=
  match files with
  | [] => ret tt
  | file :: files' =>
      _ <~ send remote
             (fs_mkdir
                (path_dirname (path_join [repoPath this; file_path file]))) ;;
      _ <~ send remote
             (fs_writeFile (path_join [repoPath this; file_path file])
                (file_content file)) ;;
      writeFiles this files'
  end.

(** Reading [this.octokit.pulls] of a client whose [octokit] is not set
    throws a [TypeError]; the message is the one of V8. *)
Definition octokit_undefined : Error :=
  {| message := "Cannot read properties of undefined (reading 'pulls')" |}.

(** Lines 149-182. *)
Definition createPullRequest (this : t) (title branch' : string)
    (files : list File) (description : option string) : M (W:=W) Data :=
  _ <~ send remote (simpleGit (repoPath this)) ;;
  _ <~ send remote (git_checkout (repoPath this) ["-b"; branch']) ;;
  _ <~ writeFiles this files ;;
  _ <~ send remote (git_add (repoPath this) ".") ;;
  _ <~ send remote (git_commit (repoPath this) title) ;;
  _ <~ send remote (git_push (repoPath this) ["origin"; branch']) ;;
  if octokit this
  then
    send remote
      (pulls_create (owner (config this)) (repo (config this)) title
         (or_else description title) branch'
         (or_else (branch (config this)) "main"))
  else throw octokit_undefined.

(** Lines 184-201. *)
Definition createCommit (this : t) (message' : string) (files : list File)
  : M (W:=W) unit :=
  _ <~ send remote (simpleGit (repoPath this)) ;;
  _ <~ writeFiles this files ;;
  _ <~ send remote (git_add (repoPath this) ".") ;;
  _ <~ send remote (git_commit (repoPath this) message') ;;
  _ <~ send remote (git_push (repoPath this) []) ;;
  ret tt.

(** The requests that write one file, and those of the two methods when
    none fails. *)
Definition file_requests (this : t) (file : File) : list Request :=
  [fs_mkdir (path_dirname (path_join [repoPath this; file_path file]));
   fs_writeFile (path_join [repoPath this; file_path file])
     (file_content file)].

Definition pull_request_requests (this : t) (title branch' : string)
    (files : list File) (description : option string) : list Request :=
  [simpleGit (repoPath this); git_checkout (repoPath this) ["-b"; branch']]
    ++ (files ≫= file_requests this)
    ++ [git_add (repoPath this) ".";
        git_commit (repoPath this) title;
        git_push (repoPath this) ["origin"; branch'];
        pulls_create (owner (config this)) (repo (config this)) title
          (or_else description title) branch'
          (or_else (branch (config this)) "main")].

Definition commit_requests (this : t) (message' : string)
    (files : list File) : list Request :=
  simpleGit (repoPath this)
    :: (files ≫= file_requests this)
    ++ [git_add (repoPath this) ".";
        git_commit (repoPath this) message';
        git_push (repoPath this) []].

End Repository.


(** ** The label methods, one by one or all at once *)

(** A call of one of the five label methods, with its arguments. *)
Inductive Method : Type :=
| m_labelIssue (issueNumber : Z) (labels : option (list string))
| m_removeIssueLabel (issueNumber : Z) (label : option string)
| m_setIssueLabels (issueNumber : Z) (labels : option (list string))
| m_getRepoLabels
| m_createLabel (name color : string) (description : option string).

Definition invoke {W Data} (remote : Request → W → (Error + Data) * W)
    (this : t) (m : Method) : M (W:=W) Data :=
  match m with
  | m_labelIssue n labels => labelIssue remote this n labels
  | m_removeIssueLabel n label => removeIssueLabel remote this n label
  | m_setIssueLabels n labels => setIssueLabels remote this n labels
  | m_getRepoLabels => getRepoLabels remote this
  | m_createLabel name color description =>
      createLabel remote this name color description
  end.

(** The line a method gives to the logger for the error [err]. *)
Definition failed_msg (m : Method) (err : Error) : string :=
  match m with
  | m_labelIssue n _ => label_failed_msg n err
  | m_removeIssueLabel n _ => remove_failed_msg n err
  | m_setIssueLabels n _ => set_failed_msg n err
  | m_getRepoLabels => list_failed_msg err
  | m_createLabel name _ _ => create_failed_msg name err
  end.

(** The arguments a method refuses: a missing (zero) issue number, labels
    that are not an array, an empty name or colour. *)
Definition refused_arguments (m : Method) : option Error :=
  match m with
  | m_labelIssue n labels | m_setIssueLabels n labels =>
      if (n =? 0)%Z || bool_decide (labels = None)
      then Some Repo.invalid_issue else None
  | m_removeIssueLabel n _ =>
      if (n =? 0)%Z then Some invalid_issue_number else None
  | m_getRepoLabels => None
  | m_createLabel name color _ =>
      if bool_decide (name = "") || bool_decide (color = "")
      then Some Repo.invalid_label else None
  end.

(** The requests of a transcript, and its log lines. *)
Definition sent_request (ev : Event) : option Request :=
  match ev with
  | Sent r _ => Some r
  | _ => None
  end.

Definition requests (t : list Event) : list Request := omap sent_request t.

Definition answered (ev : Event) : Prop :=
  ∃ r, ev = Sent r None.

Definition is_reply (ev : Event) : option (string * option Error) :=
  match ev with
  | Replied text failure => Some (text, failure)
  | _ => None
  end.

Definition replies (t : list Event) : list (string * option Error) :=
  omap is_reply t.

Definition is_error_line (ev : Event) : option string :=
  match ev with
  | Logged level_error msg => Some msg
  | _ => None
  end.

Definition error_lines (t : list Event) : list string := omap is_error_line t.

(** A transcript of requests only, all answered but, when [failure] is
    an error, the last one, which threw it. *)
Definition all_but_last_answered (failure : option Error) (t : list Event)
  : Prop :=
  match failure with
  | None => Forall answered t
  | Some err => ∃ pre q, t = pre ++ [Sent q (Some err)] ∧ Forall answered pre
  end.

(** The computation [m] sends the requests [rs] in order, stops at the
    first that fails and throws its error, and does nothing else. *)
Definition steps {W A} (rs : list Request) (m : M (W:=W) A) : Prop :=
  ∀ w, all_but_last_answered (failure_of (m w).1.1) (m w).2
       ∧ requests (m w).2 `prefix_of` rs
       ∧ (failure_of (m w).1.1 = None → requests (m w).2 = rs).

(** ** The label actions (github-label-actions.ts) *)

(** What the handlers read of [state]. A field is [None] when it is
    missing; [state_labels] also when it is not an array. *)
Record State : Type := {
  state_name : option string;
  state_color : option string;
  state_description : option string;
  state_issueNumber : option Z;
  state_labels : option (list string);
  state_label : option string;
}.

(** A truthy number. *)
Definition given_number (o : option Z) : option Z :=
  match o with
  | Some n => if (n =? 0)%Z then None else Some n
  | None => None
  end.

Definition client_not_available : Error :=
  {| message := "GitHub client not available" |}.

Definition newline : string := String (Ascii.ascii_of_nat 10) EmptyString.

Definition quoted (s : string) : string := dquote +:+ s +:+ dquote.

(** [labels.map(l => `"${l}"`).join(", ")]. *)
Definition labelList (labels : list string) : string :=
  String.concat ", " (quoted <$> labels).

(** [labels.length > 1 ? 'labels' : 'label']. *)
Definition label_or_labels (labels : list string) : string :=
  if (1 <? length labels)%nat then "labels" else "label".

Definition need_name_and_color : string :=
  "I need both a label name and color to create a GitHub label.".

Definition need_issue_and_label : string :=
  "I need both an issue number and at least one label to add to the GitHub issue.".

Definition need_issue_and_labels : string :=
  "I need both an issue number and a list of labels to set on the GitHub issue.".

Definition need_issue : string :=
  "I need an issue number to remove labels from a GitHub issue.".

Definition created_text (name color : string) (description : option string)
  : string :=
  "Successfully created GitHub label " +:+ quoted name +:+ " with color #"
    +:+ color
    +:+ match given description with
        | Some d => " and description " +:+ quoted d
        | None => ""
        end
    +:+ ".".

Definition added_text (issueNumber : Z) (labels : list string) : string :=
  "Successfully added " +:+ label_or_labels labels +:+ " "
    +:+ labelList labels +:+ " to GitHub issue #" +:+ pretty issueNumber
    +:+ ".".

Definition removed_all_text (issueNumber : Z) : string :=
  "Successfully removed all labels from GitHub issue #"
    +:+ pretty issueNumber +:+ ".".

Definition set_text (issueNumber : Z) (labels : list string) : string :=
  "Successfully set " +:+ label_or_labels labels +:+ " "
    +:+ labelList labels +:+ " on GitHub issue #" +:+ pretty issueNumber
    +:+ ".".

Definition removed_text (issueNumber : Z) (label : string) : string :=
  "Successfully removed label " +:+ quoted label +:+ " from GitHub issue #"
    +:+ pretty issueNumber +:+ ".".

Definition no_labels_text : string :=
  "The GitHub repository doesn't have any labels yet.".

(** [`"${l.name}" (${l.color}${l.description ? `: ${l.description}` : ''})`]. *)
Definition label_line (l : Label) : string :=
  quoted (label_name l) +:+ " (" +:+ label_color l
    +:+ match given (label_description l) with
        | Some d => ": " +:+ d
        | None => ""
        end
    +:+ ")".

Definition labels_text (labels : list Label) : string :=
  "Here are the labels in the GitHub repository:" +:+ newline +:+ "- "
    +:+ String.concat (newline +:+ "- ") (label_line <$> labels).

(** The five actions of [githubLabelActions] (actions/index.ts). *)
Inductive Action : Type :=
| createGitHubLabel
| labelGitHubIssue
| setGitHubIssueLabels
| removeGitHubIssueLabel
| getGitHubRepoLabels.

Definition githubLabelActions : list Action :=
  [createGitHubLabel; labelGitHubIssue; setGitHubIssueLabels;
   removeGitHubIssueLabel; getGitHubRepoLabels].

(** What the [catch] block of the handler of an action logs, and what it
    tells the callback, before the message of the error. *)
Definition failed_prefix (a : Action) : string :=
  match a with
  | createGitHubLabel => "Failed to create GitHub label: "
  | labelGitHubIssue => "Failed to label GitHub issue: "
  | setGitHubIssueLabels => "Failed to set GitHub issue labels: "
  | removeGitHubIssueLabel => "Failed to remove GitHub issue label: "
  | getGitHubRepoLabels => "Failed to get GitHub repository labels: "
  end.

Definition sorry_prefix (a : Action) : string :=
  match a with
  | createGitHubLabel => "I couldn't create the GitHub label: "
  | labelGitHubIssue => "I couldn't add labels to the GitHub issue: "
  | setGitHubIssueLabels => "I couldn't set labels on the GitHub issue: "
  | removeGitHubIssueLabel =>
      "I couldn't remove the label from the GitHub issue: "
  | getGitHubRepoLabels =>
      "I couldn't retrieve the labels from the GitHub repository: "
  end.

Section Actions.
Context {W Data : Type}.

Variable remote : Request → W → (Error + Data) * W.

(** The callback given to a handler: it may throw. *)
Variable callback : string → W → (Error + unit) * W.

(** The labels in the data of a [listLabelsForRepo] response. *)
Variable labels_of : Data → list Label.

Notation "x <~ m ;; k" := (bind m (λ x, k))
  (at level 100, m at next level, right associativity).

Definition reply (text : string) : M (W:=W) unit := λ w,
  match callback text w with
  | (out, w1) => (out, w1, [Replied text (failure_of out)])
  end.

(** Lines 7-13: [runtime] is what [runtime.getClient("github")] returns. *)
Definition getGitHubClient (runtime : option t) : M (W:=W) t :=
  match runtime with
  | Some client => ret client
  | None => throw client_not_available
  end.

(** Lines 20-49, the [try] block. *)
Definition createGitHubLabel_body (runtime : option t) (state : State)
  : M (W:=W) bool :=
  match given (state_name state), given (state_color state) with
  | Some name, Some color =>
      client <~ getGitHubClient runtime ;;
      _ <~ createLabel remote client name color (state_description state) ;;
      _ <~ reply (created_text name color (state_description state)) ;;
      ret true
  | _, _ => _ <~ reply need_name_and_color ;; ret false
  end.

(** Lines 51-81, the [try] block. *)
Definition labelGitHubIssue_body (runtime : option t) (state : State)
  : M (W:=W) bool :=
  match given_number (state_issueNumber state), state_labels state with
  | Some issueNumber, Some (l :: ls) =>
      client <~ getGitHubClient runtime ;;
      _ <~ labelIssue remote client issueNumber (Some (l :: ls)) ;;
      _ <~ reply (added_text issueNumber (l :: ls)) ;;
      ret true
  | _, _ => _ <~ reply need_issue_and_label ;; ret false
  end.

(** Lines 83-117, the [try] block. *)
Definition setGitHubIssueLabels_body (runtime : option t) (state : State)
  : M (W:=W) bool :=
  match given_number (state_issueNumber state), state_labels state with
  | Some issueNumber, Some labels =>
      client <~ getGitHubClient runtime ;;
      _ <~ setIssueLabels remote client issueNumber (Some labels) ;;
      _ <~ (if (length labels =? 0)%nat
            then reply (removed_all_text issueNumber)
            else reply (set_text issueNumber labels)) ;;
      ret true
  | _, _ => _ <~ reply need_issue_and_labels ;; ret false
  end.

(** Lines 119-155, the [try] block. *)
Definition removeGitHubIssueLabel_body (runtime : option t) (state : State)
  : M (W:=W) bool :=
  match given_number (state_issueNumber state) with
  | Some issueNumber =>
      client <~ getGitHubClient runtime ;;
      _ <~ match given (state_label state) with
           | None =>
               _ <~ removeIssueLabel remote client issueNumber None ;;
               reply (removed_all_text issueNumber)
           | Some label =>
               _ <~ removeIssueLabel remote client issueNumber (Some label) ;;
               reply (removed_text issueNumber label)
           end ;;
      ret true
  | None => _ <~ reply need_issue ;; ret false
  end.

(** Lines 157-184, the [try] block. *)
Definition getGitHubRepoLabels_body (runtime : option t) : M (W:=W) bool :=
  client <~ getGitHubClient runtime ;;
  labels <~ getRepoLabels remote client ;;
  _ <~ (if (length (labels_of labels) =? 0)%nat
        then reply no_labels_text
        else reply (labels_text (labels_of labels))) ;;
  ret true.

Definition body (a : Action) (runtime : option t) (state : State)
  : M (W:=W) bool :=
  match a with
  | createGitHubLabel => createGitHubLabel_body runtime state
  | labelGitHubIssue => labelGitHubIssue_body runtime state
  | setGitHubIssueLabels => setGitHubIssueLabels_body runtime state
  | removeGitHubIssueLabel => removeGitHubIssueLabel_body runtime state
  | getGitHubRepoLabels => getGitHubRepoLabels_body runtime
  end.

(** The handler of an action: its [try] block, and the [catch] block
    that logs the error, tells the callback and returns [false]. *)
Definition handler (a : Action) (runtime : option t) (state : State)
  : M (W:=W) bool :=
  try_catch (body a runtime state)
    (λ error,
       _ <~ log level_error (failed_prefix a +:+ message error) ;;
       _ <~ reply (sorry_prefix a +:+ message error) ;;
       ret false).

End Actions.

(** ** The actions, all at once *)

(** The method a handler calls for a state that has what its action
    asks for. *)
Definition method_of (a : Action) (state : State) : option Method :=
  match a with
  | createGitHubLabel =>
      match given (state_name state), given (state_color state) with
      | Some name, Some color =>
          Some (m_createLabel name color (state_description state))
      | _, _ => None
      end
  | labelGitHubIssue =>
      match given_number (state_issueNumber state), state_labels state with
      | Some n, Some (l :: ls) => Some (m_labelIssue n (Some (l :: ls)))
      | _, _ => None
      end
  | setGitHubIssueLabels =>
      match given_number (state_issueNumber state), state_labels state with
      | Some n, Some labels => Some (m_setIssueLabels n (Some labels))
      | _, _ => None
      end
  | removeGitHubIssueLabel =>
      match given_number (state_issueNumber state) with
      | Some n => Some (m_removeIssueLabel n (given (state_label state)))
      | None => None
      end
  | getGitHubRepoLabels => Some m_getRepoLabels
  end.

(** What a handler tells the callback when the state lacks something. *)
Definition need_text (a : Action) : string :=
  match a with
  | createGitHubLabel => need_name_and_color
  | labelGitHubIssue => need_issue_and_label
  | setGitHubIssueLabels => need_issue_and_labels
  | removeGitHubIssueLabel => need_issue
  | getGitHubRepoLabels => ""
  end.

(** What a handler tells the callback after the method [m] has returned
    [data]. *)
Definition done_text {Data} (labels_of : Data → list Label) (m : Method)
    (data : Data) : string :=
  match m with
  | m_createLabel name color description =>
      created_text name color description
  | m_labelIssue n labels => added_text n (default [] labels)
  | m_setIssueLabels n labels =>
      if (length (default [] labels) =? 0)%nat then removed_all_text n
      else set_text n (default [] labels)
  | m_removeIssueLabel n None => removed_all_text n
  | m_removeIssueLabel n (Some label) => removed_text n label
  | m_getRepoLabels =>
      if (length (labels_of data) =? 0)%nat then no_labels_text
      else labels_text (labels_of data)
  end.

(** What the [catch] block of a handler logs and tells the callback. *)
Definition failure_report (a : Action) (err : Error) (f : option Error)
  : list Event :=
  [Logged level_error (failed_prefix a +:+ message err);
   Replied (sorry_prefix a +:+ message err) f].

(** What a handler returns or throws after a call of the callback in its
    [catch] block. *)
Definition after_report (f : option Error) : Error + bool :=
  match f with
  | Some err => inl err
  | None => inr false
  end.

End Client.

(** ** Fixtures: the data of __tests__/github-labels.test.ts *)

Module ClientFixtures.

Definition config : Client.GitHubConfig := {|
  Client.owner := "testowner";
  Client.repo := "testrepo";
  Client.branch := Some "main";
  Client.path := Some "src";
  Client.token := "ghp_test123";
|}.

Definition client : Client.t := {|
  Client.config := config;
  Client.octokit := true;
  Client.repoPath := ".repos/testowner/testrepo";
|}.

(** An outside world that counts the requests and callback calls it has
    seen. Every request is answered with the labels [labels] but the
    ones [bad] selects, which find nothing. *)
Definition answering (labels : list Label) (bad : Client.Request → bool)
  : Client.Request → nat → (Error + list Label) * nat :=
  λ r n, (if bad r then inl Repo.not_found else inr labels, S n).

Definition none : Client.Request → bool := λ _, false.

Definition lookups : Client.Request → bool := λ r,
  match r with
  | Client.issues_get _ _ _ => true
  | _ => false
  end.

Definition all_requests : Client.Request → bool := λ _, true.

Definition writes : Client.Request → bool := λ r,
  match r with
  | Client.fs_writeFile _ _ => true
  | _ => false
  end.

(** As [answering], but it is the request made in the world that has
    seen [k] of them that fails. *)
Definition failing_at (k : nat)
  : Client.Request → nat → (Error + list Label) * nat :=
  λ r n, (if (n =? k)%nat then inl Fixtures.boom else inr [], S n).

(** A callback that returns, and one that throws in a world that has
    seen fewer than [k] requests and calls. *)
Definition quiet : string → nat → (Error + unit) * nat :=
  λ _ n, (inr tt, S n).

Definition throwing_until (k : nat) : string → nat → (Error + unit) * nat :=
  λ _ n, (if (n <? k)%nat then inl Fixtures.boom else inr tt, S n).

Definition labels_of : list Label → list Label := λ labels, labels.

(** Stand-ins for Node's [path.join] and [path.dirname] on the relative
    paths used here: the segments joined with [/], and what comes before
    the last [/]. *)
Definition path_join : list string → string := String.concat "/".

Fixpoint before_last_slash (p : string) : option string :=
  match p with
  | EmptyString => None
  | String c p' =>
      match before_last_slash p' with
      | Some d => Some (String c d)
      | None => if (Ascii.nat_of_ascii c =? 47)%nat then Some "" else None
      end
  end.

Definition path_dirname (p : string) : string :=
  default "." (before_last_slash p).

Definition cwd : string := ".".

(** The client that the constructor makes of the settings of the test
    suite. *)
Definition constructed : Client.t :=
  Client.new_GitHubClient path_join cwd config.

Definition readme : Client.File :=
  {| Client.file_path := "docs/README.md"; Client.file_content := "# Hello" |}.

Definition no_state : Client.State := {|
  Client.state_name := None;
  Client.state_color := None;
  Client.state_description := None;
  Client.state_issueNumber := None;
  Client.state_labels := None;
  Client.state_label := None;
|}.

(** The state [{ issueNumber, labels }]. *)
Definition issue_state (n : Z) (labels : list string) : Client.State := {|
  Client.state_name := None;
  Client.state_color := None;
  Client.state_description := None;
  Client.state_issueNumber := Some n;
  Client.state_labels := Some labels;
  Client.state_label := None;
|}.

End ClientFixtures.

(** ** The client in front of the repository held in memory *)

(** The issue tracker of [Repo] as the outside world of the client: what
    it answers to the requests of the label methods. A lookup finds the
    issues it has; added labels and created labels are stored; the data
    of a response is the list of labels where the client reads it, and
    empty elsewhere. Other requests change nothing. *)
Module Tracker.

Definition answer (r : Client.Request) (s : Repo.t)
  : (Error + list Label) * Repo.t :=
  match r with
  | Client.issues_get _ _ n =>
      if decide (n ∈ (λ i, issue_number (Repo.content i)) <$> Repo.issues s)
      then (inr [], s)
      else (inl Repo.not_found, s)
  | Client.issues_addLabels _ _ n labels =>
      (inr [],
       {| Repo.issues := Repo.add_labels_to n labels <$> Repo.issues s;
          Repo.labels := Repo.labels s |})
  | Client.issues_listLabelsForRepo _ _ => (inr (Repo.labels s), s)
  | Client.issues_createLabel _ _ name color description =>
      (inr [],
       {| Repo.issues := Repo.issues s;
          Repo.labels := Repo.labels s ++
            [{| label_name := name;
                label_color := color;
                label_description := Some description |}] |})
  | _ => (inr [], s)
  end.

(** What the engine keeps of a method call: whether it threw, and the
    world it leaves. *)
Definition outcome {A} (x : (Error + A) * Repo.t * list Client.Event)
  : (Error + unit) * Repo.t :=
  (match x.1.1 with
   | inl err => inl err
   | inr _ => inr tt
   end, x.1.2).

End Tracker.

(** ** More fixtures *)

Module Scenes.

(** Three catalogue rules on an engine that creates missing labels. *)
Definition creating : GitHubAutoLabeler :=
  addRules [CommonLabelingRules.bug; CommonLabelingRules.enhancement;
            CommonLabelingRules.documentation]
    (setConfig (Fixtures.only (Fixtures.with_createMissingLabels (Value true)))
       Fixtures.autoLabeler).

Definition only_bug : list Label := [Fixtures.label "bug" "ff0000"].

End Scenes.

(** * The repository at the end of a run, and the loop issue by issue *)

(** ** The labels a gateway keeps *)

(** With [stored w] the label names of the repository in the world [w]:
    the labels that [getRepoLabels] returns are in the repository, a
    label that [createLabel] has created is in it, and neither
    [createLabel] nor [labelIssue] takes a label out of it. *)
Definition keeps_labels {W} (client : GitHubClient W) (stored : W → list string)
  : Prop :=
  (∀ w labs,
     (getRepoLabels client w).1 = inr labs →
     label_name <$> labs ⊆ stored (getRepoLabels client w).2)
  ∧ (∀ name color description w,
       stored w ⊆ stored (createLabel client name color description w).2)
  ∧ (∀ name color description w,
       (createLabel client name color description w).1 = inr tt →
       name ∈ stored (createLabel client name color description w).2)
  ∧ (∀ n labels w, stored w ⊆ stored (labelIssue client n labels w).2).

(** The label names of the repository held in memory. *)
Definition repository_labels (s : Repo.t) : list string :=
  label_name <$> Repo.labels s.

(** ** What the loop does for one issue *)



(** * Patterns with the global or sticky flag

    [RegExp.prototype.test] on a pattern with the [g] or the [y] flag
    starts at the [lastIndex] of the [RegExp] object and moves it: to the
    end of the match, or back to 0 when there is none. The rules hold
    their patterns by reference, so the engine and its caller, and two
    rules, can share one object. Here the engine is embedded again with
    that state: the outside world is paired with the [lastIndex] of every
    [RegExp] object. On patterns without those flags it is the engine of
    the first part, as [run_flagless] shows. *)

Module Stateful.

(** A [RegExp] object: [object] is its identity; [flagged] tells whether
    the [g] or the [y] flag is set; [exec k s] is where the match ends
    that the pattern finds in [s] when it starts at index [k], if it finds
    one. *)
Record RegExp : Type := {
  object : nat;
  flagged : bool;
  exec : nat → string → option nat;
}.

Record Rule : Type := {
  pattern : RegExp;
  labels : list string;
  description : option string;
}.

(** [lastIndex] is 0 on an object that no [test] has moved. *)
Definition lastIndex (re : RegExp) (h : gmap nat nat) : nat :=
  default 0 (h !! object re).

Definition matches (re : RegExp) (text : string) : bool :=
  match exec re 0 text with
  | Some _ => true
  | None => false
  end.

(** [re.test(text)]: without the flags the search starts at 0 and
    [lastIndex] is left alone. *)
Definition test (re : RegExp) (text : string) (h : gmap nat nat)
  : bool * gmap nat nat :=
  if flagged re then
    match exec re (lastIndex re h) text with
    | Some e => (true, <[object re := e]> h)
    | None => (false, <[object re := 0]> h)
    end
  else (matches re text, h).

(** The loop over [this.rules] (lines 142-147). *)
Fixpoint collect (rs : list Rule) (text : string) (s : list string)
    (h : gmap nat nat) : list string * gmap nat nat :=
  match rs with
  | [] => (s, h)
  | rule :: rs' =>
      let (hit, h') := test (pattern rule) text h in
      if hit then collect rs' text (add_all (labels rule) s) h'
      else collect rs' text s h'
  end.

Definition labelsToAdd (rs : list Rule) (issue : Issue) (h : gmap nat nat)
  : list string * gmap nat nat :=
  collect rs (issueText issue) [] h.

(** The rule as the first part has it: its pattern read as a predicate,
    which it is without the flags. *)
Definition flagless (rule : Rule) : LabelingRule :=
  Build_LabelingRule (matches (pattern rule)) (labels rule) (description rule).

Record t : Type := {
  rules : list Rule;
  config : AutoLabelConfig;
}.

Definition forget (this : t) : GitHubAutoLabeler :=
  Build_GitHubAutoLabeler (flagless <$> rules this) (config this).

Section Engine.
Context {W : Type}.

(** A gateway operation, which leaves the [RegExp] objects alone. *)
Definition beside {A} (op : W → (Error + A) * W)
  : W * gmap nat nat → (Error + A) * (W * gmap nat nat) :=
  λ x, ((op x.1).1, ((op x.1).2, x.2)).

Definition gateway (client : GitHubClient W) : GitHubClient (W * gmap nat nat) :=
  Build_GitHubClient (W * gmap nat nat)
    (λ state, beside (getRepoIssues client state))
    (beside (getRepoLabels client))
    (λ name color description,
       beside (createLabel client name color description))
    (λ n new, beside (labelIssue client n new)).

Variable client : GitHubClient W.

Local Notation "x <~ m ;; k" := (bind m (λ x, k))
  (at level 100, m at next level, right associativity).

(** Lines 138-147. *)
Definition evaluate (rs : list Rule) (issue : Issue)
  : M (W * gmap nat nat) (list string) := λ x,
  (inr (labelsToAdd rs issue x.2).1, (x.1, (labelsToAdd rs issue x.2).2), []).

(** Lines 133-181. *)
Definition processIssue (this : t) (st : LoopState) (issue : Issue)
  : M (W * gmap nat nat) LoopState :=
  if skips (forget this) issue then ret st
  else
    candidates <~ evaluate (rules this) issue ;;
    st1 <~ createMissing (gateway client) (forget this) candidates st ;;
    applyValid (gateway client) issue candidates st1.

Definition run (this : t) : M (W * gmap nat nat) AutoLabelResult :=
  if (length (rules this) =? 0)%nat
  then throw NoRulesConfigured
  else
    try_catch
      (issues <~ call (GetRepoIssues (get (issueState (config this))))
                   (getRepoIssues (gateway client)
                      (get (issueState (config this)))) ;;
       availableLabels <~ call GetRepoLabels (getRepoLabels (gateway client)) ;;
       st <~ forOf issues (processIssue this)
               (list_to_set (label_name <$> availableLabels),
                {| totalIssues := length issues;
                   labeledIssues := 0;
                   labelsCreated := 0;
                   details := [] |}) ;;
       ret st.2)
      (λ error, _ <~ logError (run_failed_msg error) ;; throw error).

End Engine.

(** A computation of the first part, run beside the [RegExp] objects. *)
Definition aside {W A} (h : gmap nat nat) (x : (Error + A) * W * list Event)
  : (Error + A) * (W * gmap nat nat) * list Event :=
  (x.1.1, (x.1.2, h), x.2).

(** [m'] does what [m] does and leaves the [RegExp] objects alone. *)
Definition lifts {W A} (m' : M (W * gmap nat nat) A) (m : M W A) : Prop :=
  ∀ w h, m' (w, h) = aside h (m w).

(** [exec] of [/word/gi] for a word made of letters: the first place at
    or after [from] where the word is found, [pos] being the index of
    the start of [s]. *)
Fixpoint find (word : string) (from pos : nat) (s : string) : option nat :=
  match (if decide (from ≤ pos) then Regex.strip_prefix_ci word s else None) with
  | Some _ => Some (pos + String.length word)
  | None =>
      match s with
      | EmptyString => None
      | String _ s' => find word from (S pos) s'
      end
  end.

(** [/crash/gi], one object. *)
Definition crash : RegExp :=
  {| object := 0; flagged := true; exec := λ from s, find "crash" from 0 s |}.

(** [/crash/i]. *)
Definition crash_i : RegExp :=
  {| object := 1; flagged := false; exec := λ from s, find "crash" from 0 s |}.

Definition crash_on_start : Issue := {|
  issue_number := 1;
  issue_title := "Crash on start";
  issue_body := None;
  issue_labels := Some [];
|}.

Definition crash_again : Issue := {|
  issue_number := 2;
  issue_title := "Crash";
  issue_body := None;
  issue_labels := Some [];
|}.

(** An engine with the one rule [{ pattern: /crash/gi, labels: ['bug'] }]
    that leaves labelled issues alone. *)
Definition global_labeler : t := {|
  rules := [{| pattern := crash; labels := ["bug"]; description := None |}];
  config :=
    spread_config DEFAULT_CONFIG
      (Fixtures.only (Fixtures.with_relabelExistingIssues (Value false)));
|}.

(** Two rules that share the object [/crash/gi]. *)
Definition first_rule : Rule :=
  {| pattern := crash; labels := ["bug"]; description := None |}.

Definition second_rule : Rule :=
  {| pattern := crash; labels := ["crash"]; description := None |}.

End Stateful.

(** ** A gateway that fails once *)

(** [GitHubClient] in front of the repository held in memory, over a
    connection that is down until one [createLabel] request has failed:
    the label applications show on the issues, and a creation that threw
    can succeed when it is tried again. *)
Module Flaky.

Definition timed_out : Error := {| message := "connect ETIMEDOUT" |}.

Definition through {A} (op : Repo.t → (Error + A) * Repo.t)
  : bool * Repo.t → (Error + A) * (bool * Repo.t) :=
  λ x, ((op x.2).1, (x.1, (op x.2).2)).

Definition createLabel (name color description : string) (x : bool * Repo.t)
  : (Error + unit) * (bool * Repo.t) :=
  if x.1 then (inl timed_out, (false, x.2))
  else through (Repo.createLabel name color description) x.

Definition client : GitHubClient (bool * Repo.t) :=
  Build_GitHubClient (bool * Repo.t)
    (λ state, through (Repo.getRepoIssues state))
    (through Repo.getRepoLabels)
    createLabel
    (λ n new, through (Repo.labelIssue n new)).

(** The engine of scenario B of the specification, which leaves labelled
    issues alone. *)
Definition creating_security : GitHubAutoLabeler :=
  addRule CommonLabelingRules.security
    (setConfig
       (Fixtures.with_relabelExistingIssues (Value false)
          (Fixtures.only (Fixtures.with_createMissingLabels (Value true))))
       Fixtures.autoLabeler).

End Flaky.

Module Reruns.

(** An engine with the one rule [{ pattern: /crash/i, labels: ['bug'] }]
    that leaves labelled issues alone. *)
Definition crash_labeler : Stateful.t := {|
  Stateful.rules :=
    [{| Stateful.pattern := Stateful.crash_i;
        Stateful.labels := ["bug"];
        Stateful.description := None |}];
  Stateful.config :=
    spread_config DEFAULT_CONFIG
      (Fixtures.only (Fixtures.with_relabelExistingIssues (Value false)));
|}.

Definition crash_reports : Repo.t :=
  Fixtures.repo
    [Stateful.crash_on_start; Stateful.crash_again; Fixtures.greeting_issue]
    Scenes.only_bug.

End Reruns.

(** * The logger, with [GitHubClient] as the gateway

    The label methods of [GitHubClient] give their own lines to
    [elizaLogger.error], which the transcript of [run] does not hold. *)

(** The label method behind a gateway call; [getRepoIssues] is not in
    src/github-client.ts. *)
Definition method_of (c : Call) : option Client.Method :=
  match c with
  | GetRepoIssues _ => None
  | GetRepoLabels => Some Client.m_getRepoLabels
  | CreateLabel name color description =>
      Some (Client.m_createLabel name color (Some description))
  | LabelIssue n new => Some (Client.m_labelIssue n (Some new))
  end.

(** The error lines of the method behind a gateway call: one when it
    throws, none when it returns. *)
Definition gateway_lines (ev : Event) : list string :=
  match ev with
  | Called c (Some err) =>
      match method_of c with
      | Some m => [Client.failed_msg m err]
      | None => []
      end
  | _ => []
  end.

(** The lines that the methods give for the calls [run] does not
    survive. *)
Definition fatal_lines (ev : Event) : list string :=
  match fatal ev with
  | Some _ => gateway_lines ev
  | None => []
  end.

(** What the logger holds after a run with the transcript [t]: for each
    call the lines of the method, and the lines of [run] where it gives
    them; the lines of [getRepoIssues] are left out. *)
Definition logger (t : list Event) : list string :=
  t ≫= λ ev, gateway_lines ev ++ option_list (logged_line ev).

Definition twice (p : string * Error) : list string :=
  [refusal_line p; refusal_line p].

(** * Properties *)

(** The value, final world and transcript of a computation, found by
    evaluating it. *)
Ltac computed := eexists _, _, _; split; [done|].

(** ** Lemmas on computations *)

Section Computations.
Context {W : Type}.
Implicit Types w : W.

Lemma bind_eq {A B} (m : M W A) (k : A → M W B) w :
  bind m k w =
    match m w with
    | (inl err, w1, t1) => (inl err, w1, t1)
    | (inr a, w1, t1) => ((k a w1).1.1, (k a w1).1.2, t1 ++ (k a w1).2)
    end.
Proof.
  unfold bind. destruct (m w) as [[[err|a] w1] t1]; [done|].
  by destruct (k a w1) as [[r w2] t2].
Qed.

End Computations.

(** ** Lemmas on transcripts *)

Lemma created_app t1 t2 : created (t1 ++ t2) = created t1 ++ created t2.
Proof. apply omap_app. Qed.

Lemma label_calls_app t1 t2 :
  label_calls (t1 ++ t2) = label_calls t1 ++ label_calls t2.
Proof. apply omap_app. Qed.

Lemma create_calls_app t1 t2 :
  create_calls (t1 ++ t2) = create_calls t1 ++ create_calls t2.
Proof. apply omap_app. Qed.

Lemma known_after_app known t1 t2 :
  known_after known (t1 ++ t2) = known_after (known_after known t1) t2.
Proof. apply foldl_app. Qed.

Lemma elem_of_known_after known t x :
  x ∈ known_after known t ↔ x ∈ known ∨ x ∈ created t.
Proof.
  revert known. induction t as [|ev t IH]; intros known; simpl.
  - unfold created. simpl. rewrite elem_of_nil. tauto.
  - rewrite IH. unfold created, learn. simpl.
    destruct (created_name ev) as [n|]; [|tauto].
    rewrite elem_of_cons, elem_of_union, elem_of_singleton. tauto.
Qed.

Lemma known_after_subseteq known t : known ⊆ known_after known t.
Proof. intros x Hx. apply elem_of_known_after. by left. Qed.

Lemma follows_app P known t1 t2 :
  follows P known (t1 ++ t2)
  ↔ follows P known t1 ∧ follows P (known_after known t1) t2.
Proof.
  revert known. induction t1 as [|ev t1 IH]; intros known; simpl.
  - tauto.
  - rewrite IH. tauto.
Qed.

Lemma follows_impl (P Q : gset string → Event → Prop) known t :
  (∀ K ev, P K ev → Q K ev) → follows P known t → follows Q known t.
Proof.
  intros HPQ. revert known. induction t as [|ev t IH]; simpl; [done|].
  intros known [? ?]. auto.
Qed.

(** The event at any position of a transcript that [follows P]. *)
Lemma follows_at P known pre ev post :
  follows P known (pre ++ ev :: post) → P (known_after known pre) ev.
Proof. rewrite follows_app. simpl. tauto. Qed.

Lemma step_ok_weaken this issues issues' known ev :
  issues ⊆ issues' → step_ok this issues known ev → step_ok this issues' known ev.
Proof.
  intros Hsub. destruct ev as [[| |n c d|k ls] f|]; simpl; try done.
  - intros (? & ? & ? & ? & i & ? & ?). repeat split; try done.
    exists i. split; [by apply Hsub|done].
  - intros (? & i & ? & ?). split; [done|].
    exists i. split; [by apply Hsub|done].
Qed.

Lemma ends_app {A B} (out : Error + B) (a : A) t1 t2 :
  ends (inr a : Error + A) t1 → ends out t2 → ends out (t1 ++ t2).
Proof.
  simpl. intros H1. destruct out as [err|b]; simpl.
  - intros (pre & n & labels & -> & Hpre). exists (t1 ++ pre), n, labels.
    rewrite app_assoc. split; [done|]. by apply Forall_app.
  - intros H2. by apply Forall_app.
Qed.

Lemma accounts_refl this issues known r : accounts this issues known r [] r.
Proof.
  unfold accounts, created, label_calls. simpl. split_and!; try lia.
  exists []. rewrite app_nil_r. split_and!; try done. apply sublist_nil_l.
Qed.

(** A stretch whose transcript has no [labelIssue] call. *)
Lemma accounts_quiet this issues known r t r' :
  totalIssues r' = totalIssues r →
  labelsCreated r' = labelsCreated r + length (created t) →
  labeledIssues r' = labeledIssues r →
  details r' = details r →
  label_calls t = [] →
  accounts this issues known r t r'.
Proof.
  intros ? ? ? Hd Hl. unfold accounts. rewrite Hl. simpl.
  split_and!; try lia. exists []. rewrite app_nil_r.
  split_and!; try done. apply sublist_nil_l.
Qed.

Lemma entry_of_app_l this known t1 t2 d i pre :
  entry_of this known t1 d i pre → entry_of this known (t1 ++ t2) d i pre.
Proof.
  intros (? & ? & ? & ? & post & ->). split_and!; try done.
  exists (post ++ t2). by rewrite <- app_assoc.
Qed.

Lemma entry_of_app_r this known t1 t2 d i pre :
  entry_of this (known_after known t1) t2 d i pre →
  entry_of this known (t1 ++ t2) d i (t1 ++ pre).
Proof.
  intros (? & ? & ? & ? & post & ->). split_and!; try done.
  - by rewrite known_after_app.
  - exists post. by rewrite <- app_assoc.
Qed.

Lemma accounts_app this is1 is2 known r t1 r1 t2 r2 :
  accounts this is1 known r t1 r1 →
  accounts this is2 (known_after known t1) r1 t2 r2 →
  accounts this (is1 ++ is2) known r (t1 ++ t2) r2.
Proof.
  intros (Ht1 & Hc1 & Hl1 & ds1 & Hd1 & Hk1 & Hs1 & Hf1)
         (Ht2 & Hc2 & Hl2 & ds2 & Hd2 & Hk2 & Hs2 & Hf2).
  unfold accounts. rewrite created_app, label_calls_app, !length_app.
  split_and!; try lia.
  exists (ds1 ++ ds2). rewrite Hd2, Hd1, !fmap_app, Hk1, Hk2, app_assoc.
  split_and!; try done.
  - by apply sublist_app.
  - apply Forall_app. split; eapply Forall_impl; try eassumption; simpl.
    + intros d (i & pre & Hi & He). exists i, pre.
      split; [apply elem_of_app; by left|]. by apply entry_of_app_l.
    + intros d (i & pre & Hi & He). exists i, (t1 ++ pre).
      split; [apply elem_of_app; by right|]. by apply entry_of_app_r.
Qed.

Lemma segment_ret this fetched st : segment this fetched [] st (inr st) [].
Proof.
  split_and!; simpl; try done. intros st' [= <-]. split; [done|].
  apply accounts_refl.
Qed.

Lemma segment_app this fetched is1 is2 st st1 out t1 t2 :
  segment this fetched is1 st (inr st1) t1 →
  segment this fetched is2 st1 out t2 →
  segment this fetched (is1 ++ is2) st out (t1 ++ t2).
Proof.
  intros (Hf1 & He1 & Ha1) (Hf2 & He2 & Ha2).
  destruct (Ha1 st1 eq_refl) as [HK1 Hacc1].
  split_and!.
  - apply follows_app. split; [done|]. by rewrite <- HK1.
  - by eapply ends_app.
  - intros st' ->. destruct (Ha2 st' eq_refl) as [HK2 Hacc2]. split.
    + by rewrite known_after_app, <- HK1.
    + eapply accounts_app; [done|]. by rewrite <- HK1.
Qed.

(** ** The issue loop, stretch by stretch *)

Section Loop.
Context {W : Type} (client : GitHubClient W) (this : GitHubAutoLabeler).
Context (fetched : list Issue).
Implicit Types (w : W) (st : gset string * AutoLabelResult).

Lemma createIfMissing_segment i st label w :
  truthy (get (createMissingLabels (config this))) = true →
  i ∈ fetched → skips this i = false →
  label ∈ labelsToAdd (rules this) i →
  ∃ st' w' t,
    createIfMissing client (config this) st label w = (inr st', w', t)
    ∧ segment this fetched [] st (inr st') t.
Proof.
  intros Hcm Hi Hskip Hlabel. unfold createIfMissing.
  destruct (decide (label ∈ st.1)) as [Hin|Hnotin].
  { computed. apply segment_ret. }
  unfold try_catch, bind, call, ret, logError.
  destruct (createLabel client label _ _ w) as [[err|[]] w1]; simpl.
  - computed.
    split_and!; simpl.
    + split_and!; try done. by exists i.
    + by repeat constructor.
    + intros st' [= <-]. split; [done|]. apply accounts_quiet; unfold created, label_calls; simpl; (done || lia).
  - computed.
    split_and!; simpl.
    + split_and!; try done. by exists i.
    + by repeat constructor.
    + intros st' [= <-]. split; [done|]. apply accounts_quiet; unfold created, label_calls; simpl; (done || lia).
Qed.

Lemma createMissing_loop_segment i candidates st w :
  truthy (get (createMissingLabels (config this))) = true →
  i ∈ fetched → skips this i = false →
  candidates ⊆ labelsToAdd (rules this) i →
  ∃ st' w' t,
    forOf candidates (createIfMissing client (config this)) st w
    = (inr st', w', t)
    ∧ segment this fetched [] st (inr st') t.
Proof.
  intros Hcm Hi Hskip. revert st w.
  induction candidates as [|label rest IH]; intros st w Hsub; simpl.
  { computed. apply segment_ret. }
  destruct (createIfMissing_segment i st label w) as (st1 & w1 & t1 & E1 & S1);
    [done|done|done|apply Hsub, list_elem_of_here|].
  destruct (IH st1 w1) as (st2 & w2 & t2 & E2 & S2).
  { intros c Hc. by apply Hsub, list_elem_of_further. }
  unfold bind. rewrite E1, E2. computed.
  by apply (segment_app this fetched [] [] st st1).
Qed.

Lemma createMissing_segment i st w :
  i ∈ fetched → skips this i = false →
  ∃ st' w' t,
    createMissing client this (labelsToAdd (rules this) i) st w
    = (inr st', w', t)
    ∧ segment this fetched [] st (inr st') t.
Proof.
  intros Hi Hskip. unfold createMissing.
  destruct (truthy (get (createMissingLabels (config this)))) eqn:Hcm.
  - by apply (createMissing_loop_segment i).
  - computed. apply segment_ret.
Qed.

Lemma processIssue_skip i st w :
  skips this i = true → processIssue client this st i w = (inr st, w, []).
Proof. intros Hskip. unfold processIssue. by rewrite Hskip. Qed.

Lemma processIssue_segment i st w :
  i ∈ fetched →
  ∃ out w' t,
    processIssue client this st i w = (out, w', t)
    ∧ segment this fetched [i] st out t.
Proof.
  intros Hi. destruct (skips this i) eqn:Hskip.
  { rewrite processIssue_skip by done. computed.
    split_and!; simpl; try done. intros st' [= <-]. split; [done|].
    apply accounts_quiet; unfold created, label_calls; simpl; (done || lia). }
  unfold processIssue. rewrite Hskip.
  destruct (createMissing_segment i st w) as (st1 & w1 & t1 & E1 & S1);
    [done|done|].
  unfold bind at 1. rewrite E1. unfold applyValid.
  set (valid := filter (λ label : string, label ∈ st1.1)
                  (labelsToAdd (rules this) i)).
  destruct (0 <? length valid) eqn:Hlen.
  2:{ unfold ret. rewrite app_nil_r. computed.
      destruct S1 as (F1 & E & A1). split_and!; try done.
      intros st' [= <-]. destruct (A1 st1 eq_refl) as [HK Hacc].
      split; [done|].
      destruct Hacc as (? & ? & ? & ds & ? & ? & Hsub & Hall).
      split_and!; try done. exists ds. split_and!; try done.
      - by apply (sublist_inserts_l [issue_number i]) in Hsub.
      - eapply Forall_impl; [done|]. simpl. intros d (i' & ? & Hin & ?).
        by apply elem_of_nil in Hin. }
  assert (valid ≠ []) as Hne.
  { intros E. rewrite E in Hlen. simpl in Hlen. done. }
  assert (∃ out w' t2,
    bind (call (LabelIssue (issue_number i) valid)
            (labelIssue client (issue_number i) valid))
      (λ _, ret (st1.1,
              record_labeled
                {| issueNumber := issue_number i; title := issue_title i;
                   appliedLabels := valid |} st1.2)) w1 = (out, w', t2)
    ∧ segment this fetched [i] st1 out t2) as (out & w2 & t2 & E2 & S2).
  { unfold bind, call, ret.
    destruct (labelIssue client (issue_number i) valid w1) as [[err|[]] w2];
      simpl; eexists _, _, _; (split; [done|]).
    - split_and!; simpl.
      + split_and!; try done. by exists i.
      + by exists [], (issue_number i), valid.
      + intros st' [=].
    - split_and!; simpl.
      + split_and!; try done. by exists i.
      + by repeat constructor.
      + intros st' [= <-]. split; [done|]. simpl.
        unfold accounts, created, label_calls. simpl. split_and!; try lia.
        eexists [_]. split_and!; try done.
        repeat constructor. exists i, []. split; [by apply list_elem_of_singleton|].
        split_and!; try done. by exists []. }
  rewrite E2. computed.
  by apply (segment_app this fetched [] [i] st st1).
Qed.

Lemma issue_loop_segment issues st w :
  issues ⊆ fetched →
  ∃ out w' t,
    forOf issues (processIssue client this) st w = (out, w', t)
    ∧ segment this fetched issues st out t.
Proof.
  revert st w. induction issues as [|i rest IH]; intros st w Hsub; simpl.
  { computed. apply segment_ret. }
  destruct (processIssue_segment i st w) as (out1 & w1 & t1 & E1 & S1);
    [apply Hsub, list_elem_of_here|].
  unfold bind. rewrite E1. destruct out1 as [err|st1].
  - computed.
    destruct S1 as (F1 & En1 & A1). split_and!; try done.
  - destruct (IH st1 w1) as (out2 & w2 & t2 & E2 & S2).
    { intros j Hj. by apply Hsub, list_elem_of_further. }
    rewrite E2. computed.
    by apply (segment_app this fetched [i] rest st st1).
Qed.

End Loop.

Section Inversion.
Context {W : Type} (client : GitHubClient W) (this : GitHubAutoLabeler).
Implicit Types (w : W) (st : gset string * AutoLabelResult).

Lemma createIfMissing_inv st label w :
  ∃ st' w' t,
    createIfMissing client (config this) st label w = (inr st', w', t)
    ∧ label_calls t = []
    ∧ st'.1 = known_after st.1 t
    ∧ details st'.2 = details st.2
    ∧ (label ∈ st'.1 ∨ label ∈ create_calls t).
Proof.
  unfold createIfMissing.
  destruct (decide (label ∈ st.1)) as [Hin|Hnotin].
  { computed. split_and!; try done. by left. }
  unfold try_catch, bind, call, ret, logError.
  destruct (createLabel client label _ _ w) as [[err|[]] w1]; simpl;
    eexists _, _, _; (split; [done|]); split_and!; try done; right;
    unfold create_calls; simpl; apply list_elem_of_here.
Qed.

Lemma createMissing_loop_inv candidates st w :
  ∃ st' w' t,
    forOf candidates (createIfMissing client (config this)) st w
    = (inr st', w', t)
    ∧ label_calls t = []
    ∧ st'.1 = known_after st.1 t
    ∧ details st'.2 = details st.2
    ∧ ∀ c, c ∈ candidates → c ∈ st'.1 ∨ c ∈ create_calls t.
Proof.
  revert st w. induction candidates as [|label rest IH]; intros st w; simpl.
  { computed. split_and!; try done.
    intros c Hc. by apply elem_of_nil in Hc. }
  destruct (createIfMissing_inv st label w)
    as (st1 & w1 & t1 & E1 & L1 & K1 & D1 & C1).
  destruct (IH st1 w1) as (st2 & w2 & t2 & E2 & L2 & K2 & D2 & C2).
  unfold bind. rewrite E1, E2. computed.
  rewrite label_calls_app, L1, L2, known_after_app, <- K1, create_calls_app.
  split_and!; try done; [congruence|].
  intros c [->|Hc]%elem_of_cons.
  - destruct C1 as [Hin|Hin].
    + left. rewrite K2. by apply known_after_subseteq.
    + right. apply elem_of_app. by left.
  - destruct (C2 c Hc) as [Hin|Hin]; [by left|].
    right. apply elem_of_app. by right.
Qed.

Lemma createMissing_inv candidates st w :
  ∃ st' w' t,
    createMissing client this candidates st w = (inr st', w', t)
    ∧ label_calls t = []
    ∧ st'.1 = known_after st.1 t
    ∧ details st'.2 = details st.2
    ∧ (truthy (get (createMissingLabels (config this))) = true →
       ∀ c, c ∈ candidates → c ∈ st'.1 ∨ c ∈ create_calls t)
    ∧ (truthy (get (createMissingLabels (config this))) = false →
       st' = st ∧ w' = w ∧ t = []).
Proof.
  unfold createMissing.
  destruct (truthy (get (createMissingLabels (config this)))).
  - destruct (createMissing_loop_inv candidates st w)
      as (st1 & w1 & t1 & E1 & L1 & K1 & D1 & C1).
    computed. by split_and!.
  - computed. by split_and!.
Qed.

(** What [processIssue] does on an issue it does not skip. *)
Lemma processIssue_inv i st w :
  skips this i = false →
  ∃ st1 w1 t1,
    createMissing client this (labelsToAdd (rules this) i) st w
    = (inr st1, w1, t1)
    ∧ let valid := filter (λ l : string, l ∈ st1.1)
                     (labelsToAdd (rules this) i) in
      (valid = [] ∧ processIssue client this st i w = (inr st1, w1, t1))
      ∨ (valid ≠ []
         ∧ ∃ r w2,
             labelIssue client (issue_number i) valid w1 = (r, w2)
             ∧ processIssue client this st i w
               = (match r with
                  | inl err => inl err
                  | inr _ =>
                      inr (st1.1,
                           record_labeled
                             {| issueNumber := issue_number i;
                                title := issue_title i;
                                appliedLabels := valid |} st1.2)
                  end,
                  w2,
                  t1 ++ [Called (LabelIssue (issue_number i) valid)
                           (failure_of r)])).
Proof.
  intros Hskip.
  destruct (createMissing_inv (labelsToAdd (rules this) i) st w)
    as (st1 & w1 & t1 & E1 & _).
  exists st1, w1, t1. split; [done|]. simpl.
  unfold processIssue. rewrite Hskip, bind_eq, E1. unfold applyValid.
  destruct (filter _ _) as [|l valid] eqn:Hvalid; simpl.
  { left. unfold ret. simpl. by rewrite app_nil_r. }
  right. split; [done|]. unfold bind, call, ret.
  destruct (labelIssue client (issue_number i) (l :: valid) w1)
    as [[err|[]] w2]; simpl; eexists _, _; (split; [done|]); try done.
Qed.

Lemma processed_app_l known t1 t2 ds1 ds2 i :
  processed this known t1 ds1 i →
  processed this known (t1 ++ t2) (ds1 ++ ds2) i.
Proof.
  intros (pre & [post ->] & Hc & Hv). exists pre. split_and!; try done.
  - exists (post ++ t2). by rewrite <- app_assoc.
  - destruct Hv as [Hv|(d & Hd & He)]; [by left|]. right. exists d.
    split; [apply elem_of_app; by left|]. by apply entry_of_app_l.
Qed.

Lemma processed_app_r known t1 t2 ds1 ds2 i :
  processed this (known_after known t1) t2 ds2 i →
  processed this known (t1 ++ t2) (ds1 ++ ds2) i.
Proof.
  intros (pre & [post ->] & Hc & Hv). exists (t1 ++ pre).
  rewrite known_after_app, create_calls_app. split_and!.
  - exists post. by rewrite <- app_assoc.
  - intros Hcm c Hin. destruct (Hc Hcm c Hin) as [?|?]; [by left|].
    right. apply elem_of_app. by right.
  - destruct Hv as [Hv|(d & Hd & He)]; [by left|]. right. exists d.
    split; [apply elem_of_app; by right|]. by apply entry_of_app_r.
Qed.

Lemma processIssue_processed i st st' w w' t :
  skips this i = false →
  processIssue client this st i w = (inr st', w', t) →
  ∃ ds, details st'.2 = details st.2 ++ ds
        ∧ st'.1 = known_after st.1 t
        ∧ processed this st.1 t ds i.
Proof.
  intros Hskip Hrun.
  destruct (createMissing_inv (labelsToAdd (rules this) i) st w)
    as (st1 & w1 & t1 & E1 & L1 & K1 & D1 & C1 & _).
  destruct (processIssue_inv i st w Hskip) as (st1' & w1' & t1' & E1' & H).
  rewrite E1 in E1'. injection E1' as <- <- <-. simpl in H.
  destruct H as [[Hvalid E]|(Hvalid & r & w2 & Hr & E)];
    rewrite E in Hrun.
  - injection Hrun as <- <- <-. exists []. rewrite app_nil_r.
    split_and!; try done. exists t1. split_and!.
    + exists []. by rewrite app_nil_r.
    + rewrite <- K1. done.
    + left. by rewrite <- K1.
  - destruct r as [err|[]]; [done|]. injection Hrun as <- <- <-. simpl.
    eexists [_]. rewrite D1. split; [done|].
    rewrite known_after_app. simpl. split; [done|].
    exists t1. split_and!.
    + by eexists.
    + rewrite <- K1. done.
    + right. eexists. split; [apply list_elem_of_here|].
      split_and!; simpl; try done.
      * by rewrite <- K1.
      * by exists [].
Qed.

Lemma issue_loop_processed issues st st' w w' t :
  forOf issues (processIssue client this) st w = (inr st', w', t) →
  ∃ ds, details st'.2 = details st.2 ++ ds
        ∧ st'.1 = known_after st.1 t
        ∧ ∀ i, i ∈ issues → skips this i = false →
               processed this st.1 t ds i.
Proof.
  revert st w t. induction issues as [|i rest IH]; intros st w t; simpl.
  { intros [= <- <- <-]. exists []. rewrite app_nil_r. split_and!; try done.
    intros i Hi. by apply elem_of_nil in Hi. }
  unfold bind.
  destruct (processIssue client this st i w) as [[[err|st1] w1] t1] eqn:E1;
    [done|].
  destruct (forOf rest (processIssue client this) st1 w1)
    as [[out2 w2] t2] eqn:E2.
  intros [= -> <- <-].
  destruct (IH st1 w1 t2 E2) as (ds2 & D2 & K2 & P2).
  destruct (skips this i) eqn:Hskip.
  - rewrite processIssue_skip in E1 by done. injection E1 as <- <- <-.
    exists ds2. simpl. split_and!; try done.
    intros j [->|Hj]%elem_of_cons Hs; [congruence|]. by apply P2.
  - destruct (processIssue_processed i st st1 w w1 t1 Hskip E1)
      as (ds1 & D1 & K1 & P1).
    exists (ds1 ++ ds2). rewrite D2, D1, app_assoc, known_after_app, <- K1.
    split_and!; try done.
    intros j [->|Hj]%elem_of_cons Hs.
    + by apply processed_app_l.
    + apply processed_app_r. rewrite <- K1. by apply P2.
Qed.

End Inversion.

(** ** The four ways [run] can go *)

Section RunCases.
Context {W : Type} (client : GitHubClient W) (this : GitHubAutoLabeler).
Implicit Types w : W.

Lemma run_cases w :
  let state := get (issueState (config this)) in
  (rules this = [] ∧ run client this w = (inl NoRulesConfigured, w, []))
  ∨ (rules this ≠ []
     ∧ ∃ err w1,
         getRepoIssues client state w = (inl err, w1)
         ∧ run client this w
           = (inl err, w1,
              [Called (GetRepoIssues state) (Some err);
               LoggedError (run_failed_msg err)]))
  ∨ (rules this ≠ []
     ∧ ∃ issues w1 err w2,
         getRepoIssues client state w = (inr issues, w1)
         ∧ getRepoLabels client w1 = (inl err, w2)
         ∧ run client this w
           = (inl err, w2,
              [Called (GetRepoIssues state) None;
               Called GetRepoLabels (Some err);
               LoggedError (run_failed_msg err)]))
  ∨ (rules this ≠ []
     ∧ ∃ issues w1 labs w2 out w' t,
         getRepoIssues client state w = (inr issues, w1)
         ∧ getRepoLabels client w1 = (inr labs, w2)
         ∧ forOf issues (processIssue client this)
             (known_names labs, initial_result issues) w2 = (out, w', t)
         ∧ run client this w
           = (result_of out, w',
              Called (GetRepoIssues state) None
                :: Called GetRepoLabels None :: t ++ failure_log out)).
Proof.
  intros state. unfold run.
  destruct (rules this) as [|rule rs] eqn:Hrules; simpl; [by left|].
  right. unfold try_catch, bind, call, ret, throw, logError. fold state.
  destruct (getRepoIssues client state w) as [[err|issues] w1] eqn:E1; simpl.
  { left. split; [done|]. by exists err, w1. }
  right.
  destruct (getRepoLabels client w1) as [[err|labs] w2] eqn:E2; simpl.
  { left. split; [done|]. by exists issues, w1, err, w2. }
  right. split; [done|]. fold (known_names labs) (initial_result issues).
  destruct (forOf issues (processIssue client this)
              (known_names labs, initial_result issues) w2)
    as [[[err|st] w3] t] eqn:E3; simpl.
  - exists issues, w1, labs, w2, (inl err), w3, t. by split_and!.
  - exists issues, w1, labs, w2, (inr st), w3, t. simpl.
    by rewrite !app_nil_r.
Qed.

(** [run] as a function of what the gateway answers. *)
Lemma run_eq w :
  run client this w =
    if (length (rules this) =? 0)%nat then (inl NoRulesConfigured, w, [])
    else
      match getRepoIssues client (get (issueState (config this))) w with
      | (inl err, w1) =>
          (inl err, w1,
           [Called (GetRepoIssues (get (issueState (config this)))) (Some err);
            LoggedError (run_failed_msg err)])
      | (inr issues, w1) =>
          match getRepoLabels client w1 with
          | (inl err, w2) =>
              (inl err, w2,
               [Called (GetRepoIssues (get (issueState (config this)))) None;
                Called GetRepoLabels (Some err);
                LoggedError (run_failed_msg err)])
          | (inr labs, w2) =>
              let x := forOf issues (processIssue client this)
                         (known_names labs, initial_result issues) w2 in
              (result_of x.1.1, x.1.2,
               Called (GetRepoIssues (get (issueState (config this)))) None
                 :: Called GetRepoLabels None :: x.2 ++ failure_log x.1.1)
          end
      end.
Proof.
  destruct (run_cases w) as [[Hr E]|[(Hr & err & w1 & E1 & E)|
    [(Hr & issues & w1 & err & w2 & E1 & E2 & E)|
     (Hr & issues & w1 & labs & w2 & out & w' & t & E1 & E2 & E3 & E)]]];
    rewrite E.
  - by rewrite Hr.
  - destruct (rules this); [done|]. simpl. by rewrite E1.
  - destruct (rules this); [done|]. simpl. by rewrite E1, E2.
  - destruct (rules this); [done|]. simpl. by rewrite E1, E2, E3.
Qed.

(** The last case, selected by what the fetches return. *)
Lemma run_fetched w issues labs :
  rules this ≠ [] →
  fetched_issues client this w = inr issues →
  fetched_labels client this w = inr labs →
  ∃ w2 out w' t,
    forOf issues (processIssue client this)
      (known_names labs, initial_result issues) w2 = (out, w', t)
    ∧ run client this w
      = (result_of out, w',
         Called (GetRepoIssues (get (issueState (config this)))) None
           :: Called GetRepoLabels None :: t ++ failure_log out).
Proof.
  intros Hrules Hissues Hlabels. unfold fetched_issues, fetched_labels in *.
  destruct (run_cases w) as [[? _]|[(_ & err & w1 & E & _)|
    [(_ & is' & w1 & err & w2 & E1 & E2 & _)|
     (_ & is' & w1 & labs' & w2 & out & w' & t & E1 & E2 & E3 & E4)]]].
  - done.
  - rewrite E in Hissues. done.
  - rewrite E1 in Hissues, Hlabels. simpl in *. rewrite E2 in Hlabels. done.
  - rewrite E1 in Hissues, Hlabels. simpl in *. rewrite E2 in Hlabels.
    simpl in *. injection Hissues as ->. injection Hlabels as ->.
    by exists w2, out, w', t.
Qed.

End RunCases.

Lemma follows_elem_of P known t ev :
  follows P known t → ev ∈ t → ∃ pre, P (known_after known pre) ev.
Proof.
  intros Hf (pre & post & ->)%list_elem_of_split. exists pre.
  by eapply follows_at.
Qed.

(** The transcript of a whole run follows what its issue loop follows. *)
Lemma follows_framed this issues known state t (out : Error + AutoLabelResult) :
  follows (step_ok this issues) known t →
  follows (step_ok this issues) known
    (Called (GetRepoIssues state) None
       :: Called GetRepoLabels None :: t ++ failure_log out).
Proof.
  intros Hf. simpl. split; [done|]. split; [done|]. unfold learn. simpl.
  apply follows_app. split; [done|]. by destruct out.
Qed.

Lemma created_framed state t (out : Error + AutoLabelResult) :
  created (Called (GetRepoIssues state) None
             :: Called GetRepoLabels None :: t ++ failure_log out)
  = created t.
Proof.
  unfold created. simpl. rewrite omap_app.
  destruct out; simpl; by rewrite app_nil_r.
Qed.

Lemma label_calls_framed state t (out : Error + AutoLabelResult) :
  label_calls (Called (GetRepoIssues state) None
                 :: Called GetRepoLabels None :: t ++ failure_log out)
  = label_calls t.
Proof.
  unfold label_calls. simpl. rewrite omap_app.
  destruct out; simpl; by rewrite app_nil_r.
Qed.

Lemma create_calls_framed state t (out : Error + AutoLabelResult) :
  create_calls (Called (GetRepoIssues state) None
                  :: Called GetRepoLabels None :: t ++ failure_log out)
  = create_calls t.
Proof.
  unfold create_calls. simpl. rewrite omap_app.
  destruct out; simpl; by rewrite app_nil_r.
Qed.

(** In a list with a single element that satisfies [P], a split at such an
    element is the split at that element. *)
Lemma split_at_unique {A} (P : A → Prop) (l1 l2 pre post : list A) (x y : A) :
  l1 ++ x :: l2 = pre ++ y :: post →
  Forall (λ a, ¬ P a) l1 → Forall (λ a, ¬ P a) l2 → P y →
  pre = l1 ∧ y = x ∧ post = l2.
Proof.
  revert pre. induction l1 as [|a l1 IH]; intros pre Heq H1 H2 Hy.
  - destruct pre as [|b pre]; simpl in Heq.
    + by injection Heq as -> ->.
    + injection Heq as -> ->. exfalso.
      apply Forall_app in H2 as [_ H2]. by inversion H2.
  - inversion H1 as [|? ? Ha H1']; subst.
    destruct pre as [|b pre]; simpl in Heq.
    + injection Heq as -> _. done.
    + injection Heq as -> Heq. destruct (IH pre Heq H1' H2 Hy) as (-> & -> & ->).
      done.
Qed.

(** ** Configuration *)

Lemma spread_merged {A} (a b : Field A) : merged a b (spread a b).
Proof. unfold merged. by destruct b. Qed.

Lemma spread_config_shallow_merge a b : shallow_merge a b (spread_config a b).
Proof. repeat split; simpl; by apply spread_merged. Qed.

(** C8: an engine built without overrides has exactly the default
    configuration (createMissingLabels false, defaultLabelColor "0075ca",
    relabelExistingIssues true, issueState open) and no rules; overrides
    given to the constructor are merged onto the defaults; and
    [setConfig] merges the given keys onto the current configuration,
    keeping every key the partial object does not mention, and the rules. *)
Theorem config_defaults_and_merge :
  config (new_GitHubAutoLabeler empty_config)
  = {| createMissingLabels := Value false;
       defaultLabelColor := Value "0075ca";
       relabelExistingIssues := Value true;
       issueState := Value open |}
  ∧ (∀ overrides,
       shallow_merge DEFAULT_CONFIG overrides
         (config (new_GitHubAutoLabeler overrides))
       ∧ rules (new_GitHubAutoLabeler overrides) = [])
  ∧ (∀ this partial,
       shallow_merge (config this) partial (config (setConfig partial this))
       ∧ rules (setConfig partial this) = rules this).
Proof.
  split_and!; [done|..].
  - intros overrides. split; [apply spread_config_shallow_merge|done].
  - intros this partial. split; [apply spread_config_shallow_merge|done].
Qed.

(** ** Properties of [run] *)

(** C1: on an engine without rules, [run] throws NoRulesConfigured
    whatever the configuration, the gateway and the state of the world;
    the transcript is empty, so no issue fetch, label fetch, label
    creation or label application was made, and the world is unchanged. *)
Theorem run_without_rules {W} (client : GitHubClient W) this (w : W) :
  rules this = [] →
  run client this w = (inl NoRulesConfigured, w, []).
Proof. intros Hrules. unfold run. by rewrite Hrules. Qed.

Lemma run_without_rules_witness :
  rules Fixtures.autoLabeler = []
  ∧ run Repo.client Fixtures.autoLabeler
      (Fixtures.repo Fixtures.three_issues Fixtures.three_labels)
    = (inl NoRulesConfigured,
       Fixtures.repo Fixtures.three_issues Fixtures.three_labels, []).
Proof. split; [reflexivity|]. apply run_without_rules. reflexivity. Defined.

Section RunFacts.
Context {W : Type} (client : GitHubClient W) (this : GitHubAutoLabeler).
Implicit Types w : W.

(** Where both fetches answer, the issue loop of [run] is a [segment]
    over the fetched issues, and [run] returns what it leaves. *)
Lemma run_segment w issues labs :
  rules this ≠ [] →
  fetched_issues client this w = inr issues →
  fetched_labels client this w = inr labs →
  ∃ w2 out w' t,
    forOf issues (processIssue client this)
      (known_names labs, initial_result issues) w2 = (out, w', t)
    ∧ segment this issues issues (known_names labs, initial_result issues)
        out t
    ∧ run client this w
      = (result_of out, w',
         Called (GetRepoIssues (get (issueState (config this)))) None
           :: Called GetRepoLabels None :: t ++ failure_log out).
Proof.
  intros Hrules Hi Hl.
  destruct (run_fetched client this w issues labs Hrules Hi Hl)
    as (w2 & out & w' & t & Eloop & Erun).
  destruct (issue_loop_segment client this issues issues
              (known_names labs, initial_result issues) w2)
    as (out' & w'' & t' & Eloop' & Hseg); [done|].
  rewrite Eloop in Eloop'. injection Eloop' as <- <- <-.
  by exists w2, out, w', t.
Qed.

(** Every [createLabel] call of a run is one the issue loop makes. *)
Lemma run_create_calls w out w' t name color description failure :
  run client this w = (out, w', t) →
  Called (CreateLabel name color description) failure ∈ t →
  ∃ issues known,
    step_ok this issues known
      (Called (CreateLabel name color description) failure).
Proof.
  intros Hrun Hin.
  destruct (run_cases client this w) as [[_ E]|[(_ & err & w1 & _ & E)|
    [(_ & issues & w1 & err & w2 & _ & _ & E)|
     (_ & issues & w1 & labs & w2 & out' & w'' & t' & _ & _ & Eloop & E)]]];
    rewrite E in Hrun; injection Hrun as <- <- <-.
  - by apply elem_of_nil in Hin.
  - repeat (apply elem_of_cons in Hin as [[=]|Hin]). by apply elem_of_nil in Hin.
  - repeat (apply elem_of_cons in Hin as [[=]|Hin]). by apply elem_of_nil in Hin.
  - destruct (issue_loop_segment client this issues issues
                (known_names labs, initial_result issues) w2)
      as (out2 & w3 & t2 & Eloop2 & Hf & _); [done|].
    rewrite Eloop in Eloop2. injection Eloop2 as <- <- <-.
    apply (follows_framed this issues _ (get (issueState (config this)))
             t' (result_of out')) in Hf.
    assert (failure_log (result_of out') = failure_log out') as Hlog
      by by destruct out'.
    rewrite Hlog in Hf.
    destruct (follows_elem_of _ _ _ _ Hf Hin) as [pre Hstep].
    by exists issues, (known_after (known_names labs, initial_result issues).1 pre).
Qed.

End RunFacts.

(** C10: when the configured [defaultLabelColor] reads as [undefined]
    (the key is absent or was set to [undefined] by an override) or is
    the empty string, every [createLabel] call of a run is given the
    colour "0075ca". *)
Theorem default_color_fallback {W} (client : GitHubClient W) this (w : W)
    out w' t :
  get (defaultLabelColor (config this)) = None
  ∨ get (defaultLabelColor (config this)) = Some "" →
  run client this w = (out, w', t) →
  ∀ name color description failure,
    Called (CreateLabel name color description) failure ∈ t →
    color = "0075ca".
Proof.
  intros Hcolor Hrun name color description failure Hin.
  destruct (run_create_calls client this w out w' t name color description
              failure Hrun Hin) as (issues & known & _ & _ & -> & _).
  by destruct Hcolor as [-> | ->].
Qed.

(** Scenario B of the specification with the colour set to [undefined]
    by [setConfig]: the label "security" is created with "0075ca". *)
Lemma default_color_fallback_witness :
  let this :=
    addRule CommonLabelingRules.security
      (setConfig
         (Fixtures.only
            (λ c, Fixtures.with_defaultLabelColor Undefined
                    (Fixtures.with_createMissingLabels (Value true) c)))
         Fixtures.autoLabeler) in
  let w := Fixtures.repo [Fixtures.security_issue] Fixtures.two_labels in
  (get (defaultLabelColor (config this)) = None
   ∨ get (defaultLabelColor (config this)) = Some "")
  ∧ Called (CreateLabel "security" "0075ca" "Auto-created label for security")
      None ∈ (run Repo.client this w).2
  ∧ ∀ name color description failure,
      Called (CreateLabel name color description) failure
        ∈ (run Repo.client this w).2 →
      color = "0075ca".
Proof.
  intros this w. split; [left; reflexivity|]. split.
  - vm_compute. apply list_elem_of_further, list_elem_of_further,
      list_elem_of_here.
  - apply (default_color_fallback Repo.client this w
             (run Repo.client this w).1.1 (run Repo.client this w).1.2
             (run Repo.client this w).2).
    + left; reflexivity.
    + reflexivity.
Defined.

(** C7: a failed call to fetch the issues, to fetch the labels or to
    label an issue ends the run: the only thing that follows it in the
    transcript is the log line, and [run] throws that very error, so it
    returns no result. Conversely a run that throws found no rules or
    ends at such a failed call. *)
Theorem fatal_errors {W} (client : GitHubClient W) this (w : W) out w' t :
  run client this w = (out, w', t) →
  (∀ pre ev err post,
     t = pre ++ ev :: post → fatal ev = Some err →
     post = [LoggedError (run_failed_msg err)] ∧ out = inl err)
  ∧ (∀ err, out = inl err →
       (rules this = [] ∧ err = NoRulesConfigured ∧ t = [])
       ∨ ∃ pre ev, t = pre ++ [ev; LoggedError (run_failed_msg err)]
                   ∧ fatal ev = Some err).
Proof.
  intros Hrun.
  destruct (run_cases client this w) as [[Hrules E]|[(_ & err & w1 & _ & E)|
    [(_ & issues & w1 & err & w2 & _ & _ & E)|
     (_ & issues & w1 & labs & w2 & out' & w'' & t' & _ & _ & Eloop & E)]]];
    rewrite E in Hrun; injection Hrun as <- <- <-.
  - split.
    + intros pre ev err post Heq. by destruct pre.
    + intros err [= <-]. by left.
  - split.
    + intros pre ev err' post Heq Hfatal.
      destruct (split_at_unique (λ e, fatal e ≠ None) []
                  [LoggedError (run_failed_msg err)] pre post
                  (Called (GetRepoIssues (get (issueState (config this))))
                     (Some err)) ev Heq) as (-> & -> & ->).
      * constructor.
      * repeat constructor. simpl. by intros ?.
      * by rewrite Hfatal.
      * simpl in Hfatal. by injection Hfatal as ->.
    + intros ? [= <-]. right.
      by exists [], (Called (GetRepoIssues (get (issueState (config this))))
                      (Some err)).
  - split.
    + intros pre ev err' post Heq Hfatal.
      destruct (split_at_unique (λ e, fatal e ≠ None)
                  [Called (GetRepoIssues (get (issueState (config this)))) None]
                  [LoggedError (run_failed_msg err)] pre post
                  (Called GetRepoLabels (Some err)) ev Heq) as (-> & -> & ->).
      * repeat constructor. simpl. by intros ?.
      * repeat constructor. simpl. by intros ?.
      * by rewrite Hfatal.
      * simpl in Hfatal. by injection Hfatal as ->.
    + intros ? [= <-]. right.
      by exists [Called (GetRepoIssues (get (issueState (config this)))) None],
        (Called GetRepoLabels (Some err)).
  - destruct (issue_loop_segment client this issues issues
                (known_names labs, initial_result issues) w2)
      as (out2 & w3 & t2 & Eloop2 & _ & Hends & _); [done|].
    rewrite Eloop in Eloop2. injection Eloop2 as <- <- <-.
    destruct out' as [err|st]; simpl in *.
    + destruct Hends as (pre' & n & labels & -> & Hpre').
    set (ev' := Called (LabelIssue n labels) (Some err)).
    assert (fatal ev' = Some err) as Hev' by done. split.
      * intros pre ev err' post Heq Hfatal.
        destruct (split_at_unique (λ e, fatal e ≠ None)
                    (Called (GetRepoIssues (get (issueState (config this)))) None
                       :: Called GetRepoLabels None :: pre')
                    [LoggedError (run_failed_msg err)] pre post ev' ev)
          as (-> & -> & ->).
        -- rewrite <- Heq. simpl. by rewrite <- app_assoc.
        -- repeat constructor; try (simpl; by intros ?).
           eapply Forall_impl; [done|]. simpl. intros e He Hn. by apply Hn.
        -- repeat constructor. simpl. by intros ?.
        -- by rewrite Hfatal.
        -- rewrite Hev' in Hfatal. by injection Hfatal as ->.
      * intros ? [= <-]. right.
        exists (Called (GetRepoIssues (get (issueState (config this)))) None
                  :: Called GetRepoLabels None :: pre'), ev'.
        split; [|done]. simpl. by rewrite <- app_assoc.
    + split; [|done]. intros pre ev err post Heq Hfatal. exfalso.
      rewrite app_nil_r in Heq.
      assert (Forall (λ e, fatal e = None)
                (Called (GetRepoIssues (get (issueState (config this)))) None
                   :: Called GetRepoLabels None :: t')) as Hall
        by by repeat constructor.
      rewrite Heq in Hall. apply Forall_app in Hall as [_ Hall].
      inversion Hall as [|? ? Hev _]. by rewrite Hfatal in Hev.
Qed.

(** On the three issues of the test suite: labelling issue 2 is rejected,
    the run throws that error, and issue 3 is not looked at. *)
Lemma fatal_errors_witness :
  let this :=
    addRules [CommonLabelingRules.bug; CommonLabelingRules.enhancement;
              CommonLabelingRules.documentation] Fixtures.autoLabeler in
  let client :=
    Mock.client
      (Fixtures.rejecting_issue 2 Fixtures.three_issues Fixtures.three_labels) in
  let out : Error + AutoLabelResult := inl Fixtures.boom in
  let t := [Called (GetRepoIssues (Some open)) None;
            Called GetRepoLabels None;
            Called (LabelIssue 1 ["bug"]) None;
            Called (LabelIssue 2 ["enhancement"]) (Some Fixtures.boom);
            LoggedError "Auto-labeling failed: boom"] in
  run client this tt = (out, tt, t)
  ∧ ∀ pre ev err post,
      t = pre ++ ev :: post → fatal ev = Some err →
      post = [LoggedError (run_failed_msg err)] ∧ out = inl err.
Proof.
  intros this client out t.
  assert (run client this tt = (out, tt, t)) as Hrun
    by (vm_compute; reflexivity).
  split; [exact Hrun|].
  exact (proj1 (fatal_errors client this tt out tt t Hrun)).
Defined.

(** ** Rule evaluation against its specification *)

Lemma elem_of_dedup_first l x : x ∈ dedup_first l ↔ x ∈ l.
Proof.
  induction l as [|y l IH]; simpl; [done|].
  rewrite !elem_of_cons, list_elem_of_filter, IH.
  destruct (decide (x = y)); tauto.
Qed.

Lemma NoDup_dedup_first l : NoDup (dedup_first l).
Proof.
  induction l as [|y l IH]; simpl; [constructor|].
  constructor.
  - rewrite list_elem_of_filter. intros [Hne _]. by apply Hne.
  - by apply NoDup_filter.
Qed.

Lemma dedup_first_NoDup l : NoDup l → dedup_first l = l.
Proof.
  induction 1 as [|x l Hx Hl IH]; simpl; [done|].
  rewrite IH. f_equal. clear IH Hl.
  induction l as [|y l IH]; [done|].
  apply not_elem_of_cons in Hx as [Hxy Hx].
  rewrite filter_cons_True by done. f_equal. by apply IH.
Qed.

Lemma dedup_first_app a b :
  dedup_first (a ++ b)
  = dedup_first a ++ filter (λ y, y ∉ a) (dedup_first b).
Proof.
  induction a as [|x a IH]; simpl.
  - induction (dedup_first b) as [|y l IHl]; [done|].
    rewrite filter_cons_True by apply not_elem_of_nil. by rewrite <- IHl.
  - rewrite IH, filter_app, list_filter_filter. do 2 f_equal.
    apply list_filter_iff. intros y. rewrite not_elem_of_cons. tauto.
Qed.

Lemma set_add_spec x s :
  NoDup s → NoDup (set_add x s) ∧ dedup_first (s ++ [x]) = set_add x s.
Proof.
  intros Hs. unfold set_add. rewrite dedup_first_app, dedup_first_NoDup by done.
  simpl. destruct (decide (x ∈ s)) as [Hin|Hin].
  - rewrite filter_cons_False by (intros ?; done). simpl.
    by rewrite app_nil_r.
  - rewrite filter_cons_True by done. simpl. split; [|done].
    apply NoDup_app. split_and!; [done| |apply NoDup_singleton].
    intros y Hy ->%list_elem_of_singleton. done.
Qed.

Lemma add_all_spec labels s :
  NoDup s →
  NoDup (add_all labels s) ∧ add_all labels s = dedup_first (s ++ labels).
Proof.
  unfold add_all. revert s. induction labels as [|x labels IH]; intros s Hs.
  - simpl. by rewrite app_nil_r, dedup_first_NoDup.
  - simpl. destruct (set_add_spec x s Hs) as [Hnd Heq].
    destruct (IH (set_add x s) Hnd) as [Hnd' Heq']. split; [done|].
    rewrite Heq', <- Heq, (dedup_first_app (dedup_first _)).
    rewrite (cons_middle x s labels), app_assoc, (dedup_first_app (s ++ [x])).
    rewrite dedup_first_NoDup by apply NoDup_dedup_first. f_equal.
    apply list_filter_iff. intros y. by rewrite elem_of_dedup_first.
Qed.

Lemma collect_spec rs text s :
  NoDup s → collect rs text s = dedup_first (s ++ matching_labels rs text).
Proof.
  unfold matching_labels. revert s.
  induction rs as [|rule rs IH]; intros s Hs; simpl.
  - by rewrite app_nil_r, dedup_first_NoDup.
  - destruct (rule_pattern rule text) eqn:Hmatch.
    + rewrite filter_cons_True by done. simpl.
      destruct (add_all_spec (rule_labels rule) s Hs) as [Hnd Heq].
      rewrite IH, Heq by done.
      rewrite (dedup_first_app (dedup_first _)), app_assoc,
        (dedup_first_app (s ++ rule_labels rule)).
      rewrite dedup_first_NoDup by apply NoDup_dedup_first. f_equal.
      apply list_filter_iff. intros y. by rewrite elem_of_dedup_first.
    + rewrite filter_cons_False by (rewrite Hmatch; done). by apply IH.
Qed.

Lemma labelsToAdd_spec rs i :
  labelsToAdd rs i = dedup_first (matching_labels rs (issueText i)).
Proof. unfold labelsToAdd. rewrite collect_spec by constructor. done. Qed.


(** ** Successful runs *)

Section Success.
Context {W : Type} (client : GitHubClient W) (this : GitHubAutoLabeler).
Implicit Types w : W.

Lemma run_ok_inv w labs r w' t :
  fetched_labels client this w = inr labs →
  run client this w = (inr r, w', t) →
  ∃ issues w2 known t',
    rules this ≠ []
    ∧ fetched_issues client this w = inr issues
    ∧ forOf issues (processIssue client this)
        (known_names labs, initial_result issues) w2
      = (inr (known, r), w', t')
    ∧ t = Called (GetRepoIssues (get (issueState (config this)))) None
            :: Called GetRepoLabels None :: t'.
Proof.
  intros Hlabs Hrun. unfold fetched_issues, fetched_labels in *.
  destruct (run_cases client this w) as [[_ E]|[(_ & err & w1 & _ & E)|
    [(_ & issues & w1 & err & w2 & _ & _ & E)|
     (Hr & issues & w1 & labs' & w2 & out' & w'' & t' & E1 & E2 & Eloop & E)]]];
    rewrite E in Hrun; try done.
  rewrite E1 in Hlabs |- *. simpl in *. rewrite E2 in Hlabs. simpl in Hlabs.
  injection Hlabs as ->. destruct out' as [err|[known r']]; [done|].
  simpl in Hrun. injection Hrun as <- <- <-.
  exists issues, w2, known, t'. by rewrite app_nil_r.
Qed.

Lemma entry_of_framed known state t d i pre :
  entry_of this known t d i pre →
  entry_of this known
    (Called (GetRepoIssues state) None :: Called GetRepoLabels None :: t) d i
    (Called (GetRepoIssues state) None :: Called GetRepoLabels None :: pre).
Proof. intros (? & ? & ? & ? & post & ->). split_and!; try done. by exists post. Qed.

Lemma processed_framed known state t ds i :
  processed this known t ds i →
  processed this known
    (Called (GetRepoIssues state) None :: Called GetRepoLabels None :: t) ds i.
Proof.
  intros (pre & [post ->] & Hc & Hv).
  exists (Called (GetRepoIssues state) None :: Called GetRepoLabels None :: pre).
  split_and!.
  - by exists post.
  - done.
  - destruct Hv as [Hv|(d & Hd & He)]; [by left|]. right. exists d.
    split; [done|]. by apply entry_of_framed.
Qed.

(** Everything the loop lemmas say of a successful run. *)
Lemma run_ok_facts w labs r w' t :
  fetched_labels client this w = inr labs →
  run client this w = (inr r, w', t) →
  ∃ issues,
    fetched_issues client this w = inr issues
    ∧ follows (step_ok this issues) (known_names labs) t
    ∧ totalIssues r = length issues
    ∧ labelsCreated r = length (created t)
    ∧ labeledIssues r = length (label_calls t)
    ∧ (entry_key <$> details r) = label_calls t
    ∧ (issueNumber <$> details r) `sublist_of` (issue_number <$> issues)
    ∧ Forall (λ d, ∃ i pre, i ∈ issues
                            ∧ entry_of this (known_names labs) t d i pre)
        (details r)
    ∧ ∀ i, i ∈ issues → skips this i = false →
           processed this (known_names labs) t (details r) i.
Proof.
  intros Hlabs Hrun.
  destruct (run_ok_inv w labs r w' t Hlabs Hrun)
    as (issues & w2 & known & t' & Hrules & Hissues & Eloop & ->).
  exists issues. split; [done|].
  destruct (issue_loop_segment client this issues issues
              (known_names labs, initial_result issues) w2)
    as (out2 & w3 & t2 & Eloop2 & Hf & _ & Hacc); [done|].
  rewrite Eloop in Eloop2. injection Eloop2 as <- <- <-.
  destruct (Hacc _ eq_refl) as (_ & Ht & Hc & Hl & ds & Hd & Hk & Hs & Hall).
  simpl in *.
  destruct (issue_loop_processed client this issues _ _ w2 w' t' Eloop)
    as (ds' & Hd' & _ & Hproc). simpl in *. subst ds ds'.
  change (created (_ :: _ :: t')) with (created t').
  change (label_calls (_ :: _ :: t')) with (label_calls t').
  split_and!; try done.
  - eapply Forall_impl; [done|]. simpl. intros d (i & pre & Hi & He).
    exists i, (Called (GetRepoIssues (get (issueState (config this)))) None
                 :: Called GetRepoLabels None :: pre).
    split; [done|]. by apply entry_of_framed.
  - intros i Hi Hskip. apply processed_framed. by apply Hproc.
Qed.

End Success.

Lemma elem_of_known_names labs x : x ∈ known_names labs ↔ x ∈ label_name <$> labs.
Proof. unfold known_names. apply elem_of_list_to_set. Qed.

(** ** The repository at the end of a run *)

Section Stored.
Context {W : Type} (client : GitHubClient W) (stored : W → list string).
Context (this : GitHubAutoLabeler).
Hypothesis Hkeeps : keeps_labels client stored.
Implicit Types (w : W) (st : gset string * AutoLabelResult).

(** The names the loop knows are names of labels of the repository. *)
Lemma createIfMissing_stored st label w st' w' t :
  createIfMissing client (config this) st label w = (inr st', w', t) →
  (∀ l, l ∈ st.1 → l ∈ stored w) → ∀ l, l ∈ st'.1 → l ∈ stored w'.
Proof.
  destruct Hkeeps as (_ & Hmono & Hnew & _).
  unfold createIfMissing. destruct (decide (label ∈ st.1)) as [Hin|Hin].
  { by intros [= <- <- <-]. }
  unfold try_catch, bind, call, ret, logError.
  pose proof (Hmono label
    (or_else (get (defaultLabelColor (config this))) "0075ca")
    (description_for label) w) as Hm.
  pose proof (Hnew label
    (or_else (get (defaultLabelColor (config this))) "0075ca")
    (description_for label) w) as Hn.
  destruct (createLabel client label _ _ w) as [[err|[]] w1]; simpl in *.
  - intros [= <- <- <-] Hinv l Hl. by apply Hm, Hinv.
  - intros [= <- <- <-] Hinv l Hl. simpl in Hl.
    apply elem_of_union in Hl as [->%elem_of_singleton|Hl].
    + by apply Hn.
    + by apply Hm, Hinv.
Qed.

Lemma createMissing_loop_stored candidates st w st' w' t :
  forOf candidates (createIfMissing client (config this)) st w
  = (inr st', w', t) →
  (∀ l, l ∈ st.1 → l ∈ stored w) → ∀ l, l ∈ st'.1 → l ∈ stored w'.
Proof.
  revert st w t. induction candidates as [|label rest IH]; intros st w t; simpl.
  { by intros [= <- <- <-]. }
  unfold bind.
  destruct (createIfMissing client (config this) st label w)
    as [[[err|st1] w1] t1] eqn:E1; [done|].
  destruct (forOf rest _ st1 w1) as [[[err|st2] w2] t2] eqn:E2; [done|].
  intros [= <- <- <-] Hinv. eapply IH; [done|].
  by eapply createIfMissing_stored.
Qed.

Lemma createMissing_stored candidates st w st' w' t :
  createMissing client this candidates st w = (inr st', w', t) →
  (∀ l, l ∈ st.1 → l ∈ stored w) → ∀ l, l ∈ st'.1 → l ∈ stored w'.
Proof.
  unfold createMissing.
  destruct (truthy (get (createMissingLabels (config this)))).
  - apply createMissing_loop_stored.
  - by intros [= <- <- <-].
Qed.

Lemma processIssue_stored i st w st' w' t :
  processIssue client this st i w = (inr st', w', t) →
  (∀ l, l ∈ st.1 → l ∈ stored w) → ∀ l, l ∈ st'.1 → l ∈ stored w'.
Proof.
  destruct Hkeeps as (_ & _ & _ & Hlabel).
  unfold processIssue. destruct (skips this i).
  { by intros [= <- <- <-]. }
  rewrite bind_eq.
  destruct (createMissing client this (labelsToAdd (rules this) i) st w)
    as [[[err|st1] w1] t1] eqn:E1; [done|].
  pose proof (createMissing_stored _ _ _ _ _ _ E1) as Hcreate.
  unfold applyValid. destruct (0 <? length _).
  - unfold bind, call, ret.
    pose proof (Hlabel (issue_number i)
      (filter (λ label : string, label ∈ st1.1) (labelsToAdd (rules this) i))
      w1) as Hm.
    destruct (labelIssue client _ _ w1) as [[err|[]] w2]; simpl in *; [done|].
    intros [= <- <- <-] Hinv l Hl. apply Hm. by apply Hcreate.
  - simpl. intros [= <- <- <-] Hinv. by apply Hcreate.
Qed.

Lemma issue_loop_stored issues st w st' w' t :
  forOf issues (processIssue client this) st w = (inr st', w', t) →
  (∀ l, l ∈ st.1 → l ∈ stored w) → ∀ l, l ∈ st'.1 → l ∈ stored w'.
Proof.
  revert st w t. induction issues as [|i rest IH]; intros st w t; simpl.
  { by intros [= <- <- <-]. }
  unfold bind.
  destruct (processIssue client this st i w) as [[[err|st1] w1] t1] eqn:E1;
    [done|].
  destruct (forOf rest _ st1 w1) as [[[err|st2] w2] t2] eqn:E2; [done|].
  intros [= <- <- <-] Hinv. eapply IH; [done|].
  by eapply processIssue_stored.
Qed.

(** After a successful run, every name known at some point of the run is
    the name of a label of the repository. *)
Lemma run_stored w labs r w' t pre post l :
  fetched_labels client this w = inr labs →
  run client this w = (inr r, w', t) →
  t = pre ++ post → l ∈ known_after (known_names labs) pre → l ∈ stored w'.
Proof.
  intros Hlabs Hrun Ht Hl. unfold fetched_labels in Hlabs.
  destruct (run_cases client this w) as [[_ E]|[(_ & err & w1 & _ & E)|
    [(_ & issues & w1 & err & w2 & _ & _ & E)|
     (Hr & issues & w1 & labs' & w2 & out' & w'' & t' & E1 & E2 & Eloop & E)]]];
    rewrite E in Hrun; try done.
  destruct out' as [err|[known r']]; [done|].
  simpl in Hrun. injection Hrun as <- <- <-.
  rewrite E1 in Hlabs. simpl in Hlabs.
  destruct Hkeeps as (Hlist & _).
  pose proof (Hlist w1 labs) as Hfetched.
  rewrite E2 in Hlabs, Hfetched. simpl in *. injection Hlabs as ->.
  destruct (issue_loop_processed client this _ _ _ _ _ _ Eloop)
    as (_ & _ & Hknown & _). simpl in Hknown.
  eapply (issue_loop_stored _ _ _ _ _ _ Eloop).
  - simpl. intros x Hx%elem_of_known_names. by apply Hfetched.
  - simpl. rewrite Hknown. rewrite app_nil_r in Ht.
    apply elem_of_known_after in Hl as [Hl|Hl];
      apply elem_of_known_after; [by left|right].
    assert (created (pre ++ post) = created t') as Hc by by rewrite <- Ht.
    rewrite <- Hc, created_app. apply elem_of_app. by left.
Qed.

End Stored.

Lemma Repo_keeps_labels : keeps_labels Repo.client repository_labels.
Proof.
  unfold repository_labels. split_and!; simpl.
  - by intros s labs [= <-].
  - intros name color description s l Hl. unfold Repo.createLabel.
    destruct name as [|a name]; [done|]. destruct color as [|b color]; [done|].
    simpl. rewrite fmap_app. apply elem_of_app. by left.
  - intros name color description s. unfold Repo.createLabel.
    destruct name as [|a name]; [done|]. destruct color as [|b color]; [done|].
    simpl. intros _. rewrite fmap_app. apply elem_of_app. right.
    apply list_elem_of_here.
  - intros n labels s. unfold Repo.labelIssue.
    repeat destruct (decide _); done.
Qed.

(** C3: in the result of a successful run, [details] has [labeledIssues]
    entries, and each entry records a [labelIssue] call of the transcript
    whose labels were all known when the call was made: each is the name
    of a fetched label or of a label created earlier in the run; and
    where the gateway keeps the labels of the repository, each is the
    name of a label that the repository has when the run ends. *)
Theorem result_invariant {W} (client : GitHubClient W)
    (stored : W → list string) this (w : W) labs r w' t :
  fetched_labels client this w = inr labs →
  run client this w = (inr r, w', t) →
  length (details r) = labeledIssues r
  ∧ ∀ d, d ∈ details r →
      ∃ pre post,
        t = pre ++ Called (LabelIssue (issueNumber d) (appliedLabels d)) None
                     :: post
        ∧ ∀ l, l ∈ appliedLabels d →
               l ∈ known_after (known_names labs) pre
               ∧ (l ∈ label_name <$> labs ∨ l ∈ created pre)
               ∧ (keeps_labels client stored → l ∈ stored w').
Proof.
  intros Hlabs Hrun.
  destruct (run_ok_facts client this w labs r w' t Hlabs Hrun)
    as (issues & _ & _ & _ & _ & Hl & Hk & _ & Hall & _).
  split.
  - by rewrite Hl, <- Hk, length_fmap.
  - intros d Hd. rewrite Forall_forall in Hall.
    destruct (Hall d Hd) as (i & pre & _ & _ & Hn & _ & Hls & post & Ht).
    exists pre, post. rewrite Hn. split; [done|].
    intros l Hin. rewrite Hls in Hin. apply list_elem_of_filter in Hin as [Hin _].
    split_and!; [done| |].
    + apply elem_of_known_after in Hin as [Hin|Hin]; [left|by right].
      by apply elem_of_known_names.
    + intros Hkeeps.
      by eapply (run_stored client stored this Hkeeps w labs r w' t pre).
Qed.

(** Scenario B of the specification: the label "security" is created and
    then applied; it is known when issue 1 is labelled, and the
    repository has it when the run ends. *)
Lemma result_invariant_witness :
  let this :=
    addRule CommonLabelingRules.security
      (setConfig
         (Fixtures.only (Fixtures.with_createMissingLabels (Value true)))
         Fixtures.autoLabeler) in
  let w := Fixtures.repo [Fixtures.security_issue] Fixtures.two_labels in
  let r := {| totalIssues := 1; labeledIssues := 1; labelsCreated := 1;
              details := [{| issueNumber := 1;
                             title := "Security vulnerability found";
                             appliedLabels := ["security"] |}] |} in
  fetched_labels Repo.client this w = inr Fixtures.two_labels
  ∧ (run Repo.client this w).1.1 = inr r
  ∧ length (details r) = labeledIssues r
  ∧ "security" ∈ label_name <$> Repo.labels (run Repo.client this w).1.2.
Proof.
  intros this w r. split; [reflexivity|]. split; [vm_compute; reflexivity|].
  destruct (result_invariant Repo.client repository_labels this w
              Fixtures.two_labels r
              (run Repo.client this w).1.2 (run Repo.client this w).2)
    as [Hlen Hall].
  - reflexivity.
  - vm_compute. reflexivity.
  - split; [exact Hlen|].
    destruct (Hall {| issueNumber := 1;
                      title := "Security vulnerability found";
                      appliedLabels := ["security"] |})
      as (pre & post & _ & Hlabels).
    + apply list_elem_of_here.
    + destruct (Hlabels "security") as (_ & _ & Hstored).
      * apply list_elem_of_here.
      * exact (Hstored Repo_keeps_labels).
Defined.

Lemma filter_all {A} (P : A → Prop) `{!∀ x, Decision (P x)} (l : list A) :
  (∀ x, x ∈ l → P x) → filter P l = l.
Proof.
  induction l as [|x l IH]; intros Hall; [done|].
  rewrite filter_cons_True by (apply Hall; apply list_elem_of_here).
  f_equal. apply IH. intros y Hy. apply Hall. by apply list_elem_of_further.
Qed.

(** ** The loop, issue by issue *)

Section IssueByIssue.
Context {W : Type} (client : GitHubClient W) (this : GitHubAutoLabeler).
Implicit Types (w : W) (st : gset string * AutoLabelResult).






End IssueByIssue.




(** ** Label creation *)

Lemma created_subseteq_create_calls t : created t ⊆ create_calls t.
Proof.
  intros n (ev & Hev & Hn)%list_elem_of_omap. apply list_elem_of_omap.
  exists ev. split; [done|].
  by destruct ev as [[| | |] [|]|].
Qed.

Lemma follows_created this issues known t :
  follows (step_ok this issues) known t →
  NoDup (created t) ∧ ∀ n, n ∈ created t → n ∉ known.
Proof.
  revert known. induction t as [|ev t IH]; intros known; simpl.
  { intros _. split; [constructor|]. intros n Hn. by apply elem_of_nil in Hn. }
  intros [Hev Hf]. destruct (IH _ Hf) as [Hnd Hnot].
  unfold created, learn in *. simpl.
  destruct (created_name ev) as [n|] eqn:Hname; [|done].
  destruct ev as [[| |n' c d|] [|]|]; try done. injection Hname as ->.
  destruct Hev as (_ & Hn & _). split.
  - constructor; [|done]. intros Hin. apply (Hnot n Hin).
    apply elem_of_union. left. by apply elem_of_singleton.
  - intros m [->|Hm]%elem_of_cons; [done|].
    intros Hk. apply (Hnot m Hm). apply elem_of_union. by right.
Qed.

Lemma follows_no_create this issues known t :
  truthy (get (createMissingLabels (config this))) = false →
  follows (step_ok this issues) known t → create_calls t = [].
Proof.
  intros Hcm. revert known. induction t as [|ev t IH]; intros known; [done|].
  simpl. intros [Hev Hf]. unfold create_calls in *. simpl.
  rewrite (IH _ Hf).
  destruct ev as [[| |n c d|] f|]; try done.
  destruct Hev as [Hcm' _]. congruence.
Qed.

Lemma create_calls_nil_created t : create_calls t = [] → created t = [].
Proof.
  intros Hnil. pose proof (created_subseteq_create_calls t) as Hsub.
  rewrite Hnil in Hsub. destruct (created t) as [|n l]; [done|].
  exfalso. eapply elem_of_nil, Hsub, list_elem_of_here.
Qed.




(** C6: for a run with rules whose fetches answer, a failed [createLabel]
    call does not end the run: a run that throws ends at a failed
    [labelIssue] call, so a run whose [labelIssue] calls all return gives
    a result; [labelsCreated] counts the successful creations only; a
    label whose creation failed is not among the labels applied next,
    unless a later creation of it succeeded in between; and in a
    successful run every fetched issue that is not skipped is processed:
    each of its candidates is known or was given to [createLabel], and
    the known ones, if any, are applied and recorded. *)
Theorem create_failure_tolerated {W} (client : GitHubClient W) this (w : W)
    issues labs out w' t :
  rules this ≠ [] →
  fetched_issues client this w = inr issues →
  fetched_labels client this w = inr labs →
  run client this w = (out, w', t) →
  (∀ err, out = inl err →
     ∃ pre n labels,
       t = pre ++ [Called (LabelIssue n labels) (Some err);
                   LoggedError (run_failed_msg err)])
  ∧ ((∀ n labels failure,
        Called (LabelIssue n labels) failure ∈ t → failure = None) →
     ∃ r, out = inr r)
  ∧ (∀ pre name color description err mid n labels failure post,
       t = pre ++ Called (CreateLabel name color description) (Some err)
                    :: mid ++ Called (LabelIssue n labels) failure :: post →
       name ∉ created mid → name ∉ labels)
  ∧ ∀ r, out = inr r →
      labelsCreated r = length (created t)
      ∧ ∀ i, i ∈ issues → skips this i = false →
             processed this (known_names labs) t (details r) i.
Proof.
  intros Hrules Hissues Hlabs Hrun.
  destruct (run_segment client this w issues labs Hrules Hissues Hlabs)
    as (w2 & out' & w'' & t' & Eloop & (Hf & Hends & _) & Erun).
  rewrite Erun in Hrun. injection Hrun as <- <- <-. simpl in Hf.
  assert (∀ err, result_of out' = inl err →
            ∃ pre n labels,
              Called (GetRepoIssues (get (issueState (config this)))) None
                :: Called GetRepoLabels None :: t' ++ failure_log out'
              = pre ++ [Called (LabelIssue n labels) (Some err);
                        LoggedError (run_failed_msg err)]) as Hthrows.
  { intros err Hout. destruct out' as [err'|st]; [|done].
    injection Hout as ->. simpl in *.
    destruct Hends as (pre & n & labels & -> & _).
    exists (Called (GetRepoIssues (get (issueState (config this)))) None
              :: Called GetRepoLabels None :: pre), n, labels.
    simpl. by rewrite <- app_assoc. }
  apply (follows_framed this issues _ (get (issueState (config this)))
           t' (result_of out')) in Hf.
  assert (failure_log (result_of out') = failure_log out') as Hlog
    by by destruct out'.
  rewrite Hlog in *. clear Hlog.
  set (t := Called _ _ :: Called _ _ :: t' ++ failure_log out') in *.
  split_and!.
  - done.
  - intros Hall. destruct (result_of out') as [err|r] eqn:Hout; [|by exists r].
    destruct (Hthrows err eq_refl) as (pre & n & labels & Ht).
    assert (Some err = None) as Habs; [|done].
    apply (Hall n labels). rewrite Ht. apply elem_of_app. right.
    apply list_elem_of_here.
  - intros pre name color description err mid n labels failure post Ht Hmid.
    pose proof Hf as Hf1. rewrite Ht in Hf1. apply follows_at in Hf1.
    destruct Hf1 as (_ & Hnot & _).
    pose proof Hf as Hf2.
    rewrite Ht, (app_comm_cons mid), app_assoc in Hf2.
    apply follows_at in Hf2. destruct Hf2 as (_ & i & _ & _ & _ & ->).
    rewrite list_elem_of_filter. intros [Hin _]. apply Hnot.
    apply elem_of_known_after in Hin as [Hin|Hin];
      apply elem_of_known_after; [by left|].
    rewrite created_app in Hin. apply elem_of_app in Hin as [Hin|Hin];
      [by right|].
    unfold created in Hin. simpl in Hin. done.
  - intros r Hr.
    destruct (run_ok_facts client this w labs r w'' t Hlabs)
      as (issues' & Hissues' & _ & _ & Hc & _ & _ & _ & _ & Hproc).
    + by rewrite Erun, Hr.
    + rewrite Hissues in Hissues'. injection Hissues' as <-. done.
Qed.

(** Creating "security" is rejected: issue 6 still gets "bug", issue 3 is
    still processed, and one label is counted as created. *)
Lemma create_failure_tolerated_witness :
  let this :=
    addRules [CommonLabelingRules.bug; CommonLabelingRules.security;
              CommonLabelingRules.documentation]
      (setConfig
         (Fixtures.only (Fixtures.with_createMissingLabels (Value true)))
         Fixtures.autoLabeler) in
  let issues := [Fixtures.auth_crash_issue; Fixtures.docs_issue] in
  let client :=
    Mock.client
      (Fixtures.rejecting_label "security" issues Fixtures.two_labels) in
  let out : Error + AutoLabelResult :=
    inr {| totalIssues := 2; labeledIssues := 2; labelsCreated := 1;
           details := [{| issueNumber := 6; title := "Crash in auth module";
                          appliedLabels := ["bug"] |};
                       {| issueNumber := 3;
                          title := "Documentation needs update";
                          appliedLabels := ["documentation"] |}] |} in
  let t := [Called (GetRepoIssues (Some open)) None;
            Called GetRepoLabels None;
            Called (CreateLabel "security" "0075ca"
                      "Auto-created label for security")
              (Some Fixtures.boom);
            LoggedError (create_failed_msg "security" Fixtures.boom);
            Called (LabelIssue 6 ["bug"]) None;
            Called (CreateLabel "documentation" "0075ca"
                      "Auto-created label for documentation") None;
            Called (LabelIssue 3 ["documentation"]) None] in
  rules this ≠ []
  ∧ fetched_issues client this tt = inr issues
  ∧ fetched_labels client this tt = inr Fixtures.two_labels
  ∧ run client this tt = (out, tt, t)
  ∧ ∀ r, out = inr r → labelsCreated r = length (created t).
Proof.
  intros this issues client out t.
  assert (rules this ≠ []) as Hrules by (vm_compute; discriminate).
  assert (run client this tt = (out, tt, t)) as Hrun
    by (vm_compute; reflexivity).
  split; [exact Hrules|]. split; [reflexivity|]. split; [reflexivity|].
  split; [exact Hrun|].
  destruct (create_failure_tolerated client this tt issues Fixtures.two_labels
              out tt t Hrules eq_refl eq_refl Hrun)
    as (_ & _ & _ & Hok).
  intros r Hr. by apply Hok.
Defined.

(** ** Skipping labelled issues *)

Section Skip.
Context {W : Type} (client : GitHubClient W) (this : GitHubAutoLabeler).
Implicit Types (w : W) (st : gset string * AutoLabelResult).

Lemma processIssue_same_client st i w :
  processIssue (only_unlabelled client) this st i w
  = processIssue client this st i w.
Proof. done. Qed.

Lemma issue_loop_same_client issues st w :
  forOf issues (processIssue (only_unlabelled client) this) st w
  = forOf issues (processIssue client this) st w.
Proof.
  revert st w. induction issues as [|i rest IH]; intros st w; [done|].
  simpl. unfold bind. rewrite processIssue_same_client.
  destruct (processIssue client this st i w) as [[[err|st1] w1] t1]; [done|].
  by rewrite IH.
Qed.

Lemma issue_loop_skips issues st w :
  truthy (get (relabelExistingIssues (config this))) = false →
  forOf (filter (λ i, has_labels i = false) issues) (processIssue client this)
    st w
  = forOf issues (processIssue client this) st w.
Proof.
  intros Hrelabel. revert st w.
  induction issues as [|i rest IH]; intros st w; [done|].
  destruct (has_labels i) eqn:Hlabels.
  - rewrite filter_cons_False by (rewrite Hlabels; done). simpl.
    unfold bind. rewrite processIssue_skip.
    + rewrite IH.
      by destruct (forOf rest (processIssue client this) st w) as [[out w1] t1].
    + unfold skips. by rewrite Hrelabel, Hlabels.
  - rewrite filter_cons_True by done. simpl. unfold bind.
    destruct (processIssue client this st i w) as [[[err|st1] w1] t1]; [done|].
    by rewrite IH.
Qed.

Lemma createIfMissing_retotal n cfg st label w :
  createIfMissing client cfg (st.1, with_total n st.2) label w
  = retotal n (createIfMissing client cfg st label w).
Proof.
  unfold createIfMissing. simpl. destruct (decide (label ∈ st.1)); [done|].
  unfold try_catch, bind, call, ret, logError.
  by destruct (createLabel client label _ _ w) as [[err|[]] w1].
Qed.

Lemma forOf_retotal {A} n (xs : list A)
    (body : gset string * AutoLabelResult → A
            → M W (gset string * AutoLabelResult)) st w :
  (∀ st x w, body (st.1, with_total n st.2) x w = retotal n (body st x w)) →
  forOf xs body (st.1, with_total n st.2) w = retotal n (forOf xs body st w).
Proof.
  intros Hbody. revert st w. induction xs as [|x xs IH]; intros st w; [done|].
  simpl. unfold bind. rewrite Hbody.
  destruct (body st x w) as [[[err|st1] w1] t1]; simpl; [done|].
  rewrite IH.
  by destruct (forOf xs body st1 w1) as [[[err|st2] w2] t2].
Qed.

Lemma applyValid_retotal n i candidates st w :
  applyValid client i candidates (st.1, with_total n st.2) w
  = retotal n (applyValid client i candidates st w).
Proof.
  unfold applyValid. simpl. destruct (0 <? length _); [|done].
  unfold bind, call, ret.
  by destruct (labelIssue client _ _ w) as [[err|[]] w2].
Qed.

Lemma createMissing_retotal n candidates st w :
  createMissing client this candidates (st.1, with_total n st.2) w
  = retotal n (createMissing client this candidates st w).
Proof.
  unfold createMissing.
  destruct (truthy (get (createMissingLabels (config this)))); [|done].
  apply forOf_retotal. intros. apply createIfMissing_retotal.
Qed.

Lemma processIssue_retotal n st i w :
  processIssue client this (st.1, with_total n st.2) i w
  = retotal n (processIssue client this st i w).
Proof.
  unfold processIssue. destruct (skips this i); [done|].
  unfold bind. rewrite createMissing_retotal.
  destruct (createMissing client this _ st w) as [[[err|st1] w1] t1]; simpl;
    [done|].
  rewrite applyValid_retotal.
  by destruct (applyValid client i _ st1 w1) as [[[err|st2] w2] t2].
Qed.

End Skip.

(** C5: with [relabelExistingIssues] not set, an issue that has labels
    is passed over: the loop body leaves the loop variables and the world
    as they are and makes no gateway call, whatever the rules say; and a
    run gives the transcript, the final world and, but for [totalIssues],
    the result that it gives when the gateway leaves the labelled issues
    out of the fetched issues. [totalIssues] counts all fetched issues. *)
Theorem skip_policy {W} (client : GitHubClient W) this (w : W) out w' t :
  truthy (get (relabelExistingIssues (config this))) = false →
  run client this w = (out, w', t) →
  (∀ st i w0,
     has_labels i = true →
     processIssue client this st i w0 = (inr st, w0, []))
  ∧ (∃ out0,
       run (only_unlabelled client) this w = (out0, w', t)
       ∧ forget_total out0 = forget_total out)
  ∧ ∀ r issues,
      out = inr r → fetched_issues client this w = inr issues →
      totalIssues r = length issues.
Proof.
  intros Hrelabel Hrun. split_and!.
  - intros st i w0 Hlabels. apply processIssue_skip. unfold skips.
    by rewrite Hrelabel, Hlabels.
  - revert Hrun. rewrite !run_eq.
    destruct (length (rules this) =? 0); [intros [= <- <- <-]; by eexists|].
    simpl.
    destruct (getRepoIssues client _ w) as [[err|issues] w1];
      [intros [= <- <- <-]; by eexists|].
    destruct (getRepoLabels client w1) as [[err|labs] w2];
      [intros [= <- <- <-]; by eexists|].
    rewrite issue_loop_same_client, issue_loop_skips by done.
    assert (forOf issues (processIssue client this)
              (known_names labs,
               initial_result (filter (λ i, has_labels i = false) issues)) w2
            = retotal (length (filter (λ i, has_labels i = false) issues))
                (forOf issues (processIssue client this)
                   (known_names labs, initial_result issues) w2)) as Heq.
    { apply (forOf_retotal _ issues (processIssue client this)
               (known_names labs, initial_result issues)).
      intros. apply processIssue_retotal. }
    rewrite Heq.
    destruct (forOf issues (processIssue client this)
                (known_names labs, initial_result issues) w2)
      as [[[err|st] w3] t3]; simpl; intros [= <- <- <-]; by eexists.
  - intros r issues Hr Hissues. subst out.
    assert (∃ labs, fetched_labels client this w = inr labs) as [labs Hlabs].
    { unfold fetched_issues, fetched_labels in *.
      destruct (run_cases client this w) as [[_ E]|[(_ & err & w1 & _ & E)|
        [(_ & is' & w1 & err & w2 & _ & _ & E)|
         (_ & is' & w1 & labs & w2 & _ & _ & _ & E1 & E2 & _)]]];
        try (rewrite E in Hrun; done).
      exists labs. by rewrite E1; simpl; rewrite E2. }
    destruct (run_ok_facts client this w labs r w' t Hlabs Hrun)
      as (issues' & Hissues' & _ & Ht & _).
    rewrite Hissues in Hissues'. by injection Hissues' as <-.
Qed.

(** Scenario C of the specification: issue 2 has the label
    "enhancement" and is left alone. *)
Lemma skip_policy_witness :
  let this :=
    addRules [CommonLabelingRules.bug; CommonLabelingRules.enhancement]
      (setConfig
         (Fixtures.only (Fixtures.with_relabelExistingIssues (Value false)))
         Fixtures.autoLabeler) in
  let issues := [Fixtures.crash_issue; Fixtures.dark_mode_issue ["enhancement"]] in
  let w := Fixtures.repo issues Fixtures.two_labels in
  let out : Error + AutoLabelResult :=
    inr {| totalIssues := 2; labeledIssues := 1; labelsCreated := 0;
           details := [{| issueNumber := 1;
                          title := "Bug: Application crashes on startup";
                          appliedLabels := ["bug"] |}] |} in
  let t := [Called (GetRepoIssues (Some open)) None;
            Called GetRepoLabels None;
            Called (LabelIssue 1 ["bug"]) None] in
  truthy (get (relabelExistingIssues (config this))) = false
  ∧ (run Repo.client this w).1.1 = out
  ∧ (run Repo.client this w).2 = t
  ∧ ∃ out0,
      run (only_unlabelled Repo.client) this w
      = (out0, (run Repo.client this w).1.2, t)
      ∧ forget_total out0 = forget_total out.
Proof.
  intros this issues w out t.
  split; [reflexivity|]. split; [vm_compute; reflexivity|].
  split; [vm_compute; reflexivity|].
  refine (proj1 (proj2 (skip_policy Repo.client this w out
                          (run Repo.client this w).1.2 t _ _))).
  - reflexivity.
  - vm_compute. reflexivity.
Defined.

(** ** Running twice in front of the repository *)

Lemma applied_app t1 t2 : applied (t1 ++ t2) = applied t1 ++ applied t2.
Proof. apply omap_app. Qed.

Lemma grows_refl a : grows a a.
Proof. by repeat split. Qed.

Lemma grows_trans a b c : grows a b → grows b c → grows a c.
Proof.
  intros (? & ? & ? & ? & ?) (? & ? & ? & ? & ?).
  split_and!; try congruence. auto.
Qed.

Lemma evolves_refl s : evolves [] s s.
Proof.
  split_and!.
  - apply Forall_Forall2_diag, Forall_forall. intros a _. apply grows_refl.
  - unfold created. simpl. by rewrite app_nil_r.
  - constructor.
  - apply not_elem_of_nil.
  - intros n labels b Hin. by apply elem_of_nil in Hin.
Qed.

Lemma evolves_app t1 t2 s s1 s2 :
  evolves t1 s s1 → evolves t2 s1 s2 → evolves (t1 ++ t2) s s2.
Proof.
  intros (Hg1 & Hn1 & Hr1 & He1 & Hl1) (Hg2 & Hn2 & Hr2 & He2 & Hl2).
  split_and!.
  - eapply Forall2_trans; [|exact Hg1|exact Hg2]. intros a b c. apply grows_trans.
  - by rewrite Hn2, Hn1, created_app, app_assoc.
  - by apply Forall_app.
  - rewrite created_app, elem_of_app. tauto.
  - intros n labels b Hin Hb Hnum. rewrite applied_app in Hin.
    apply elem_of_app in Hin as [Hin|Hin]; [|by eapply Hl2].
    apply list_elem_of_lookup in Hb as [k Hk].
    destruct (Forall2_lookup_r _ _ _ _ _ Hg2 Hk) as (a & Ha & Hgrow).
    destruct Hgrow as (_ & Hnum' & _ & _ & Hkeep). apply Hkeep.
    eapply Hl1; [exact Hin|by eapply list_elem_of_lookup_2|congruence].
Qed.

Lemma or_else_nonempty o : or_else o "0075ca" ≠ "".
Proof. by destruct o as [[|c s]|]. Qed.

Section InFrontOfTheRepository.
Context (this : GitHubAutoLabeler).
Implicit Types (s : Repo.t) (st : gset string * AutoLabelResult).

Lemma Repo_createLabel_cases name color description s :
  color ≠ "" →
  (name = "" ∧ Repo.createLabel name color description s
               = (inl Repo.invalid_label, s))
  ∨ (name ≠ ""
     ∧ ∃ s', Repo.createLabel name color description s = (inr tt, s')
             ∧ Repo.issues s' = Repo.issues s
             ∧ label_name <$> Repo.labels s'
               = (label_name <$> Repo.labels s) ++ [name]).
Proof.
  intros Hcolor. destruct name as [|a name]; [by left|]. right.
  split; [done|]. destruct color as [|b color]; [done|]. simpl.
  eexists. split; [done|]. split; [done|]. simpl. by rewrite fmap_app.
Qed.

Lemma createIfMissing_evolves st label s :
  ∃ st' s' t,
    createIfMissing Repo.client (config this) st label s = (inr st', s', t)
    ∧ evolves t s s'.
Proof.
  unfold createIfMissing. destruct (decide (label ∈ st.1)) as [Hknown|Hknown].
  { computed. apply evolves_refl. }
  unfold try_catch, bind, call, ret, logError. simpl.
  destruct (Repo_createLabel_cases label
              (or_else (get (defaultLabelColor (config this))) "0075ca")
              (description_for label) s (or_else_nonempty _))
    as [[-> E]|(Hname & s' & E & Hi & Hl)]; rewrite E; simpl.
  - computed. split_and!.
    + apply Forall_Forall2_diag, Forall_forall. intros a _. apply grows_refl.
    + unfold created. simpl. by rewrite app_nil_r.
    + apply Forall_cons. split; [intros c [= <-]; by right|].
      apply Forall_cons. split; [by intros c|]. apply Forall_nil_2.
    + apply not_elem_of_nil.
    + intros n labels b Hin. by apply elem_of_nil in Hin.
  - computed. split_and!.
    + rewrite Hi. apply Forall_Forall2_diag, Forall_forall. intros a _.
      apply grows_refl.
    + done.
    + apply Forall_cons. split; [intros c [= <-]; by left|]. apply Forall_nil_2.
    + unfold created. simpl. intros Heq%list_elem_of_singleton. congruence.
    + intros n labels b Hin. by apply elem_of_nil in Hin.
Qed.

Lemma createMissing_loop_evolves candidates st s :
  ∃ st' s' t,
    forOf candidates (createIfMissing Repo.client (config this)) st s
    = (inr st', s', t)
    ∧ evolves t s s'.
Proof.
  revert st s. induction candidates as [|label rest IH]; intros st s; simpl.
  { computed. apply evolves_refl. }
  destruct (createIfMissing_evolves st label s) as (st1 & s1 & t1 & E1 & Hev1).
  destruct (IH st1 s1) as (st2 & s2 & t2 & E2 & Hev2).
  unfold bind. rewrite E1, E2. computed.
  by eapply evolves_app.
Qed.

Lemma createMissing_evolves candidates st s :
  ∃ st' s' t,
    createMissing Repo.client this candidates st s = (inr st', s', t)
    ∧ evolves t s s'.
Proof.
  unfold createMissing.
  destruct (truthy (get (createMissingLabels (config this)))).
  - apply createMissing_loop_evolves.
  - computed. apply evolves_refl.
Qed.

Lemma add_labels_has_labels new i :
  new ≠ [] → has_labels (Repo.add_labels new i) = true.
Proof.
  intros Hnew. unfold has_labels, Repo.add_labels. simpl.
  destruct (issue_labels i) as [[|l old]|]; simpl; try done.
  - by destruct new.
  - by destruct new.
Qed.

Lemma add_labels_to_grows n new a : grows a (Repo.add_labels_to n new a).
Proof.
  unfold Repo.add_labels_to. destruct (decide _); [|apply grows_refl].
  split_and!; try done. simpl. unfold has_labels. simpl.
  by destruct (issue_labels (Repo.content a)) as [[|l old]|].
Qed.

Lemma applyValid_evolves i candidates st st' s s' t :
  applyValid Repo.client i candidates st s = (inr st', s', t) →
  evolves t s s'.
Proof.
  unfold applyValid.
  destruct (filter _ candidates) as [|l valid] eqn:Hvalid; simpl.
  { intros [= <- <- <-]. apply evolves_refl. }
  unfold bind, call, ret. simpl. unfold Repo.labelIssue.
  destruct (decide (issue_number i = 0%Z)) as [Hzero|Hzero]; [done|].
  destruct (decide (issue_number i ∈ _)) as [Hexists|Hexists]; [|done]. simpl.
  intros [= <- <- <-]. split_and!; simpl.
  - apply Forall2_fmap_r, Forall_Forall2_diag, Forall_forall. intros a _.
    apply add_labels_to_grows.
  - unfold created. simpl. by rewrite app_nil_r.
  - apply Forall_cons. split; [by intros c|]. apply Forall_nil_2.
  - apply not_elem_of_nil.
  - intros n labels b [= -> ->]%list_elem_of_singleton
      (a & -> & Ha)%list_elem_of_fmap Hnum.
    unfold Repo.add_labels_to in *.
    destruct (decide (issue_number (Repo.content a) = issue_number i))
      as [Hsame|Hsame]; simpl in *; [|done].
    by apply add_labels_has_labels.
Qed.

Lemma processIssue_evolves i st st' s s' t :
  processIssue Repo.client this st i s = (inr st', s', t) → evolves t s s'.
Proof.
  unfold processIssue. destruct (skips this i).
  { intros [= <- <- <-]. apply evolves_refl. }
  destruct (createMissing_evolves (labelsToAdd (rules this) i) st s)
    as (st1 & s1 & t1 & E1 & Hev1).
  unfold bind. rewrite E1.
  destruct (applyValid Repo.client i _ st1 s1) as [[[err|st2] s2] t2] eqn:E2;
    [done|].
  intros [= <- <- <-]. eapply evolves_app; [done|].
  by eapply applyValid_evolves.
Qed.

Lemma issue_loop_evolves issues st st' s s' t :
  forOf issues (processIssue Repo.client this) st s = (inr st', s', t) →
  evolves t s s'.
Proof.
  revert st s t. induction issues as [|i rest IH]; intros st s t; simpl.
  { intros [= <- <- <-]. apply evolves_refl. }
  unfold bind.
  destruct (processIssue Repo.client this st i s) as [[[err|st1] s1] t1] eqn:E1;
    [done|].
  destruct (forOf rest _ st1 s1) as [[[err|st2] s2] t2] eqn:E2; [done|].
  intros [= <- <- <-]. eapply evolves_app.
  - by eapply processIssue_evolves.
  - by eapply IH.
Qed.

(** The loop over issues that are all skipped or [dead] changes nothing. *)
Lemma createMissing_loop_dead candidates st s :
  (∀ c, c ∈ candidates → (c ∉ st.1) ∧ c = "") →
  ∃ t, forOf candidates (createIfMissing Repo.client (config this)) st s
       = (inr st, s, t)
       ∧ label_calls t = [].
Proof.
  induction candidates as [|label rest IH]; intros Hdead; simpl.
  { by exists []. }
  destruct (Hdead label) as [Hnot ->]; [apply list_elem_of_here|].
  destruct IH as (t2 & E2 & Hl2).
  { intros c Hc. apply Hdead. by apply list_elem_of_further. }
  assert (∃ t1, createIfMissing Repo.client (config this) st "" s
                = (inr st, s, t1) ∧ label_calls t1 = []) as (t1 & E1 & Hl1).
  { unfold createIfMissing. rewrite decide_False by done.
    unfold try_catch, bind, call, ret, logError. simpl. by eexists. }
  unfold bind. rewrite E1, E2. eexists. split; [done|].
  by rewrite label_calls_app, Hl1, Hl2.
Qed.

Lemma processIssue_dead i st s :
  skips this i = true ∨ dead this st.1 i →
  ∃ t, processIssue Repo.client this st i s = (inr st, s, t)
       ∧ label_calls t = [].
Proof.
  intros Hquiet. destruct (skips this i) eqn:Hskip.
  { exists []. split; [by apply processIssue_skip|done]. }
  destruct Hquiet as [?|Hdead]; [done|].
  assert (∃ t, createMissing Repo.client this (labelsToAdd (rules this) i) st s
               = (inr st, s, t) ∧ label_calls t = []) as (t & E & Hl).
  { unfold createMissing.
    destruct (truthy (get (createMissingLabels (config this)))) eqn:Hcm.
    - apply createMissing_loop_dead. intros c Hc.
      destruct (Hdead c Hc) as [? Hempty]. split; [done|]. by apply Hempty.
    - by exists []. }
  exists t. split; [|done].
  unfold processIssue. rewrite Hskip. unfold bind. rewrite E.
  unfold applyValid.
  assert (filter (λ label : string, label ∈ st.1) (labelsToAdd (rules this) i)
          = []) as ->.
  { destruct (filter _ _) as [|l valid] eqn:Hvalid; [done|]. exfalso.
    assert (l ∈ filter (λ label : string, label ∈ st.1)
                  (labelsToAdd (rules this) i)) as Hin
      by (rewrite Hvalid; apply list_elem_of_here).
    apply list_elem_of_filter in Hin as [Hknown Hcand].
    by destruct (Hdead l Hcand). }
  simpl. unfold ret. by rewrite app_nil_r.
Qed.

Lemma issue_loop_dead issues st s :
  (∀ i, i ∈ issues → skips this i = true ∨ dead this st.1 i) →
  ∃ t, forOf issues (processIssue Repo.client this) st s = (inr st, s, t)
       ∧ label_calls t = [].
Proof.
  induction issues as [|i rest IH]; intros Hquiet; simpl.
  { by exists []. }
  destruct (processIssue_dead i st s) as (t1 & E1 & Hl1);
    [apply Hquiet, list_elem_of_here|].
  destruct IH as (t2 & E2 & Hl2).
  { intros j Hj. apply Hquiet. by apply list_elem_of_further. }
  unfold bind. rewrite E1, E2. eexists. split; [done|].
  by rewrite label_calls_app, Hl1, Hl2.
Qed.

End InFrontOfTheRepository.

Lemma labelsToAdd_same_text rs i j :
  issue_title i = issue_title j → issue_body i = issue_body j →
  labelsToAdd rs i = labelsToAdd rs j.
Proof. intros Ht Hb. unfold labelsToAdd, issueText. by rewrite Ht, Hb. Qed.

Lemma applied_elem_of pre n labels post :
  (n, labels) ∈ applied (pre ++ Called (LabelIssue n labels) None :: post).
Proof.
  rewrite applied_app. apply elem_of_app. right. unfold applied. simpl.
  apply list_elem_of_here.
Qed.

(** A creation that was tried and did not succeed, in front of the
    repository, was one of the empty name. *)
Lemma refused_empty t c :
  Forall refusable t → c ∈ create_calls t → c ∉ created t → c = "".
Proof.
  intros Hall (ev & Hev & Hc)%list_elem_of_omap Hnot.
  rewrite Forall_forall in Hall. destruct (Hall ev Hev c Hc) as [Hok|?]; [|done].
  exfalso. apply Hnot. apply list_elem_of_omap. by exists ev.
Qed.

(** After a successful run with [relabelExistingIssues] not set, every
    issue the repository lists is labelled or [dead]. *)
Lemma after_run_quiet this state s0 s1 st' t :
  truthy (get (relabelExistingIssues (config this))) = false →
  forOf (Repo.content <$> filter (λ i, Repo.listed state i = true)
                            (Repo.issues s0))
    (processIssue Repo.client this)
    (known_names (Repo.labels s0),
     initial_result (Repo.content <$> filter (λ i, Repo.listed state i = true)
                                        (Repo.issues s0))) s0
  = (inr st', s1, t) →
  ∀ i, i ∈ Repo.content <$> filter (λ i, Repo.listed state i = true)
                              (Repo.issues s1) →
       skips this i = true ∨ dead this (known_names (Repo.labels s1)) i.
Proof.
  intros Hrelabel Eloop i1 (b & -> & Hb)%list_elem_of_fmap.
  apply list_elem_of_filter in Hb as [Hlisted Hb].
  destruct (has_labels (Repo.content b)) eqn:Hlabels.
  { left. unfold skips. by rewrite Hrelabel, Hlabels. }
  right.
  pose proof (issue_loop_evolves this _ _ _ _ _ _ Eloop)
    as (Hgrows & Hnames & Hrefusable & Hempty & Hlabelled).
  apply list_elem_of_lookup in Hb as [k Hk].
  destruct (Forall2_lookup_r _ _ _ _ _ Hgrows Hk)
    as (a & Ha & Hopen & Hnum & Htitle & Hbody & Hkeep).
  apply list_elem_of_lookup_2 in Ha, Hk.
  assert (Repo.content a
          ∈ Repo.content <$> filter (λ i, Repo.listed state i = true)
                               (Repo.issues s0)) as Hfetched.
  { apply list_elem_of_fmap_2, list_elem_of_filter. split; [|done].
    unfold Repo.listed in *. by rewrite Hopen. }
  assert (skips this (Repo.content a) = false) as Hskip.
  { unfold skips. destruct (has_labels (Repo.content a)); [|by rewrite andb_false_r].
    rewrite Hkeep in Hlabels; done. }
  destruct (issue_loop_processed Repo.client this _ _ _ _ _ _ Eloop)
    as (ds & _ & _ & Hproc).
  destruct (Hproc _ Hfetched Hskip) as (pre & [post Ht] & Htried & Hvalid).
  simpl in *.
  destruct Hvalid as [Hnone|(d & _ & _ & _ & _ & _ & post' & Hcall)].
  2:{ exfalso. rewrite Hcall in Hlabelled.
      rewrite (Hlabelled _ _ b (applied_elem_of _ _ _ _) Hk) in Hlabels;
        [done|by symmetry]. }
  destruct (issue_loop_segment Repo.client this
              (Repo.content <$> filter (λ i, Repo.listed state i = true)
                                  (Repo.issues s0))
              (Repo.content <$> filter (λ i, Repo.listed state i = true)
                                  (Repo.issues s0))
              (known_names (Repo.labels s0),
               initial_result
                 (Repo.content <$> filter (λ i, Repo.listed state i = true)
                                     (Repo.issues s0))) s0)
    as (out & s' & t' & Eloop' & Hfollows & _); [done|].
  rewrite Eloop in Eloop'. injection Eloop' as <- <- <-. simpl in Hfollows.
  intros c Hc.
  rewrite <- (labelsToAdd_same_text _ _ _ Htitle Hbody) in Hc.
  assert (c ∉ known_after (known_names (Repo.labels s0)) pre) as Hunknown.
  { intros Hin. eapply filter_nil_not_elem_of; [exact Hnone| |exact Hc]. done. }
  rewrite elem_of_known_after, elem_of_known_names in Hunknown.
  destruct (truthy (get (createMissingLabels (config this)))) eqn:Hcm.
  - assert (c = "") as ->.
    { destruct (Htried eq_refl c Hc) as [Hin|Hin].
      - exfalso. apply Hunknown.
        by rewrite <- elem_of_known_names, <- elem_of_known_after.
      - apply (refused_empty pre); [|done|tauto].
        rewrite Ht in Hrefusable. by apply Forall_app in Hrefusable as [? _]. }
    split; [|done]. rewrite elem_of_known_names, Hnames, elem_of_app. tauto.
  - split; [|done].
    pose proof (follows_no_create _ _ _ _ Hcm Hfollows) as Hnil.
    apply create_calls_nil_created in Hnil.
    rewrite elem_of_known_names, Hnames, Hnil, app_nil_r. tauto.
Qed.

(** In front of the repository, after a successful run with
    [relabelExistingIssues] not set, every fetched issue without labels
    was processed by that run, and a second run on the repository the
    first one left makes no [labelIssue] call and leaves the repository
    as it is. *)
Lemma twice_in_front_of_repository this s0 issues r1 s1 t1 :
  truthy (get (relabelExistingIssues (config this))) = false →
  fetched_issues Repo.client this s0 = inr issues →
  run Repo.client this s0 = (inr r1, s1, t1) →
  (entry_key <$> details r1) = label_calls t1
  ∧ (issueNumber <$> details r1) `sublist_of` (issue_number <$> issues)
  ∧ (∀ i, i ∈ issues → has_labels i = false →
          processed this (known_names (Repo.labels s0)) t1 (details r1) i)
  ∧ ∃ r2 t2,
      run Repo.client this s1 = (inr r2, s1, t2)
      ∧ labeledIssues r2 = 0
      ∧ details r2 = []
      ∧ label_calls t2 = [].
Proof.
  intros Hrelabel Hissues Hrun.
  destruct (run_ok_facts Repo.client this s0 (Repo.labels s0) r1 s1 t1
              (reflexivity _) Hrun)
    as (issues' & Hissues' & _ & _ & _ & _ & Hk & Hs & _ & Hproc).
  rewrite Hissues in Hissues'. injection Hissues' as <-.
  split_and!; try done.
  { intros i Hi Hlabels. apply Hproc; [done|]. unfold skips.
    by rewrite Hlabels, andb_false_r. }
  unfold fetched_issues in Hissues. simpl in Hissues.
  unfold Repo.getRepoIssues in Hissues. simpl in Hissues.
  injection Hissues as <-.
  rewrite run_eq in Hrun. rewrite run_eq.
  destruct (length (rules this) =? 0); [done|].
  simpl in Hrun. unfold Repo.getRepoIssues, Repo.getRepoLabels in *. simpl in *.
  set (state := get (issueState (config this))) in *.
  destruct (forOf _ (processIssue Repo.client this) _ s0)
    as [[[err|st'] s'] t'] eqn:Eloop; simpl in Hrun; [done|].
  injection Hrun as <- <- <-.
  destruct (issue_loop_dead this
              (Repo.content <$> filter (λ i, Repo.listed state i = true)
                                  (Repo.issues s'))
              (known_names (Repo.labels s'),
               initial_result
                 (Repo.content <$> filter (λ i, Repo.listed state i = true)
                                     (Repo.issues s'))) s')
    as (t2 & E2 & Hl2).
  { by eapply after_run_quiet. }
  rewrite E2. simpl. eexists _, _. split; [done|]. split_and!; try done.
  rewrite app_nil_r. done.
Qed.

(** ** Patterns without the global or sticky flag *)

Lemma test_flagless re text h :
  Stateful.flagged re = false →
  Stateful.test re text h = (Stateful.matches re text, h).
Proof. intros Hre. unfold Stateful.test. by rewrite Hre. Qed.

Lemma collect_flagless rs text s h :
  Forall (λ rule, Stateful.flagged (Stateful.pattern rule) = false) rs →
  Stateful.collect rs text s h = (collect (Stateful.flagless <$> rs) text s, h).
Proof.
  intros Hrs. revert s. induction Hrs as [|rule rs Hrule _ IH]; intros s; simpl.
  { done. }
  rewrite test_flagless by done.
  by destruct (Stateful.matches (Stateful.pattern rule) text).
Qed.

Lemma labelsToAdd_flagless rs i h :
  Forall (λ rule, Stateful.flagged (Stateful.pattern rule) = false) rs →
  Stateful.labelsToAdd rs i h = (labelsToAdd (Stateful.flagless <$> rs) i, h).
Proof. apply collect_flagless. Qed.

Section Lifts.
Context {W : Type}.
Implicit Types (w : W) (h : gmap nat nat).

Lemma lifts_ret {A} (a : A) : Stateful.lifts (W:=W) (ret a) (ret a).
Proof. by intros w h. Qed.

Lemma lifts_throw {A} err : Stateful.lifts (W:=W) (A:=A) (throw err) (throw err).
Proof. by intros w h. Qed.

Lemma lifts_logError msg : Stateful.lifts (W:=W) (logError msg) (logError msg).
Proof. by intros w h. Qed.

Lemma lifts_call {A} c (op : W → (Error + A) * W) :
  Stateful.lifts (call c (Stateful.beside op)) (call c op).
Proof.
  intros w h. unfold call, Stateful.beside, Stateful.aside. simpl.
  by destruct (op w) as [r w1].
Qed.

Lemma lifts_bind {A B} (m' : M (W * gmap nat nat) A) (m : M W A)
    (k' : A → M (W * gmap nat nat) B) (k : A → M W B) :
  Stateful.lifts m' m → (∀ a, Stateful.lifts (k' a) (k a)) →
  Stateful.lifts (bind m' k') (bind m k).
Proof.
  intros Hm Hk w h. unfold bind. rewrite Hm. unfold Stateful.aside.
  destruct (m w) as [[[err|a] w1] t1]; simpl; [done|].
  rewrite Hk. unfold Stateful.aside. by destruct (k a w1) as [[r w2] t2].
Qed.

Lemma lifts_try_catch {A} (m' : M (W * gmap nat nat) A) (m : M W A)
    (k' : Error → M (W * gmap nat nat) A) (k : Error → M W A) :
  Stateful.lifts m' m → (∀ err, Stateful.lifts (k' err) (k err)) →
  Stateful.lifts (try_catch m' k') (try_catch m k).
Proof.
  intros Hm Hk w h. unfold try_catch. rewrite Hm. unfold Stateful.aside.
  destruct (m w) as [[[err|a] w1] t1]; simpl; [|done].
  rewrite Hk. unfold Stateful.aside. by destruct (k err w1) as [[r w2] t2].
Qed.

Lemma lifts_forOf {A S} (xs : list A) (body' : S → A → M (W * gmap nat nat) S)
    (body : S → A → M W S) s :
  (∀ s x, Stateful.lifts (body' s x) (body s x)) →
  Stateful.lifts (forOf xs body' s) (forOf xs body s).
Proof.
  intros Hbody. revert s. induction xs as [|x xs IH]; intros s; simpl.
  - apply lifts_ret.
  - apply lifts_bind; [apply Hbody|apply IH].
Qed.

Variable client : GitHubClient W.

Lemma createIfMissing_lifts cfg st label :
  Stateful.lifts (createIfMissing (Stateful.gateway client) cfg st label)
    (createIfMissing client cfg st label).
Proof.
  unfold createIfMissing. destruct (decide (label ∈ st.1)); [apply lifts_ret|].
  apply lifts_try_catch.
  - apply lifts_bind; [apply lifts_call|]. intros _. apply lifts_ret.
  - intros err. apply lifts_bind; [apply lifts_logError|]. intros _.
    apply lifts_ret.
Qed.

Lemma createMissing_lifts this candidates st :
  Stateful.lifts (createMissing (Stateful.gateway client) this candidates st)
    (createMissing client this candidates st).
Proof.
  unfold createMissing.
  destruct (truthy (get (createMissingLabels (config this))));
    [|apply lifts_ret].
  apply lifts_forOf. intros s x. apply createIfMissing_lifts.
Qed.

Lemma applyValid_lifts issue candidates st :
  Stateful.lifts (applyValid (Stateful.gateway client) issue candidates st)
    (applyValid client issue candidates st).
Proof.
  unfold applyValid. destruct (0 <? length _); [|apply lifts_ret].
  apply lifts_bind; [apply lifts_call|]. intros _. apply lifts_ret.
Qed.

Lemma processIssue_flagless this st issue :
  Forall (λ rule, Stateful.flagged (Stateful.pattern rule) = false)
    (Stateful.rules this) →
  Stateful.lifts (Stateful.processIssue client this st issue)
    (processIssue client (Stateful.forget this) st issue).
Proof.
  intros Hrules. unfold Stateful.processIssue, processIssue.
  destruct (skips (Stateful.forget this) issue); [apply lifts_ret|].
  intros w h. unfold bind at 1. unfold Stateful.evaluate. simpl.
  rewrite labelsToAdd_flagless by done. simpl.
  pose proof (lifts_bind _ _ _ _
    (createMissing_lifts (Stateful.forget this)
       (labelsToAdd (Stateful.flagless <$> Stateful.rules this) issue) st)
    (λ st1, applyValid_lifts issue
       (labelsToAdd (Stateful.flagless <$> Stateful.rules this) issue) st1)
    w h) as ->.
  by destruct (Stateful.aside h _) as [[r x] t].
Qed.

(** On patterns without the flags, the engine with [RegExp] objects is
    the engine of the first part, and it leaves the objects as they are. *)
Lemma run_flagless this :
  Forall (λ rule, Stateful.flagged (Stateful.pattern rule) = false)
    (Stateful.rules this) →
  Stateful.lifts (Stateful.run client this) (run client (Stateful.forget this)).
Proof.
  intros Hrules. unfold Stateful.run, run. simpl. rewrite length_fmap.
  destruct (length (Stateful.rules this) =? 0); [apply lifts_throw|].
  apply lifts_try_catch.
  - apply lifts_bind; [apply lifts_call|]. intros issues.
    apply lifts_bind; [apply lifts_call|]. intros labs.
    apply lifts_bind; [|intros st; apply lifts_ret].
    apply lifts_forOf. intros s x. by apply processIssue_flagless.
  - intros err. apply lifts_bind; [apply lifts_logError|]. intros _.
    apply lifts_throw.
Qed.

End Lifts.

(** C9, as the code has it: for rules whose patterns have neither the
    global nor the sticky flag, in front of the repository, where the
    labels applied show on the issues and a creation fails only for a
    missing name, after a successful run with [relabelExistingIssues] not
    set, every fetched issue without labels was processed by that run,
    which labelled it at most once, and only if some candidate passed the
    filter; and a second run of the same engine on the repository the
    first one left succeeds, makes no [labelIssue] call, leaves the
    repository as it is, and returns [labeledIssues] 0 and no [details]. *)
Theorem second_run_labels_nothing (this : Stateful.t) s0 h0 issues r1 x1 t1 :
  Forall (λ rule, Stateful.flagged (Stateful.pattern rule) = false)
    (Stateful.rules this) →
  truthy (get (relabelExistingIssues (Stateful.config this))) = false →
  fetched_issues Repo.client (Stateful.forget this) s0 = inr issues →
  Stateful.run Repo.client this (s0, h0) = (inr r1, x1, t1) →
  (entry_key <$> details r1) = label_calls t1
  ∧ (issueNumber <$> details r1) `sublist_of` (issue_number <$> issues)
  ∧ (∀ i, i ∈ issues → has_labels i = false →
          processed (Stateful.forget this) (known_names (Repo.labels s0)) t1
            (details r1) i)
  ∧ ∃ r2 t2,
      Stateful.run Repo.client this x1 = (inr r2, x1, t2)
      ∧ labeledIssues r2 = 0
      ∧ details r2 = []
      ∧ label_calls t2 = [].
Proof.
  intros Hflags Hrelabel Hissues Hrun.
  rewrite (run_flagless Repo.client this Hflags s0 h0) in Hrun.
  destruct (run Repo.client (Stateful.forget this) s0) as [[out s1] t] eqn:E1.
  unfold Stateful.aside in Hrun. simpl in Hrun. injection Hrun as -> <- ->.
  destruct (twice_in_front_of_repository (Stateful.forget this) s0 issues r1 s1
              t1 Hrelabel Hissues E1)
    as (Hk & Hs & Hp & r2 & t2 & E2 & Hl & Hd & Hc).
  split_and!; try done.
  exists r2, t2. split_and!; try done.
  rewrite (run_flagless Repo.client this Hflags s1 h0), E2. done.
Qed.

(** Two crash reports are labelled by the first run of an engine with the
    rule [/crash/i] and left alone by the second. *)
Lemma second_run_labels_nothing_witness :
  let first := Stateful.run Repo.client Reruns.crash_labeler
                 (Reruns.crash_reports, ∅) in
  Forall (λ rule, Stateful.flagged (Stateful.pattern rule) = false)
    (Stateful.rules Reruns.crash_labeler)
  ∧ truthy (get (relabelExistingIssues (Stateful.config Reruns.crash_labeler)))
    = false
  ∧ fetched_issues Repo.client (Stateful.forget Reruns.crash_labeler)
      Reruns.crash_reports
    = inr [Stateful.crash_on_start; Stateful.crash_again;
           Fixtures.greeting_issue]
  ∧ label_calls first.2 = [(1%Z, ["bug"]); (2%Z, ["bug"])]
  ∧ ∃ r2 t2,
      Stateful.run Repo.client Reruns.crash_labeler first.1.2
      = (inr r2, first.1.2, t2)
      ∧ labeledIssues r2 = 0
      ∧ details r2 = []
      ∧ label_calls t2 = [].
Proof.
  intros first.
  split; [repeat constructor|]. split; [reflexivity|]. split; [reflexivity|].
  split; [vm_compute; reflexivity|].
  refine (proj2 (proj2 (proj2
    (second_run_labels_nothing Reruns.crash_labeler Reruns.crash_reports ∅
       [Stateful.crash_on_start; Stateful.crash_again; Fixtures.greeting_issue]
       {| totalIssues := 3; labeledIssues := 2; labelsCreated := 0;
          details :=
            [{| issueNumber := 1; title := "Crash on start";
                appliedLabels := ["bug"] |};
             {| issueNumber := 2; title := "Crash";
                appliedLabels := ["bug"] |}] |}
       first.1.2 first.2 _ _ _ _)))).
  - repeat constructor.
  - reflexivity.
  - reflexivity.
  - vm_compute. reflexivity.
Defined.

(** C9 as the specification words it fails, in three ways. An issue that
    no rule matches has no labels before the first run and has been
    labelled zero times after two runs, not once. Where the first
    [createLabel] request fails and the next one succeeds, the first run
    leaves the issue unlabelled and the second run labels it. And with
    the rule [/crash/gi] the first run finds the pattern in issue 1,
    which leaves [lastIndex] at 5, and so not in issue 2, which the
    second run labels. In all three the label applications show on the
    issues and [relabelExistingIssues] is false. *)
Lemma runs_twice_counterexamples :
  (truthy (get (relabelExistingIssues (config Fixtures.skipping_labeler)))
   = false
   ∧ Fixtures.greeting_issue
       ∈ Repo.content <$> Repo.issues Fixtures.four_issues_repo
   ∧ has_labels Fixtures.greeting_issue = false
   ∧ ∃ r1 s1 t1 r2 t2,
       run Repo.client Fixtures.skipping_labeler Fixtures.four_issues_repo
       = (inr r1, s1, t1)
       ∧ run Repo.client Fixtures.skipping_labeler s1 = (inr r2, s1, t2)
       ∧ labeledIssues r1 = 3
       ∧ labeledIssues r2 = 0
       ∧ times_labelled (issue_number Fixtures.greeting_issue) (t1 ++ t2) = 0
       ∧ times_labelled (issue_number Fixtures.greeting_issue) (t1 ++ t2) ≠ 1)
  ∧ (truthy (get (relabelExistingIssues (config Flaky.creating_security)))
     = false
     ∧ ∃ r1 x1 t1 r2 x2 t2,
         run Flaky.client Flaky.creating_security
           (true, Fixtures.repo [Fixtures.security_issue] Fixtures.two_labels)
         = (inr r1, x1, t1)
         ∧ run Flaky.client Flaky.creating_security x1 = (inr r2, x2, t2)
         ∧ labeledIssues r1 = 0
         ∧ label_calls t1 = []
         ∧ labeledIssues r2 = 1
         ∧ details r2 = [{| issueNumber := 1;
                            title := "Security vulnerability found";
                            appliedLabels := ["security"] |}]
         ∧ label_calls t2 = [(1%Z, ["security"])]
         ∧ Repo.content <$> Repo.issues x2.2
           = [{| issue_number := 1;
                 issue_title := "Security vulnerability found";
                 issue_body :=
                   Some "There is a security issue in the authentication system.";
                 issue_labels := Some ["security"] |}])
  ∧ (truthy (get (relabelExistingIssues
                    (Stateful.config Stateful.global_labeler))) = false
     ∧ Stateful.flagged Stateful.crash = true
     ∧ ∃ r1 x1 t1 r2 x2 t2,
         Stateful.run Repo.client Stateful.global_labeler
           (Fixtures.repo [Stateful.crash_on_start; Stateful.crash_again]
              Scenes.only_bug, ∅)
         = (inr r1, x1, t1)
         ∧ Stateful.run Repo.client Stateful.global_labeler x1
           = (inr r2, x2, t2)
         ∧ label_calls t1 = [(1%Z, ["bug"])]
         ∧ labeledIssues r2 = 1
         ∧ details r2 = [{| issueNumber := 2; title := "Crash";
                            appliedLabels := ["bug"] |}]
         ∧ label_calls t2 = [(2%Z, ["bug"])]).
Proof.
  split_and!.
  - reflexivity.
  - vm_compute. do 3 apply list_elem_of_further. apply list_elem_of_here.
  - reflexivity.
  - eexists _, _, _, _, _.
    split; [vm_compute; reflexivity|].
    split; [vm_compute; reflexivity|].
    split; [reflexivity|]. split; [reflexivity|].
    split; [vm_compute; reflexivity|]. vm_compute. discriminate.
  - reflexivity.
  - eexists _, _, _, _, _, _.
    split; [vm_compute; reflexivity|].
    split; [vm_compute; reflexivity|].
    by split_and!.
  - reflexivity.
  - reflexivity.
  - eexists _, _, _, _, _, _.
    split; [vm_compute; reflexivity|].
    split; [vm_compute; reflexivity|].
    by split_and!.
Qed.


(** In front of the repository, the labels a successful run applied are
    labels of the repository when the run ends. *)
Lemma run_evolves this s0 r1 s1 t1 :
  run Repo.client this s0 = (inr r1, s1, t1) → evolves t1 s0 s1.
Proof.
  rewrite run_eq. destruct (length (rules this) =? 0); [done|].
  simpl. unfold Repo.getRepoIssues, Repo.getRepoLabels. simpl.
  destruct (forOf _ (processIssue Repo.client this) _ s0)
    as [[[err|st'] s'] t'] eqn:Eloop; simpl; [done|].
  intros [= <- <- <-]. rewrite app_nil_r.
  apply (evolves_app [_; _] t' s0 s0 s').
  - destruct (evolves_refl s0) as (Hg & Hn & _ & He & Hl).
    split_and!; try done.
    apply Forall_cons. split; [by intros c|].
    apply Forall_cons. split; [by intros c|]. apply Forall_nil_2.
  - by eapply issue_loop_evolves.
Qed.

Corollary applied_labels_in_repository this s0 r1 s1 t1 d l :
  run Repo.client this s0 = (inr r1, s1, t1) →
  d ∈ details r1 → l ∈ appliedLabels d →
  l ∈ label_name <$> Repo.labels s1.
Proof.
  intros Hrun Hd Hl.
  destruct (run_evolves _ _ _ _ _ Hrun) as (_ & Hnames & _).
  destruct (run_ok_facts Repo.client this s0 (Repo.labels s0) r1 s1 t1
              (reflexivity _) Hrun)
    as (issues & _ & _ & _ & _ & _ & _ & _ & Hall & _).
  rewrite Forall_forall in Hall.
  destruct (Hall d Hd) as (i & pre & _ & _ & _ & _ & Hls & post & Ht).
  rewrite Hls in Hl. apply list_elem_of_filter in Hl as [Hl _].
  rewrite Hnames, elem_of_app.
  apply elem_of_known_after in Hl as [Hl|Hl].
  - left. by apply elem_of_known_names.
  - right. rewrite Ht, created_app. apply elem_of_app. by left.
Qed.

(** ** The scenarios of the specification *)

(** Scenario A: three issues, three catalogue rules, all labels exist. *)
Example scenario_A :
  run Repo.client
    (addRules [CommonLabelingRules.bug; CommonLabelingRules.enhancement;
               CommonLabelingRules.documentation] Fixtures.autoLabeler)
    (Fixtures.repo Fixtures.three_issues Fixtures.three_labels)
  = (inr {| totalIssues := 3; labeledIssues := 3; labelsCreated := 0;
            details :=
              [{| issueNumber := 1;
                  title := "Bug: Application crashes on startup";
                  appliedLabels := ["bug"] |};
               {| issueNumber := 2;
                  title := "Feature request: Add dark mode";
                  appliedLabels := ["enhancement"] |};
               {| issueNumber := 3;
                  title := "Documentation needs update";
                  appliedLabels := ["documentation"] |}] |},
     Fixtures.repo
       [{| issue_number := 1;
           issue_title := "Bug: Application crashes on startup";
           issue_body := Some "The application crashes when I try to start it.";
           issue_labels := Some ["bug"] |};
        {| issue_number := 2;
           issue_title := "Feature request: Add dark mode";
           issue_body := Some "Please add dark mode to the application.";
           issue_labels := Some ["enhancement"] |};
        {| issue_number := 3;
           issue_title := "Documentation needs update";
           issue_body := Some "The documentation is outdated.";
           issue_labels := Some ["documentation"] |}]
       Fixtures.three_labels,
     [Called (GetRepoIssues (Some open)) None;
      Called GetRepoLabels None;
      Called (LabelIssue 1 ["bug"]) None;
      Called (LabelIssue 2 ["enhancement"]) None;
      Called (LabelIssue 3 ["documentation"]) None]).
Proof. vm_compute. reflexivity. Qed.

(** The question rule wants the question mark right after the word. *)
Example question_rule :
  rule_pattern CommonLabelingRules.question "How? I see no way" = true
  ∧ rule_pattern CommonLabelingRules.question "How do I do this?" = false
  ∧ rule_pattern CommonLabelingRules.bug "debugging the prefix" = false
  ∧ rule_pattern CommonLabelingRules.bug "a BUG, at last" = true.
Proof. repeat split; vm_compute; reflexivity. Qed.

(** * Further properties of the engine *)

(** ** The shape of transcripts *)

Lemma shaped_app t1 t2 :
  shaped t1 → Forall (λ ev, fatal ev = None) t1 → shaped t2 →
  shaped (t1 ++ t2).
Proof.
  intros H1. induction H1 as [|n c d t H IH|n c d err t H IH|n ls t H IH|n ls err];
    intros Hfatal H2; simpl.
  - done.
  - constructor. apply IH; [|done]. by inversion Hfatal.
  - constructor. apply IH; [|done]. inversion Hfatal as [|? ? _ Hf]; subst.
    by inversion Hf.
  - constructor. apply IH; [|done]. by inversion Hfatal.
  - inversion Hfatal as [|? ? Hf _]; subst. done.
Qed.

Section Shape.
Context {W : Type} (client : GitHubClient W) (this : GitHubAutoLabeler).
Implicit Types (w : W) (st : gset string * AutoLabelResult).

Lemma createIfMissing_shaped st label w :
  ∃ st' w' t,
    createIfMissing client (config this) st label w = (inr st', w', t)
    ∧ shaped t ∧ Forall (λ ev, fatal ev = None) t
    ∧ (never_refuses client → all_created t).
Proof.
  unfold createIfMissing. destruct (decide (label ∈ st.1)) as [Hin|Hin].
  { computed. split_and!; [constructor|constructor|]. intros _. constructor. }
  unfold try_catch, bind, call, ret, logError.
  destruct (createLabel client label _ _ w) as [[err|[]] w1] eqn:E; simpl.
  - computed. split_and!.
    + repeat constructor.
    + by repeat constructor.
    + intros Hnever. specialize (Hnever label
        (or_else (get (defaultLabelColor (config this))) "0075ca")
        (description_for label) w). rewrite E in Hnever. done.
  - computed. split_and!.
    + repeat constructor.
    + by repeat constructor.
    + intros _. by repeat constructor.
Qed.

Lemma createMissing_loop_shaped candidates st w :
  ∃ st' w' t,
    forOf candidates (createIfMissing client (config this)) st w
    = (inr st', w', t)
    ∧ shaped t ∧ Forall (λ ev, fatal ev = None) t
    ∧ (never_refuses client → all_created t).
Proof.
  revert st w. induction candidates as [|label rest IH]; intros st w; simpl.
  { computed. split_and!; [constructor|constructor|]. intros _. constructor. }
  destruct (createIfMissing_shaped st label w)
    as (st1 & w1 & t1 & E1 & S1 & F1 & A1).
  destruct (IH st1 w1) as (st2 & w2 & t2 & E2 & S2 & F2 & A2).
  unfold bind. rewrite E1, E2. computed. split_and!.
  - by apply shaped_app.
  - by apply Forall_app.
  - intros Hnever. apply Forall_app. split; [by apply A1|by apply A2].
Qed.

Lemma createMissing_shaped candidates st w :
  ∃ st' w' t,
    createMissing client this candidates st w = (inr st', w', t)
    ∧ shaped t ∧ Forall (λ ev, fatal ev = None) t
    ∧ (never_refuses client → all_created t).
Proof.
  unfold createMissing.
  destruct (truthy (get (createMissingLabels (config this)))).
  - apply createMissing_loop_shaped.
  - computed. split_and!; [constructor|constructor|]. intros _. constructor.
Qed.

Lemma applyValid_shaped i candidates st w :
  ∃ out w' t,
    applyValid client i candidates st w = (out, w', t)
    ∧ shaped t ∧ all_created t
    ∧ (∀ st', out = inr st' → Forall (λ ev, fatal ev = None) t).
Proof.
  unfold applyValid. destruct (0 <? length _).
  - unfold bind, call, ret.
    destruct (labelIssue client _ _ w) as [[err|[]] w1]; simpl; computed.
    + split_and!; [constructor|by repeat constructor|done].
    + split_and!; [repeat constructor|by repeat constructor|].
      intros _ _. by repeat constructor.
  - computed. split_and!; [constructor|constructor|]. intros _ _. constructor.
Qed.

Lemma processIssue_shaped i st w :
  ∃ out w' t,
    processIssue client this st i w = (out, w', t)
    ∧ shaped t
    ∧ (∀ st', out = inr st' → Forall (λ ev, fatal ev = None) t)
    ∧ (never_refuses client → all_created t).
Proof.
  unfold processIssue. destruct (skips this i).
  { computed. split_and!; [constructor| |]; intros; constructor. }
  destruct (createMissing_shaped (labelsToAdd (rules this) i) st w)
    as (st1 & w1 & t1 & E1 & S1 & F1 & A1).
  destruct (applyValid_shaped i (labelsToAdd (rules this) i) st1 w1)
    as (out & w2 & t2 & E2 & S2 & A2 & F2).
  unfold bind. rewrite E1, E2. computed. split_and!.
  - by apply shaped_app.
  - intros st' ->. apply Forall_app. split; [done|by eapply F2].
  - intros Hnever. apply Forall_app. split; [by apply A1|done].
Qed.

Lemma issue_loop_shaped issues st w :
  ∃ out w' t,
    forOf issues (processIssue client this) st w = (out, w', t)
    ∧ shaped t
    ∧ (never_refuses client → all_created t).
Proof.
  revert st w. induction issues as [|i rest IH]; intros st w; simpl.
  { computed. split; [constructor|]. intros _. constructor. }
  destruct (processIssue_shaped i st w) as (out1 & w1 & t1 & E1 & S1 & F1 & A1).
  unfold bind. rewrite E1. destruct out1 as [err|st1].
  { computed. done. }
  destruct (IH st1 w1) as (out2 & w2 & t2 & E2 & S2 & A2).
  rewrite E2. computed. split.
  - apply shaped_app; [done|by eapply F1|done].
  - intros Hnever. apply Forall_app. split; [by apply A1|by apply A2].
Qed.

End Shape.

(** ** Building an engine *)

Lemma spread_assoc {A} (a b c : Field A) :
  spread (spread a b) c = spread a (spread b c).
Proof. by destruct c. Qed.

Lemma spread_config_assoc a b c :
  spread_config (spread_config a b) c = spread_config a (spread_config b c).
Proof. unfold spread_config. simpl. by rewrite !spread_assoc. Qed.

Lemma spread_idemp {A} (a b : Field A) : spread (spread a b) b = spread a b.
Proof. by destruct b. Qed.

(** X1: building an engine with overrides is building it without and then
    calling [setConfig] with them; two [setConfig] calls in a row are one
    call with the second partial object spread over the first; and
    repeating a [setConfig] call changes nothing. *)
Theorem setConfig_composes overrides p q this :
  new_GitHubAutoLabeler overrides
  = setConfig overrides (new_GitHubAutoLabeler empty_config)
  ∧ setConfig q (setConfig p this) = setConfig (spread_config p q) this
  ∧ setConfig p (setConfig p this) = setConfig p this.
Proof.
  split_and!.
  - unfold new_GitHubAutoLabeler, setConfig. simpl. f_equal.
  - unfold setConfig. simpl. f_equal. apply spread_config_assoc.
  - unfold setConfig, spread_config. simpl. by rewrite !spread_idemp.
Qed.

(** X2: [addRules] adds the rules as so many [addRule] calls would, one
    after the other in the order given. *)
Theorem addRules_one_by_one rs this :
  addRules rs this = foldl (λ engine rule, addRule rule engine) this rs.
Proof.
  revert this. induction rs as [|rule rs IH]; intros [old cfg]; simpl.
  - unfold addRules. simpl. by rewrite app_nil_r.
  - rewrite <- IH. unfold addRules, addRule. simpl. by rewrite <- app_assoc.
Qed.

(** ** Candidates and the rule list *)

Lemma elem_of_matching_labels rs text x :
  x ∈ matching_labels rs text
  ↔ ∃ rule, rule ∈ rs ∧ rule_pattern rule text = true ∧ x ∈ rule_labels rule.
Proof.
  unfold matching_labels. induction rs as [|r rs IH]; simpl.
  { split; [by intros ?%elem_of_nil|]. by intros (? & ?%elem_of_nil & _). }
  destruct (decide (rule_pattern r text = true)) as [Hm|Hm].
  - rewrite filter_cons_True by done. simpl. rewrite elem_of_app, IH. split.
    + intros [Hx|(rule & Hrule & H)].
      * exists r. split; [apply list_elem_of_here|done].
      * exists rule. split; [by apply list_elem_of_further|done].
    + intros (rule & [->|Hrule]%elem_of_cons & Hm' & Hx); [by left|].
      right. by exists rule.
  - rewrite filter_cons_False by done. rewrite IH. split.
    + intros (rule & Hrule & H). exists rule.
      split; [by apply list_elem_of_further|done].
    + intros (rule & [->|Hrule]%elem_of_cons & Hm' & Hx); [done|].
      by exists rule.
Qed.

Lemma elem_of_labelsToAdd rs i x :
  x ∈ labelsToAdd rs i
  ↔ ∃ rule, rule ∈ rs ∧ rule_pattern rule (issueText i) = true
            ∧ x ∈ rule_labels rule.
Proof.
  by rewrite labelsToAdd_spec, elem_of_dedup_first, elem_of_matching_labels.
Qed.

Lemma NoDup_labelsToAdd rs i : NoDup (labelsToAdd rs i).
Proof. rewrite labelsToAdd_spec. apply NoDup_dedup_first. Qed.

(** The order of the rules decides the order of the candidate labels of
    an issue and nothing else. *)
Lemma candidates_rule_order rs rs' i :
  rs ≡ₚ rs' → labelsToAdd rs i ≡ₚ labelsToAdd rs' i.
Proof.
  intros Hperm. apply NoDup_Permutation; try apply NoDup_labelsToAdd.
  intros x. rewrite !elem_of_labelsToAdd.
  split; intros (rule & Hrule & H); exists rule; split; try done.
  - by rewrite <- Hperm.
  - by rewrite Hperm.
Qed.

Lemma matching_labels_app rs rs' text :
  matching_labels (rs ++ rs') text
  = matching_labels rs text ++ matching_labels rs' text.
Proof. unfold matching_labels. by rewrite filter_app, fmap_app, concat_app. Qed.

(** Rules added later never reorder or remove the candidates of the
    rules before them. *)
Lemma candidates_more_rules rs rs' i :
  labelsToAdd (rs ++ rs') i
  = labelsToAdd rs i
      ++ filter (λ l, l ∉ labelsToAdd rs i) (labelsToAdd rs' i).
Proof.
  rewrite !labelsToAdd_spec, matching_labels_app, dedup_first_app. f_equal.
  apply list_filter_iff. intros x. by rewrite elem_of_dedup_first.
Qed.

(** X3: for rules whose patterns have neither the global nor the sticky
    flag, the order of the rules decides the order of the candidate
    labels of an issue and nothing else: two rule lists with the same
    rules give the same labels, and evaluating them leaves every
    [lastIndex] as it is. *)
Theorem labelsToAdd_rule_order rs rs' i h :
  Forall (λ rule, Stateful.flagged (Stateful.pattern rule) = false) rs →
  rs ≡ₚ rs' →
  (Stateful.labelsToAdd rs i h).1 ≡ₚ (Stateful.labelsToAdd rs' i h).1
  ∧ (Stateful.labelsToAdd rs i h).2 = h
  ∧ (Stateful.labelsToAdd rs' i h).2 = h.
Proof.
  intros Hrs Hperm.
  assert (Forall (λ rule, Stateful.flagged (Stateful.pattern rule) = false) rs')
    as Hrs' by by rewrite <- Hperm.
  rewrite !labelsToAdd_flagless by done. simpl. split; [|done].
  apply candidates_rule_order. by apply fmap_Permutation.
Qed.

(** X4: for rules whose patterns have neither the global nor the sticky
    flag, rules added later never reorder or remove the candidates of the
    rules before them: the candidates of an issue under [rs ++ rs'] are
    its candidates under [rs], followed by those of its candidates under
    [rs'] that are new. *)
Theorem labelsToAdd_more_rules rs rs' i h :
  Forall (λ rule, Stateful.flagged (Stateful.pattern rule) = false)
    (rs ++ rs') →
  (Stateful.labelsToAdd (rs ++ rs') i h).1
  = (Stateful.labelsToAdd rs i h).1
      ++ filter (λ l, l ∉ (Stateful.labelsToAdd rs i h).1)
           (Stateful.labelsToAdd rs' i h).1.
Proof.
  intros Hall. pose proof Hall as [Hrs Hrs']%Forall_app.
  rewrite !labelsToAdd_flagless by done. simpl.
  rewrite fmap_app. apply candidates_more_rules.
Qed.

(** Two rules that share one [RegExp] object with the global flag: the
    first of them to be tested finds the pattern and moves [lastIndex],
    and the other does not find it. *)
Example shared_global_pattern :
  let rs := [Stateful.first_rule] in
  let rs' := [Stateful.second_rule] in
  (Stateful.labelsToAdd (rs ++ rs') Stateful.crash_again ∅).1 = ["bug"]
  ∧ (Stateful.labelsToAdd (rs' ++ rs) Stateful.crash_again ∅).1 = ["crash"]
  ∧ (Stateful.labelsToAdd rs Stateful.crash_again ∅).1 = ["bug"]
  ∧ (Stateful.labelsToAdd rs' Stateful.crash_again ∅).1 = ["crash"].
Proof. repeat split; vm_compute; reflexivity. Qed.

(** ** What a shaped transcript holds *)

Lemma fetch_calls_app t1 t2 : fetch_calls (t1 ++ t2) = fetch_calls t1 ++ fetch_calls t2.
Proof. apply omap_app. Qed.

Lemma log_lines_app t1 t2 : log_lines (t1 ++ t2) = log_lines t1 ++ log_lines t2.
Proof. apply omap_app. Qed.

Lemma refused_app t1 t2 : refused (t1 ++ t2) = refused t1 ++ refused t2.
Proof. apply omap_app. Qed.

Lemma shaped_fetch_calls t : shaped t → fetch_calls t = [].
Proof. induction 1; simpl; done. Qed.

Lemma shaped_log_lines t : shaped t → log_lines t = refusal_line <$> refused t.
Proof.
  induction 1 as [|n c d t H IH|n c d err t H IH|n ls t H IH|n ls err];
    try done.
  change (refusal_line (n, err) :: log_lines t
          = refusal_line (n, err) :: (refusal_line <$> refused t)).
  by rewrite IH.
Qed.

Lemma shaped_refused_logged t pre name color description err post :
  shaped t →
  t = pre ++ Called (CreateLabel name color description) (Some err) :: post →
  ∃ post', post = LoggedError (create_failed_msg name err) :: post'.
Proof.
  intros Hs. revert pre.
  induction Hs as [|n c d t H IH|n c d e t H IH|n ls t H IH|n ls e];
    intros pre Heq.
  - by destruct pre.
  - destruct pre as [|ev pre]; simplify_eq/=. by eapply IH.
  - destruct pre as [|ev1 [|ev2 pre]]; simplify_eq/=.
    + by eexists.
    + by eapply IH.
  - destruct pre as [|ev pre]; simplify_eq/=. by eapply IH.
  - destruct pre as [|ev [|? ?]]; simplify_eq/=.
Qed.

Lemma all_created_created t : all_created t → create_calls t = created t.
Proof.
  induction 1 as [|ev t Hev _ IH]; [done|].
  unfold create_calls, created in *. simpl. rewrite Hev. by destruct (created_name ev); [f_equal|].
Qed.

Lemma all_created_prefix pre post : all_created (pre ++ post) → all_created pre.
Proof. intros H. by apply Forall_app in H as [? _]. Qed.

(** ** Every run *)

Section EveryRun.
Context {W : Type} (client : GitHubClient W) (this : GitHubAutoLabeler).
Implicit Types w : W.

(** The transcript of a run with rules: the two fetches, what the issue
    loop does, and the line logged for a thrown error. *)
Lemma run_transcript w out w' t :
  rules this ≠ [] →
  run client this w = (out, w', t) →
  let state := get (issueState (config this)) in
  (∃ err, out = inl err
          ∧ t = [Called (GetRepoIssues state) (Some err);
                 LoggedError (run_failed_msg err)])
  ∨ (∃ err, out = inl err
            ∧ t = [Called (GetRepoIssues state) None;
                   Called GetRepoLabels (Some err);
                   LoggedError (run_failed_msg err)])
  ∨ (∃ issues labs loop,
       fetched_issues client this w = inr issues
       ∧ fetched_labels client this w = inr labs
       ∧ shaped loop
       ∧ (never_refuses client → all_created loop)
       ∧ segment this issues issues (known_names labs, initial_result issues)
           (match out with
            | inl err => inl err
            | inr r => inr (known_after (known_names labs) loop, r)
            end) loop
       ∧ t = Called (GetRepoIssues state) None
               :: Called GetRepoLabels None :: loop ++ failure_log out).
Proof.
  intros Hrules Hrun state. subst state.
  unfold fetched_issues, fetched_labels.
  destruct (run_cases client this w) as [[Hr _]|[(_ & err & w1 & _ & E)|
    [(_ & issues & w1 & err & w2 & _ & _ & E)|
     (_ & issues & w1 & labs & w2 & out' & w'' & loop & E1 & E2 & Eloop & E)]]];
    [done|rewrite E in Hrun; injection Hrun as <- <- <-..].
  - left. by exists err.
  - right. left. by exists err.
  - right. right. exists issues, labs, loop. simpl in E1. rewrite E1.
    simpl. rewrite E2. simpl.
    destruct (issue_loop_shaped client this issues
                (known_names labs, initial_result issues) w2)
      as (o & u & l & El & Hs & Ha).
    rewrite Eloop in El. injection El as <- <- <-.
    destruct (issue_loop_segment client this issues issues
                (known_names labs, initial_result issues) w2)
      as (o & u & l & El & Hseg); [done|].
    rewrite Eloop in El. injection El as <- <- <-.
    split_and!; try done.
    + destruct out' as [err|[known r]]; simpl; [done|].
      pose proof Hseg as (_ & _ & Hst). destruct (Hst _ eq_refl) as [Hk _].
      simpl in Hk. by rewrite <- Hk.
    + by destruct out'.
Qed.

End EveryRun.

(** X6: a run fetches the issues at most once and the labels at most once,
    the issues first; it calls [createLabel] or [labelIssue] only after
    both fetches have returned, and fetches nothing afterwards. *)
Theorem run_fetches_first {W} (client : GitHubClient W) this (w : W)
    out w' t :
  run client this w = (out, w', t) →
  let state := get (issueState (config this)) in
  fetch_calls t `prefix_of` [GetRepoIssues state; GetRepoLabels]
  ∧ (create_calls t ≠ [] ∨ label_calls t ≠ [] →
     ∃ rest, t = Called (GetRepoIssues state) None
                   :: Called GetRepoLabels None :: rest
             ∧ fetch_calls rest = []).
Proof.
  intros Hrun state. subst state.
  destruct (decide (rules this = [])) as [Hnone|Hrules].
  { destruct (run_cases client this w) as [[_ E]|[[? _]|[[? _]|[? _]]]];
      try done.
    rewrite E in Hrun. injection Hrun as <- <- <-.
    split; [by eexists|]. by intros [?|?]. }
  destruct (run_transcript client this w out w' t Hrules Hrun)
    as [(err & -> & ->)|[(err & -> & ->)|
        (issues & labs & loop & _ & _ & Hs & _ & _ & ->)]].
  - split; [by exists [GetRepoLabels]|]. by intros [?|?].
  - split; [by exists []|]. by intros [?|?].
  - assert (fetch_calls (loop ++ failure_log out) = []) as Hnone.
    { rewrite fetch_calls_app, shaped_fetch_calls by done. by destruct out. }
    split.
    + change (fetch_calls (?a :: ?b :: ?l))
        with (GetRepoIssues (get (issueState (config this)))
                :: GetRepoLabels :: fetch_calls l).
      rewrite Hnone. by exists [].
    + intros _. by eexists.
Qed.

Section Calls.
Context {W : Type} (client : GitHubClient W) (this : GitHubAutoLabeler).
Implicit Types w : W.

(** Every event of a run with rules whose fetches answered is one of the
    issue loop, but for the fetches and the last log line. *)
Lemma run_follows w out w' t :
  run client this w = (out, w', t) →
  ∃ issues known, follows (step_ok this issues) known t.
Proof.
  intros Hrun.
  destruct (run_cases client this w) as [[_ E]|[(_ & err & w1 & _ & E)|
    [(_ & issues & w1 & err & w2 & _ & _ & E)|
     (_ & issues & w1 & labs & w2 & out' & w'' & loop & E1 & E2 & Eloop & E)]]];
    rewrite E in Hrun; injection Hrun as <- <- <-.
  - by exists [], ∅.
  - by exists [], ∅.
  - by exists [], ∅.
  - exists issues, (known_names labs).
    destruct (issue_loop_segment client this issues issues
                (known_names labs, initial_result issues) w2)
      as (o & u & l & El & Hf & _); [done|].
    rewrite Eloop in El. injection El as <- <- <-.
    replace (failure_log out') with (failure_log (result_of out'))
      by by destruct out'.
    by apply follows_framed.
Qed.

End Calls.

(** X7: in every run, whether it returns or throws, [labelIssue] is never
    called with an empty list of labels nor with a label twice, and every
    label it is called with is a label of a rule of the engine. *)
Theorem labelIssue_arguments {W} (client : GitHubClient W) this (w : W)
    out w' t n labels failure :
  run client this w = (out, w', t) →
  Called (LabelIssue n labels) failure ∈ t →
  labels ≠ [] ∧ NoDup labels
  ∧ ∀ l, l ∈ labels → ∃ rule, rule ∈ rules this ∧ l ∈ rule_labels rule.
Proof.
  intros Hrun Hin.
  destruct (run_follows client this w out w' t Hrun) as (issues & known & Hf).
  destruct (follows_elem_of _ _ _ _ Hf Hin)
    as (pre & Hne & i & _ & _ & _ & ->).
  split_and!; [done|apply NoDup_filter, NoDup_labelsToAdd|].
  intros l [_ Hl]%list_elem_of_filter.
  apply elem_of_labelsToAdd in Hl as (rule & Hrule & _ & Hl). by exists rule.
Qed.

(** ** Runs that find nothing to apply *)

Section Idle.
Context {W : Type} (client : GitHubClient W) (this : GitHubAutoLabeler).
Implicit Types w : W.

Lemma filter_none {A} (P : A → Prop) `{!∀ x, Decision (P x)} (l : list A) :
  (∀ x, x ∈ l → ¬ P x) → filter P l = [].
Proof.
  induction l as [|x l IH]; intros Hall; [done|].
  rewrite filter_cons_False by (apply Hall; apply list_elem_of_here).
  apply IH. intros y Hy. apply Hall. by apply list_elem_of_further.
Qed.

Lemma processIssue_idle i st w :
  (skips this i = false → nothing_to_apply this st.1 i) →
  processIssue client this st i w = (inr st, w, []).
Proof.
  intros Hidle. unfold processIssue.
  destruct (skips this i); [done|]. specialize (Hidle eq_refl).
  unfold nothing_to_apply, createMissing, applyValid in *. rewrite bind_eq.
  destruct (truthy (get (createMissingLabels (config this)))).
  - rewrite Hidle. simpl. done.
  - unfold ret at 1. simpl. rewrite filter_none by done. done.
Qed.

Lemma issue_loop_idle issues st w :
  (∀ i, i ∈ issues → skips this i = false → nothing_to_apply this st.1 i) →
  forOf issues (processIssue client this) st w = (inr st, w, []).
Proof.
  induction issues as [|i rest IH]; intros Hidle; simpl; [done|].
  rewrite bind_eq, processIssue_idle
    by (apply Hidle; apply list_elem_of_here).
  rewrite IH; [done|]. intros j Hj. apply Hidle. by apply list_elem_of_further.
Qed.

End Idle.

(** X8: a run that finds nothing to apply -- no unskipped issue has a
    candidate label (or, where labels are not created, one that the
    repository has) -- makes the two fetches and no other call, logs
    nothing, and returns the number of fetched issues with zero counts
    and no details. *)
Theorem run_nothing_to_apply {W} (client : GitHubClient W) this (w : W)
    issues labs :
  rules this ≠ [] →
  fetched_issues client this w = inr issues →
  fetched_labels client this w = inr labs →
  (∀ i, i ∈ issues → skips this i = false →
        nothing_to_apply this (known_names labs) i) →
  ∃ w',
    run client this w
    = (inr {| totalIssues := length issues; labeledIssues := 0;
              labelsCreated := 0; details := [] |},
       w',
       [Called (GetRepoIssues (get (issueState (config this)))) None;
        Called GetRepoLabels None]).
Proof.
  intros Hrules Hi Hl Hidle.
  destruct (run_fetched client this w issues labs Hrules Hi Hl)
    as (w2 & out & w' & t & Eloop & Erun).
  rewrite issue_loop_idle in Eloop by done. injection Eloop as <- <- <-.
  exists w2. by rewrite Erun.
Qed.

(** ** Runs where every creation succeeds *)

(** X9: where labels are created and the gateway never refuses to create
    one, a successful run creates exactly the candidates of the unskipped
    issues that the repository lacked, each once, and every unskipped
    issue with a candidate is labelled with all its candidates. *)
Theorem full_union_when_created {W} (client : GitHubClient W) this (w : W)
    labs r w' t :
  truthy (get (createMissingLabels (config this))) = true →
  never_refuses client →
  fetched_labels client this w = inr labs →
  run client this w = (inr r, w', t) →
  ∃ issues,
    fetched_issues client this w = inr issues
    ∧ NoDup (create_calls t)
    ∧ labelsCreated r = length (create_calls t)
    ∧ (∀ l, l ∈ create_calls t
            ↔ (l ∉ known_names labs)
              ∧ ∃ i, i ∈ issues ∧ skips this i = false
                     ∧ l ∈ labelsToAdd (rules this) i)
    ∧ ∀ i, i ∈ issues → skips this i = false →
           labelsToAdd (rules this) i ≠ [] →
           ∃ d, d ∈ details r
                ∧ issueNumber d = issue_number i
                ∧ title d = issue_title i
                ∧ appliedLabels d = labelsToAdd (rules this) i.
Proof.
  intros Hcreate Hnever Hlabs Hrun.
  destruct (run_ok_facts client this w labs r w' t Hlabs Hrun)
    as (issues & Hissues & Hf & _ & Hcount & _ & _ & _ & _ & Hproc).
  assert (all_created t) as Hall.
  { destruct (decide (rules this = [])) as [Hnone|Hrules].
    { destruct (run_cases client this w) as [[_ E]|[[? _]|[[? _]|[? _]]]];
        try done.
      rewrite E in Hrun. done. }
    destruct (run_transcript client this w _ w' t Hrules Hrun)
      as [(? & ? & _)|[(? & ? & _)|
          (? & ? & loop & _ & _ & _ & Ha & _ & ->)]]; try done.
    simpl. rewrite app_nil_r. repeat (apply Forall_cons; split; [done|]).
    by apply Ha. }
  assert (∀ pre post, t = pre ++ post → create_calls pre ⊆ created t) as Hpre.
  { intros pre post ->. rewrite created_app.
    rewrite <- (all_created_created pre) by by eapply all_created_prefix.
    intros x Hx. apply elem_of_app. by left. }
  destruct (follows_created _ _ _ _ Hf) as [Hnd Hnew].
  exists issues. rewrite all_created_created by done. split_and!; try done.
  - intros l. split.
    + intros Hl. split; [by apply Hnew|].
      apply list_elem_of_omap in Hl as (ev & Hev & Hl).
      destruct (follows_elem_of _ _ _ _ Hf Hev) as (pre & Hstep).
      destruct ev as [[| |name c d|] [|]|]; simplify_eq/=.
      destruct Hstep as (_ & _ & _ & _ & i & ? & ? & ?). by exists i.
    + intros (Hl & i & Hi & Hskip & Hc).
      destruct (Hproc i Hi Hskip) as (pre & [post ->] & Hcov & _).
      destruct (Hcov Hcreate l Hc) as [Hk|Hk].
      * apply elem_of_known_after in Hk as [Hk|Hk]; [done|].
        rewrite created_app. apply elem_of_app. by left.
      * by eapply Hpre.
  - intros i Hi Hskip Hne.
    destruct (Hproc i Hi Hskip) as (pre & [post ->] & Hcov & Hent).
    assert (filter (λ l : string, l ∈ known_after (known_names labs) pre)
              (labelsToAdd (rules this) i) = labelsToAdd (rules this) i)
      as Hfull.
    { apply filter_all. intros l Hl.
      destruct (Hcov Hcreate l Hl) as [Hk|Hk]; [done|].
      apply elem_of_known_after. right.
      rewrite <- (all_created_created pre) by by eapply all_created_prefix.
      done. }
    rewrite Hfull in Hent. destruct Hent as [Hent|(d & Hd & He)]; [done|].
    exists d. destruct He as (_ & ? & ? & Happ & _).
    rewrite Hfull in Happ. done.
Qed.

(** X23: the counters of a successful run are bounded: no more issues
    are labelled than were fetched, and no more labels are created than
    the rules of the engine name. *)
Theorem result_bounds {W} (client : GitHubClient W) this (w : W)
    labs r w' t :
  fetched_labels client this w = inr labs →
  run client this w = (inr r, w', t) →
  labeledIssues r ≤ totalIssues r
  ∧ labelsCreated r ≤ length (concat (rule_labels <$> rules this)).
Proof.
  intros Hlabs Hrun.
  destruct (run_ok_facts client this w labs r w' t Hlabs Hrun)
    as (issues & _ & Hf & Htotal & Hcreated & Hlabeled & Hkeys & Hsub & _).
  split.
  - rewrite Htotal, Hlabeled, <- Hkeys, length_fmap.
    apply sublist_length in Hsub. by rewrite !length_fmap in Hsub.
  - rewrite Hcreated. destruct (follows_created _ _ _ _ Hf) as [Hnd _].
    apply submseteq_length, NoDup_submseteq; [done|].
    intros l Hl. apply created_subseteq_create_calls in Hl.
    apply list_elem_of_omap in Hl as (ev & Hev & Hl).
    destruct (follows_elem_of _ _ _ _ Hf Hev) as (pre & Hstep).
    destruct ev as [[| |name c d|] f|]; simplify_eq/=.
    destruct Hstep as (_ & _ & _ & _ & i & _ & _ & Hc).
    apply elem_of_labelsToAdd in Hc as (rule & Hrule & _ & Hc).
    clear -Hrule Hc. induction (rules this) as [|r0 rs IH]; simpl.
    + by apply elem_of_nil in Hrule.
    + apply elem_of_app. apply elem_of_cons in Hrule as [->|Hrule];
        [by left|right; by apply IH].
Qed.

(** ** The catalogue patterns *)

Lemma is_word_char_fold c :
  Regex.is_word_char c
  = let n := Regex.fold_case c in
    ((97 <=? n) && (n <=? 122)) || ((48 <=? n) && (n <=? 57)) || (n =? 95).
Proof. by destruct c as [[] [] [] [] [] [] [] []]. Qed.

Lemma question_mark_fold c :
  (Regex.code c =? 63) = (Regex.fold_case c =? 63).
Proof. by destruct c as [[] [] [] [] [] [] [] []]. Qed.

Lemma boundary_folded r r' :
  case_folded r = case_folded r' → Regex.boundary r = Regex.boundary r'.
Proof.
  destruct r as [|c r], r' as [|c' r']; simpl; try done.
  intros [= Hc _]. by rewrite !is_word_char_fold, Hc.
Qed.

Lemma question_mark_folded r r' :
  case_folded r = case_folded r' →
  Regex.question_mark r = Regex.question_mark r'.
Proof.
  destruct r as [|c r], r' as [|c' r']; simpl; try done.
  intros [= Hc _]. by rewrite !question_mark_fold, Hc.
Qed.

Lemma append_nil s : "" +:+ s = s.
Proof. done. Qed.

Lemma append_cons c s r : String c s +:+ r = String c (s +:+ r).
Proof. done. Qed.

Lemma strip_prefix_ci_spec w s rest :
  Regex.strip_prefix_ci w s = Some rest
  ↔ ∃ x, s = x +:+ rest ∧ case_folded x = case_folded w.
Proof.
  revert s. induction w as [|a w IH]; intros s; simpl.
  - split.
    + intros [= ->]. by exists "".
    + intros ([|? ?] & -> & Hx); by simplify_eq/=.
  - destruct s as [|b s].
    + split; [done|]. intros ([|? ?] & Hs & Hx); simplify_eq/=.
    + destruct (Regex.fold_case a =? Regex.fold_case b) eqn:Hab.
      * apply Nat.eqb_eq in Hab. rewrite IH. split.
        -- intros (x & -> & Hx). exists (String b x).
           rewrite append_cons. simpl. by rewrite Hx, Hab.
        -- intros ([|c x] & Hs & Hx); [done|].
           rewrite append_cons in Hs. simplify_eq/=. by exists x.
      * apply Nat.eqb_neq in Hab. split; [done|].
        intros ([|c x] & Hs & Hx); [done|].
        rewrite append_cons in Hs. simplify_eq/=.
Qed.

Lemma scan_spec ws after prev s :
  Regex.scan ws after prev s = true ↔ occurs ws after prev s.
Proof.
  revert prev. induction s as [|c s IH]; intros prev.
  - simpl. rewrite orb_false_r, andb_true_iff, negb_true_iff,
      existsb_exists. split.
    + intros (-> & w & Hw%list_elem_of_In & Hhit).
      destruct (Regex.strip_prefix_ci w "") as [rest|] eqn:Hs; [|done].
      apply strip_prefix_ci_spec in Hs as (x & Hs & Hx).
      by exists "", x, rest, w.
    + intros ([|? ?] & x & rest & w & Hs & Hb & Hw & Hx & Ha); [|done].
      rewrite append_nil in Hs. simpl in Hb. subst prev.
      split; [done|]. exists w. split; [by apply list_elem_of_In|].
      assert (Regex.strip_prefix_ci w "" = Some rest) as ->; [|done].
      apply strip_prefix_ci_spec. by exists x.
  - simpl. rewrite orb_true_iff, andb_true_iff, negb_true_iff,
      existsb_exists, IH. split.
    + intros [(-> & w & Hw%list_elem_of_In & Hhit)|
              (pre & x & rest & w & -> & ? & ? & ? & ?)].
      * destruct (Regex.strip_prefix_ci w (String c s)) as [rest|] eqn:Hs;
          [|done].
        apply strip_prefix_ci_spec in Hs as (x & Hs & Hx).
        by exists "", x, rest, w.
      * by exists (String c pre), x, rest, w.
    + intros ([|c' pre] & x & rest & w & Hs & Hb & Hw & Hx & Ha).
      * rewrite append_nil in Hs. simpl in Hb. subst prev.
        left. split; [done|]. exists w. split; [by apply list_elem_of_In|].
        assert (Regex.strip_prefix_ci w (x +:+ rest) = Some rest) as Hhit.
        { apply strip_prefix_ci_spec. by exists x. }
        rewrite <- Hs in Hhit. by rewrite Hhit.
      * rewrite append_cons in Hs. injection Hs as <- ->. simpl in Hb.
        right. by exists pre, x, rest, w.
Qed.

Lemma case_folded_app a b :
  case_folded (a +:+ b) = case_folded a ++ case_folded b.
Proof.
  induction a as [|c a IH]; [done|].
  rewrite append_cons. simpl. by rewrite IH.
Qed.

Lemma case_folded_split s l1 l2 :
  case_folded s = l1 ++ l2 →
  ∃ a b, s = a +:+ b ∧ case_folded a = l1 ∧ case_folded b = l2.
Proof.
  revert l1. induction s as [|c s IH]; intros l1 Hs.
  - destruct l1, l2; try done. by exists "", "".
  - destruct l1 as [|n l1]; simpl in Hs.
    + exists "", (String c s). by rewrite <- Hs.
    + injection Hs as <- Hs. destruct (IH _ Hs) as (a & b & -> & <- & <-).
      by exists (String c a), b.
Qed.

Lemma word_before_folded prev pre pre' :
  case_folded pre = case_folded pre' →
  word_before prev pre = word_before prev pre'.
Proof.
  revert prev pre'. induction pre as [|c pre IH]; intros prev [|c' pre'];
    simpl; try done.
  intros [= Hc Hpre]. rewrite !is_word_char_fold, Hc. by apply IH.
Qed.

Lemma occurs_folded ws after prev s s' :
  (∀ r r', case_folded r = case_folded r' → after r = after r') →
  case_folded s = case_folded s' →
  occurs ws after prev s → occurs ws after prev s'.
Proof.
  intros Hafter Hs (pre & x & rest & w & -> & Hb & Hw & Hx & Ha).
  rewrite !case_folded_app in Hs. symmetry in Hs.
  apply case_folded_split in Hs as (pre' & s1 & -> & Hpre & Hs).
  apply case_folded_split in Hs as (x' & rest' & -> & Hx' & Hrest).
  exists pre', x', rest', w. split_and!; try done.
  - by rewrite (word_before_folded _ _ pre).
  - by rewrite Hx'.
  - by rewrite (Hafter _ rest).
Qed.

Lemma scan_folded ws after prev s s' :
  (∀ r r', case_folded r = case_folded r' → after r = after r') →
  case_folded s = case_folded s' →
  Regex.scan ws after prev s = Regex.scan ws after prev s'.
Proof.
  intros Hafter Hs. apply eq_true_iff_eq. rewrite !scan_spec.
  split; by apply occurs_folded.
Qed.

(** X10: the patterns of [CommonLabelingRules] do not look at letter case:
    two texts that differ only in the case of their ASCII letters match
    the same catalogue rules. *)
Theorem catalogue_ignores_case rule s s' :
  rule ∈ common_rules →
  case_folded s = case_folded s' →
  rule_pattern rule s = rule_pattern rule s'.
Proof.
  intros Hrule Hs. unfold common_rules in Hrule.
  repeat (apply elem_of_cons in Hrule as [->|Hrule]);
    [..|by apply elem_of_nil in Hrule]; simpl;
    apply scan_folded; try done;
    auto using boundary_folded, question_mark_folded.
Qed.

(** X11: a pattern [/\b(w1|...|wn)\b/i], as the catalogue rules but
    [question] have ([Regex.words]), matches a text exactly when the
    text holds one of the words, in any letter case, as a whole word:
    neither preceded nor followed by a letter, a digit or an underscore.
    The pattern of [question] ([Regex.words_then_question_mark]) asks for
    a question mark right after the word instead. *)
Theorem catalogue_whole_words ws s :
  (Regex.words ws s = true ↔ occurs ws Regex.boundary false s)
  ∧ (Regex.words_then_question_mark ws s = true
     ↔ occurs ws Regex.question_mark false s).
Proof. split; apply scan_spec. Qed.

(** * Properties of the client and of the label actions *)

(** ** The label methods of the client *)

Section ClientMethods.
Context {W Data : Type} (remote : Client.Request → W → (Error + Data) * W).
Implicit Types (w : W) (this : Client.t) (m : Client.Method).

Lemma logged_eq {A} (msg : Error → string) (body : Client.M A) w :
  Client.logged msg body w =
    match body w with
    | (inl err, w1, t1) =>
        (inl err, w1, t1 ++ [Client.Logged Client.level_error (msg err)])
    | (inr a, w1, t1) => (inr a, w1, t1)
    end.
Proof.
  unfold Client.logged, Client.try_catch.
  by destruct (body w) as [[[err|a] w1] t1].
Qed.

Lemma send_eq r w :
  Client.send remote r w
  = ((remote r w).1, (remote r w).2,
     [Client.Sent r (failure_of (remote r w).1)]).
Proof. unfold Client.send. by destruct (remote r w). Qed.

Lemma client_bind_eq {A B} (m : Client.M (W:=W) A) (k : A → Client.M B) w :
  Client.bind m k w =
    match m w with
    | (inl err, w1, t1) => (inl err, w1, t1)
    | (inr a, w1, t1) => ((k a w1).1.1, (k a w1).1.2, t1 ++ (k a w1).2)
    end.
Proof.
  unfold Client.bind. destruct (m w) as [[[err|a] w1] t1]; [done|].
  by destruct (k a w1) as [[r w2] t2].
Qed.

(** What a label method does, by what it is given and what the outside
    world answers. *)
Lemma invoke_cases this m w :
  let go := Client.invoke remote this m w in
  (Client.octokit this = false
   ∧ go = (inl Client.not_initialized, w,
           [Client.Logged Client.level_error
              (Client.failed_msg m Client.not_initialized)]))
  ∨ (Client.octokit this = true
     ∧ ∃ err, Client.refused_arguments m = Some err
              ∧ go = (inl err, w,
                      [Client.Logged Client.level_error
                         (Client.failed_msg m err)]))
  ∨ (Client.octokit this = true ∧ Client.refused_arguments m = None
     ∧ ∃ sent sent0 r w',
         sent = sent0 ++ [r]
         ∧ Forall Client.answered sent0
         ∧ length sent0 ≤ 1
         ∧ ((∃ q err, r = Client.Sent q (Some err)
                      ∧ go = (inl err, w',
                              sent ++ [Client.Logged Client.level_error
                                         (Client.failed_msg m err)]))
            ∨ (∃ q data, r = Client.Sent q None ∧ go = (inr data, w', sent)))).
Proof.
  intros go. subst go. destruct (Client.octokit this) eqn:Hocto.
  2:{ left. split; [done|].
      destruct m; simpl;
        unfold Client.labelIssue, Client.removeIssueLabel,
          Client.setIssueLabels, Client.getRepoLabels, Client.createLabel;
        rewrite logged_eq, Hocto; done. }
  right. destruct (Client.refused_arguments m) as [err|] eqn:Hrefused.
  { left. split; [done|]. exists err. split; [done|].
    destruct m as [n [ls|]|n l|n [ls|]| |[|? ?] [|? ?] d]; simpl in *;
      try (destruct (n =? 0)%Z eqn:Hn); simpl in *;
      repeat case_bool_decide; simplify_eq/=;
      unfold Client.labelIssue, Client.removeIssueLabel,
        Client.setIssueLabels, Client.getRepoLabels, Client.createLabel;
      rewrite logged_eq, Hocto; simpl; rewrite ?Hn; done. }
  right. split_and!; [done..|].
  destruct m as [n [ls|]|n l|n [ls|]| |[|? ?] [|? ?] d]; simpl in *;
    try (destruct (n =? 0)%Z eqn:Hn); simpl in *;
    repeat case_bool_decide; simplify_eq/=;
    unfold Client.labelIssue, Client.removeIssueLabel,
      Client.setIssueLabels, Client.getRepoLabels, Client.createLabel;
    rewrite logged_eq, Hocto; simpl; rewrite ?Hn.
  - rewrite client_bind_eq, !send_eq.
    destruct (remote _ w) as [[err|data] w1]; simpl.
    + eexists _, [], _, _. split_and!; [done|constructor|simpl; lia|].
      left. by eexists _, _.
    + destruct (remote _ w1) as [[err|data'] w2]; simpl.
      * eexists _, [_], _, _. split_and!; [done| |simpl; lia|].
        { apply Forall_cons. split; [by eexists|constructor]. }
        left. by eexists _, _.
      * eexists _, [_], _, _. split_and!; [done| |simpl; lia|].
        { apply Forall_cons. split; [by eexists|constructor]. }
        right. by eexists _, _.
  - destruct (Client.given l); rewrite send_eq;
      destruct (remote _ w) as [[err|data] w1]; simpl;
      (eexists _, [], _, _; split_and!; [done|constructor|simpl; lia|]);
      [left|right|left|right]; by eexists _, _.
  - rewrite send_eq. destruct (remote _ w) as [[err|data] w1]; simpl;
      (eexists _, [], _, _; split_and!; [done|constructor|simpl; lia|]);
      [left|right]; by eexists _, _.
  - rewrite send_eq. destruct (remote _ w) as [[err|data] w1]; simpl;
      (eexists _, [], _, _; split_and!; [done|constructor|simpl; lia|]);
      [left|right]; by eexists _, _.
  - rewrite send_eq. destruct (remote _ w) as [[err|data] w1]; simpl;
      (eexists _, [], _, _; split_and!; [done|constructor|simpl; lia|]);
      [left|right]; by eexists _, _.
Qed.

End ClientMethods.

Lemma requests_app t1 t2 :
  Client.requests (t1 ++ t2) = Client.requests t1 ++ Client.requests t2.
Proof. apply omap_app. Qed.

Lemma error_lines_app t1 t2 :
  Client.error_lines (t1 ++ t2)
  = Client.error_lines t1 ++ Client.error_lines t2.
Proof. apply omap_app. Qed.

Lemma replies_app t1 t2 :
  Client.replies (t1 ++ t2) = Client.replies t1 ++ Client.replies t2.
Proof. apply omap_app. Qed.

(** X12: a label method of the client ([labelIssue], [removeIssueLabel],
    [setIssueLabels], [getRepoLabels], [createLabel]) sends at most two
    requests and either returns, having sent at least one request, all
    answered, and logged nothing; or throws, having logged one line,
    last, that names the error thrown. The error is the one of the last
    request, the only one that failed, or one raised before any request:
    that the client is not initialised, or that the arguments are
    refused. *)
Theorem label_method_discipline {W Data}
    (remote : Client.Request → W → (Error + Data) * W) this m w out w' t :
  Client.invoke remote this m w = (out, w', t) →
  ∃ sent,
    length sent ≤ 2
    ∧ match out with
      | inr data => t = sent ∧ sent ≠ [] ∧ Forall Client.answered sent
      | inl err =>
          t = sent ++ [Client.Logged Client.level_error
                         (Client.failed_msg m err)]
          ∧ ((sent = []
              ∧ (err = Client.not_initialized
                 ∨ Client.refused_arguments m = Some err))
             ∨ ∃ sent0 q, sent = sent0 ++ [Client.Sent q (Some err)]
                          ∧ Forall Client.answered sent0)
      end.
Proof.
  intros Hgo.
  destruct (invoke_cases remote this m w)
    as [[_ E]|[(_ & err & Hr & E)|
        (_ & _ & sent & sent0 & r & w1 & -> & Hans & Hlen &
         [(q & err & -> & E)|(q & data & -> & E)])]];
    rewrite E in Hgo; injection Hgo as <- <- <-.
  - exists []. split; [simpl; lia|]. split; [done|]. left. by split; [|left].
  - exists []. split; [simpl; lia|]. split; [done|]. left. by split; [|right].
  - eexists. split; [|split; [done|]].
    + rewrite length_app. simpl. lia.
    + right. by exists sent0, q.
  - eexists. split; [|split_and!; [done| |]].
    + rewrite length_app. simpl. lia.
    + by destruct sent0.
    + apply Forall_app. split; [done|].
      apply Forall_cons. split; [by eexists|constructor].
Qed.

(** X13: a label method checks before it sends: on a client that is not
    initialised, or with arguments that are refused -- no issue number,
    labels that are not an array, an empty label name or colour -- it
    sends no request and leaves the world as it is; in every other case
    it sends one. The missing initialisation is reported first. *)
Theorem label_method_checks_first {W Data}
    (remote : Client.Request → W → (Error + Data) * W) this m w out w' t :
  Client.invoke remote this m w = (out, w', t) →
  (Client.requests t = []
   ↔ Client.octokit this = false ∨ is_Some (Client.refused_arguments m))
  ∧ (Client.requests t = [] → w' = w)
  ∧ (Client.octokit this = false → out = inl Client.not_initialized)
  ∧ (Client.octokit this = true →
     ∀ err, Client.refused_arguments m = Some err → out = inl err).
Proof.
  intros Hgo.
  destruct (invoke_cases remote this m w)
    as [[Ho E]|[(Ho & err & Hr & E)|
        (Ho & Hr & sent & sent0 & r & w1 & -> & Hans & Hlen &
         [(q & err & -> & E)|(q & data & -> & E)])]];
    rewrite E in Hgo; injection Hgo as <- <- <-.
  - split_and!; try done; [by split; [left|]|by rewrite Ho].
  - rewrite Hr. split_and!; try done.
    + split; [by right|done].
    + by rewrite Ho.
    + by intros _ ? [= <-].
  - rewrite !requests_app, Hr, Ho. simpl. rewrite app_nil_r.
    split_and!; try done.
    + split; [by intros [? [=]]%app_eq_nil|]. by intros [?|[? ?]].
    + by intros [? [=]]%app_eq_nil.
  - rewrite !requests_app, Hr, Ho. simpl. split_and!; try done.
    + split; [by intros [? [=]]%app_eq_nil|]. by intros [?|[? ?]].
    + by intros [? [=]]%app_eq_nil.
Qed.

Section LabelMethods.
Context {W Data : Type} (remote : Client.Request → W → (Error + Data) * W).
Implicit Types (w : W) (this : Client.t).

(** X14: [labelIssue] asks for the issue before it adds the labels: it
    sends nothing but the lookup and, after the issue has been found,
    the labels; when the lookup fails its error is the one thrown, and
    nothing is added. *)
Theorem labelIssue_looks_up_first this n labels w out w' t :
  Client.labelIssue remote this n (Some labels) w = (out, w', t) →
  let owner := Client.owner (Client.config this) in
  let repo := Client.repo (Client.config this) in
  (∀ pre q f post,
     t = pre ++ Client.Sent q f :: post →
     (q = Client.issues_get owner repo n ∧ pre = [])
     ∨ (q = Client.issues_addLabels owner repo n labels
        ∧ pre = [Client.Sent (Client.issues_get owner repo n) None]))
  ∧ (∀ err w1,
       Client.octokit this = true → n ≠ 0%Z →
       remote (Client.issues_get owner repo n) w = (inl err, w1) →
       out = inl err ∧ w' = w1
       ∧ t = [Client.Sent (Client.issues_get owner repo n) (Some err);
              Client.Logged Client.level_error
                (Client.label_failed_msg n err)]).
Proof.
  intros Hgo owner repo. subst owner repo.
  unfold Client.labelIssue in Hgo. rewrite logged_eq in Hgo.
  destruct (Client.octokit this); simpl in Hgo.
  2:{ injection Hgo as <- <- <-. split; [|done].
      intros [|? [|? ?]] *; intros; simplify_eq/=. }
  destruct (n =? 0)%Z eqn:Hn; simpl in Hgo.
  { injection Hgo as <- <- <-. apply Z.eqb_eq in Hn. split; [|done].
    intros [|? [|? ?]] *; intros; simplify_eq/=. }
  rewrite client_bind_eq, !send_eq in Hgo.
  destruct (remote _ w) as [[err|data] w1] eqn:E1; simpl in Hgo.
  { injection Hgo as <- <- <-. split.
    - intros [|? [|? [|? ?]]] *; intros; simplify_eq/=. by left.
    - by intros ? ? _ _ [= <- <-]. }
  split; [|by intros].
  destruct (remote _ w1) as [[err|data'] w2] eqn:E2; simpl in Hgo;
    injection Hgo as <- <- <-.
  - intros [|? [|? [|? [|? ?]]]] *; intros; simplify_eq/=;
      [by left|by right].
  - intros [|? [|? [|? ?]]] *; intros; simplify_eq/=; [by left|by right].
Qed.

(** X15: [removeIssueLabel] without a label, or with the empty string as
    label, removes all the labels of the issue; with a label it removes
    that label of the issue and no other. *)
Theorem removeIssueLabel_without_label this n w :
  let owner := Client.owner (Client.config this) in
  let repo := Client.repo (Client.config this) in
  Client.removeIssueLabel remote this n (Some "") w
  = Client.removeIssueLabel remote this n None w
  ∧ (∀ q f, Client.Sent q f ∈ (Client.removeIssueLabel remote this n None w).2 →
            q = Client.issues_removeAllLabels owner repo n)
  ∧ (∀ name q f,
       name ≠ "" →
       Client.Sent q f
         ∈ (Client.removeIssueLabel remote this n (Some name) w).2 →
       q = Client.issues_removeLabel owner repo n name).
Proof.
  intros owner repo. subst owner repo. split; [done|].
  unfold Client.removeIssueLabel. split.
  - intros q f. rewrite logged_eq.
    destruct (Client.octokit this); simpl;
      [|by intros [[=]|?%elem_of_nil]%elem_of_cons].
    destruct (n =? 0)%Z; simpl;
      [by intros [[=]|?%elem_of_nil]%elem_of_cons|].
    rewrite send_eq. destruct (remote _ w) as [[err|data] w1]; simpl.
    + intros [[= <- _]|[[=]|?%elem_of_nil]%elem_of_cons]%elem_of_cons; done.
    + intros [[= <- _]|?%elem_of_nil]%elem_of_cons; done.
  - intros [|c name] q f Hname; [done|]. rewrite logged_eq.
    destruct (Client.octokit this); simpl;
      [|by intros [[=]|?%elem_of_nil]%elem_of_cons].
    destruct (n =? 0)%Z; simpl;
      [by intros [[=]|?%elem_of_nil]%elem_of_cons|].
    rewrite send_eq. destruct (remote _ w) as [[err|data] w1]; simpl.
    + intros [[= <- _]|[[=]|?%elem_of_nil]%elem_of_cons]%elem_of_cons; done.
    + intros [[= <- _]|?%elem_of_nil]%elem_of_cons; done.
Qed.

(** X16: the one request of [createLabel] carries the name as given, the
    colour without its leading [#] if it has one -- the rest is sent as
    it is, be it empty -- and the description, the empty string for a
    missing one. No request is sent for an empty name or colour. *)
Theorem createLabel_request this name color description w q f :
  Client.Sent q f ∈ (Client.createLabel remote this name color description w).2 →
  name ≠ "" ∧ color ≠ ""
  ∧ ∃ sent_color,
      q = Client.issues_createLabel (Client.owner (Client.config this))
            (Client.repo (Client.config this)) name sent_color
            (default "" description)
      ∧ (color = "#" +:+ sent_color
         ∨ (color = sent_color ∧ ∀ rest, color ≠ "#" +:+ rest)).
Proof.
  unfold Client.createLabel. rewrite logged_eq.
  destruct (Client.octokit this); simpl;
    [|by intros [[=]|?%elem_of_nil]%elem_of_cons].
  destruct name as [|a name], color as [|c color];
    try by intros [[=]|?%elem_of_nil]%elem_of_cons.
  rewrite send_eq.
  assert (or_else description "" = default "" description) as ->
    by by destruct description as [[|? ?]|].
  assert (∃ sent_color,
            Repo.strip_hash (String c color) = sent_color
            ∧ (String c color = "#" +:+ sent_color
               ∨ (String c color = sent_color
                  ∧ ∀ rest, String c color ≠ "#" +:+ rest)))
    as (sent_color & -> & Hcolor).
  { unfold Repo.strip_hash.
    destruct (Ascii.nat_of_ascii c =? 35) eqn:Hc.
    - exists color. split; [done|]. left.
      apply Nat.eqb_eq in Hc.
      apply (f_equal Ascii.ascii_of_nat) in Hc.
      rewrite Ascii.ascii_nat_embedding in Hc. by rewrite Hc.
    - eexists. split; [done|]. right. split; [done|].
      intros rest [= -> _]. done. }
  destruct (remote _ w) as [[err|data] w1]; simpl.
  - intros [[= -> _]|[[=]|[]%elem_of_nil]%elem_of_cons]%elem_of_cons.
    split_and!; [done..|]. by exists sent_color.
  - intros [[= -> _]|[]%elem_of_nil]%elem_of_cons.
    split_and!; [done..|]. by exists sent_color.
Qed.

End LabelMethods.

(** ** Cloning *)

Section Clone.
Context {W Data : Type} (remote : Client.Request → W → (Error + Data) * W).
Implicit Types (w : W) (this : Client.t).

Lemma cloneLoop_step this n w :
  Client.cloneLoop remote this (S (S n)) w =
    match remote (Client.git_clone (Client.repositoryUrl (Client.config this))
                    (Client.repoPath this)) w with
    | (inl err, w1) =>
        let rest := Client.cloneLoop remote this (S n) w1 in
        (rest.1.1, rest.1.2, Client.failed_clone this err ++ rest.2)
    | (inr _, w1) =>
        (inr tt, w1,
         [Client.Sent
            (Client.git_clone (Client.repositoryUrl (Client.config this))
               (Client.repoPath this)) None;
          Client.Logged Client.level_log
            (Client.cloned_msg (Client.repositoryUrl (Client.config this)))])
    end.
Proof.
  change (Client.cloneLoop remote this (S (S n)) w)
    with (Client.bind
            (Client.try_catch
               (Client.bind
                  (Client.send remote
                     (Client.git_clone
                        (Client.repositoryUrl (Client.config this))
                        (Client.repoPath this)))
                  (λ _, Client.bind
                          (Client.log Client.level_log
                             (Client.cloned_msg
                                (Client.repositoryUrl (Client.config this))))
                          (λ _, Client.ret true)))
               (λ _, Client.bind
                       (Client.log Client.level_error
                          (Client.retrying_msg
                             (Client.repositoryUrl (Client.config this))))
                       (λ _, Client.ret false)))
            (λ cloned : bool,
               if cloned then Client.ret tt
               else Client.cloneLoop remote this (S n)) w).
  rewrite client_bind_eq. unfold Client.try_catch.
  rewrite client_bind_eq, send_eq.
  by destruct (remote _ w) as [[err|data] w1].
Qed.

Lemma cloneLoop_cases this n w :
  let url := Client.repositoryUrl (Client.config this) in
  let clone := Client.git_clone url (Client.repoPath this) in
  ∃ errs w',
    (length errs ≤ n
     ∧ Client.cloneLoop remote this (S n) w
       = (inr tt, w',
          Client.failed_clones this errs
            ++ [Client.Sent clone None;
                Client.Logged Client.level_log (Client.cloned_msg url)]))
    ∨ (length errs = S n
       ∧ Client.cloneLoop remote this (S n) w
         = (inl (Client.unable_to_clone url), w',
            Client.failed_clones this errs)).
Proof.
  intros url clone. subst url clone. revert w.
  induction n as [|n IH]; intros w.
  - simpl. rewrite client_bind_eq. unfold Client.try_catch.
    rewrite client_bind_eq, send_eq.
    destruct (remote _ w) as [[err|data] w1]; simpl.
    + exists [err], w1. right. by split.
    + exists [], w1. left. split; [simpl; lia|done].
  - rewrite cloneLoop_step.
    destruct (remote _ w) as [[err|data] w1].
    + destruct (IH w1) as (errs & w' & [[Hlen E]|[Hlen E]]); rewrite E.
      * exists (err :: errs), w'. left. split; [simpl; lia|done].
      * exists (err :: errs), w'. right. split; [simpl; lia|done].
    + exists [], w1. left. split; [simpl; lia|done].
Qed.

End Clone.

(** X17: [cloneRepository] tries to clone at most three times and stops
    at the first clone that succeeds, which it logs. Every failure is
    logged; after the third one it throws an error that names the
    repository and the three retries, not the errors of the clones. It
    never leaves its loop otherwise. *)
Theorem cloneRepository_retries {W Data}
    (remote : Client.Request → W → (Error + Data) * W) this w :
  let url := Client.repositoryUrl (Client.config this) in
  let clone := Client.git_clone url (Client.repoPath this) in
  ∃ errs w',
    (length errs < 3
     ∧ Client.cloneRepository remote this w
       = (inr tt, w',
          Client.failed_clones this errs
            ++ [Client.Sent clone None;
                Client.Logged Client.level_log (Client.cloned_msg url)]))
    ∨ (length errs = 3
       ∧ Client.cloneRepository remote this w
         = (inl (Client.unable_to_clone url), w',
            Client.failed_clones this errs)).
Proof.
  intros url clone.
  destruct (cloneLoop_cases remote this 2 w) as (errs & w' & [[Hlen E]|[Hlen E]]);
    exists errs, w'; [left|right]; (split; [lia|done]).
Qed.

(** ** The label actions *)

Section Handlers.
Context {W Data : Type} (remote : Client.Request → W → (Error + Data) * W).
Context (callback : string → W → (Error + unit) * W).
Context (labels_of : Data → list Label).
Implicit Types (w : W) (a : Client.Action) (state : Client.State).

Lemma reply_eq text w :
  Client.reply callback text w
  = ((callback text w).1, (callback text w).2,
     [Client.Replied text (failure_of (callback text w).1)]).
Proof. unfold Client.reply. by destruct (callback text w). Qed.

(** The [try] block of a handler, by the method it calls. *)
Lemma body_eq a runtime state w :
  Client.body remote callback labels_of a runtime state w =
    match Client.method_of a state with
    | Some m =>
        Client.bind (Client.getGitHubClient runtime)
          (λ client,
             Client.bind (Client.invoke remote client m)
               (λ data,
                  Client.bind
                    (Client.reply callback (Client.done_text labels_of m data))
                    (λ _, Client.ret true))) w
    | None =>
        Client.bind (Client.reply callback (Client.need_text a))
          (λ _, Client.ret false) w
    end.
Proof.
  destruct a; simpl;
    unfold Client.createGitHubLabel_body, Client.labelGitHubIssue_body,
      Client.setGitHubIssueLabels_body, Client.removeGitHubIssueLabel_body,
      Client.getGitHubRepoLabels_body.
  - by destruct (Client.given (Client.state_name state)),
      (Client.given (Client.state_color state)).
  - by destruct (Client.given_number (Client.state_issueNumber state)),
      (Client.state_labels state) as [[|l ls]|].
  - destruct (Client.given_number (Client.state_issueNumber state)),
      (Client.state_labels state) as [labels|]; try done.
    simpl. by destruct (length labels =? 0).
  - destruct (Client.given_number (Client.state_issueNumber state)) as [n|];
      [|done].
    rewrite !client_bind_eq. destruct runtime as [client|]; simpl; [|done].
    rewrite !client_bind_eq.
    destruct (Client.given (Client.state_label state)) as [label|] eqn:Hl;
      simpl; rewrite !client_bind_eq;
      destruct (Client.removeIssueLabel remote client n _ w)
        as [[[err|data] w1] mt]; simpl; try done;
      rewrite !client_bind_eq, !reply_eq;
      destruct (callback _ w1) as [[e|[]] w2]; simpl;
      by rewrite ?app_nil_r, <- ?app_assoc.
  - rewrite !client_bind_eq. destruct runtime as [client|]; simpl; [|done].
    rewrite !client_bind_eq.
    destruct (Client.getRepoLabels remote client w) as [[[err|data] w1] mt];
      simpl; [done|].
    by destruct (length (labels_of data) =? 0).
Qed.

(** What a handler does, by the method it calls, what the method does
    and what the callback answers. *)
Lemma handler_cases a runtime state w :
  let go := Client.handler remote callback labels_of a runtime state w in
  let report err w1 mt :=
    let r := callback (Client.sorry_prefix a +:+ message err) w1 in
    (Client.after_report (failure_of r.1), r.2,
     mt ++ Client.failure_report a err (failure_of r.1)) in
  match Client.method_of a state with
  | None =>
      match callback (Client.need_text a) w with
      | (inr _, w1) =>
          go = (inr false, w1, [Client.Replied (Client.need_text a) None])
      | (inl e, w1) =>
          go = report e w1 [Client.Replied (Client.need_text a) (Some e)]
      end
  | Some m =>
      match runtime with
      | None => go = report Client.client_not_available w []
      | Some client =>
          match Client.invoke remote client m w with
          | (inl err, w1, mt) => go = report err w1 mt
          | (inr data, w1, mt) =>
              let text := Client.done_text labels_of m data in
              match callback text w1 with
              | (inr _, w2) =>
                  go = (inr true, w2, mt ++ [Client.Replied text None])
              | (inl e, w2) =>
                  go = report e w2 (mt ++ [Client.Replied text (Some e)])
              end
          end
      end
  end.
Proof.
  intros go report. subst go report.
  unfold Client.handler, Client.try_catch. rewrite body_eq.
  destruct (Client.method_of a state) as [m|].
  - destruct runtime as [client|]; simpl.
    + rewrite !client_bind_eq. simpl. rewrite !client_bind_eq.
      destruct (Client.invoke remote client m w) as [[[err|data] w1] mt];
        simpl.
      * rewrite !client_bind_eq. simpl. rewrite !client_bind_eq, reply_eq.
        destruct (callback _ w1) as [[e|[]] w2]; simpl;
          by rewrite ?app_nil_r, <- ?app_assoc.
      * rewrite !client_bind_eq, !reply_eq.
        destruct (callback _ w1) as [[e|[]] w2]; simpl.
        -- rewrite !client_bind_eq. simpl. rewrite !client_bind_eq, reply_eq.
           destruct (callback _ w2) as [[e'|[]] w3]; simpl;
             by rewrite ?app_nil_r, <- ?app_assoc.
        -- by rewrite ?app_nil_r.
    + rewrite !client_bind_eq. simpl. rewrite !client_bind_eq, reply_eq.
      destruct (callback _ w) as [[e|[]] w2]; simpl;
        by rewrite ?app_nil_r, <- ?app_assoc.
  - rewrite client_bind_eq, reply_eq.
    destruct (callback _ w) as [[e|[]] w1]; simpl; [|done].
    rewrite !client_bind_eq. simpl. rewrite !client_bind_eq, reply_eq.
    destruct (callback _ w1) as [[e'|[]] w2]; simpl;
      by rewrite ?app_nil_r, <- ?app_assoc.
Qed.

(** A label method does not call the callback, and its transcript is
    made of requests and, last, of at most one error line. *)
Lemma invoke_transcript this m w out w' t :
  Client.invoke remote this m w = (out, w', t) →
  Client.replies t = []
  ∧ match out with
    | inr _ =>
        Client.error_lines t = [] ∧ Client.requests t ≠ []
        ∧ Forall Client.answered t
    | inl err => Client.error_lines t = [Client.failed_msg m err]
    end.
Proof.
  intros Hgo.
  assert (∀ l, Forall Client.answered l →
               Client.replies l = [] ∧ Client.error_lines l = []) as Hquiet.
  { induction 1 as [|ev l [r ->] _ [IH1 IH2]]; [done|]. by split. }
  destruct (invoke_cases remote this m w)
    as [[_ E]|[(_ & err & Hr & E)|
        (_ & _ & sent & sent0 & r & w1 & -> & Hans & Hlen &
         [(q & err & -> & E)|(q & data & -> & E)])]];
    rewrite E in Hgo; injection Hgo as <- <- <-; try done.
  - destruct (Hquiet _ Hans) as [H1 H2].
    rewrite !replies_app, !error_lines_app, H1, H2. done.
  - destruct (Hquiet _ Hans) as [H1 H2].
    rewrite !replies_app, !error_lines_app, !requests_app, H1, H2.
    split_and!; try done.
    + by intros [? [=]]%app_eq_nil.
    + apply Forall_app. split; [done|].
      apply Forall_cons. split; [by eexists|constructor].
Qed.

End Handlers.

(** ** The logger of a run *)

Lemma logger_app t1 t2 : logger (t1 ++ t2) = logger t1 ++ logger t2.
Proof. apply bind_app. Qed.

Lemma shaped_logger t :
  shaped t → logger t = (refused t ≫= twice) ++ (t ≫= fatal_lines).
Proof.
  induction 1 as [|n c d t H IH|n c d err t H IH|n ls t H IH|n ls err];
    try done.
  change (refusal_line (n, err) :: refusal_line (n, err) :: logger t
          = refusal_line (n, err) :: refusal_line (n, err)
              :: (refused t ≫= twice) ++ (t ≫= fatal_lines)).
  by rewrite IH.
Qed.

(** X5: of its own, a run with rules gives the error logger one line for
    every [createLabel] call that threw, right after that call and naming
    the label and the error, then one line for the error it throws
    itself, if any, and nothing else. The gateway logs for itself: a
    label method of [GitHubClient] gives the same logger one line when it
    throws and none when it returns, and the line of [createLabel] is
    the line that [run] gives next. So with [GitHubClient] as the gateway
    the logger holds two equal lines for every creation that threw, then
    the line of the method whose error [run] throws, then the line of
    [run] for it. *)
Theorem run_log_discipline {W} (client : GitHubClient W) this (w : W)
    out w' t :
  rules this ≠ [] →
  run client this w = (out, w', t) →
  log_lines t = (refusal_line <$> refused t) ++ log_lines (failure_log out)
  ∧ (∀ pre name color description err post,
       t = pre ++ Called (CreateLabel name color description) (Some err) :: post →
       ∃ post', post = LoggedError (create_failed_msg name err) :: post')
  ∧ (∀ V Data (remote : Client.Request → V → (Error + Data) * V) gateway m v
       result v' lines,
       Client.invoke remote gateway m v = (result, v', lines) →
       Client.error_lines lines
       = match result with
         | inl err => [Client.failed_msg m err]
         | inr _ => []
         end)
  ∧ (∀ name color description err,
       Client.failed_msg (Client.m_createLabel name color description) err
       = refusal_line (name, err))
  ∧ logger t
    = (refused t ≫= twice) ++ (t ≫= fatal_lines)
        ++ log_lines (failure_log out).
Proof.
  intros Hrules Hrun.
  assert (log_lines t = (refusal_line <$> refused t)
                          ++ log_lines (failure_log out)
          ∧ (∀ pre name color description err post,
               t = pre ++ Called (CreateLabel name color description) (Some err)
                            :: post →
               ∃ post',
                 post = LoggedError (create_failed_msg name err) :: post')
          ∧ logger t
            = (refused t ≫= twice) ++ (t ≫= fatal_lines)
                ++ log_lines (failure_log out))
    as (Hlines & Hnext & Hlogger).
  { destruct (run_transcript client this w out w' t Hrules Hrun)
      as [(err & -> & ->)|[(err & -> & ->)|
          (issues & labs & loop & _ & _ & Hs & _ & _ & ->)]].
    - split_and!; [done| |done].
      intros [|? [|? [|? ?]]] *; intros; simplify_eq/=.
    - split_and!; [done| |done].
      intros [|? [|? [|? [|? ?]]]] *; intros; simplify_eq/=.
    - split_and!.
      + change (log_lines (?a :: ?b :: ?l)) with (log_lines l).
        change (refused (?a :: ?b :: ?l)) with (refused l).
        rewrite log_lines_app, refused_app, shaped_log_lines by done.
        assert (refused (failure_log out) = []) as -> by by destruct out.
        by rewrite app_nil_r.
      + intros pre name color description err post Heq.
        destruct pre as [|ev1 [|ev2 pre]]; [done|done|].
        injection Heq as _ _ Heq.
        apply app_eq_app in Heq as [l [[-> Hl]|[-> Hl]]].
        * destruct l as [|ev l]; simpl in Hl.
          { by destruct out. }
          injection Hl as <- ->.
          destruct (shaped_refused_logged _ _ _ _ _ _ _ Hs eq_refl)
            as (post' & ->).
          by eexists.
        * destruct out as [e|r]; simpl in Hl.
          -- destruct l as [|? [|? ?]]; simplify_eq/=.
          -- by destruct l.
      + change (logger (?a :: ?b :: ?l)) with (logger l).
        change (refused (?a :: ?b :: ?l)) with (refused l).
        change ((?a :: ?b :: ?l) ≫= fatal_lines) with (l ≫= fatal_lines).
        rewrite logger_app, refused_app, !bind_app, shaped_logger by done.
        assert (refused (failure_log out) = []) as -> by by destruct out.
        assert (failure_log out ≫= fatal_lines = []) as -> by by destruct out.
        assert (logger (failure_log out) = log_lines (failure_log out)) as ->
          by by destruct out.
        change ([] ≫= twice) with (@nil string).
        by rewrite !app_nil_r, <- app_assoc. }
  split_and!; try done.
  intros V Data remote gateway m v result v' lines Hgo.
  destruct (invoke_transcript remote gateway m v result v' lines Hgo)
    as [_ Hm].
  destruct result as [err|data]; [done|]. by destruct Hm.
Qed.

(** X18: the handler of a label action ends with a call of the callback,
    and throws only what that last call throws. It calls the callback
    once, or twice when the first call threw: the second call then tells
    that error. *)
Theorem handler_throws_only_callback_errors {W Data}
    (remote : Client.Request → W → (Error + Data) * W) callback labels_of
    a runtime state w out w' t :
  Client.handler remote callback labels_of a runtime state w = (out, w', t) →
  ∃ pre text f,
    t = pre ++ [Client.Replied text f]
    ∧ match f with
      | Some e => out = inl e
      | None => ∃ b, out = inr b
      end
    ∧ (Client.replies pre = []
       ∨ ∃ text1 e1,
           Client.replies pre = [(text1, Some e1)]
           ∧ text = Client.sorry_prefix a +:+ message e1).
Proof.
  intros Hgo.
  pose proof (handler_cases remote callback labels_of a runtime state w)
    as Hcases. simpl in Hcases. rewrite Hgo in Hcases.
  destruct (Client.method_of a state) as [m|].
  - destruct runtime as [client|].
    + destruct (Client.invoke remote client m w) as [[[err|data] w1] mt]
        eqn:Em;
        destruct (invoke_transcript remote _ _ _ _ _ _ Em) as [Hnone _].
      * injection Hcases as -> -> ->.
        eexists (mt ++ [_]), _, _. rewrite <- app_assoc.
        split; [done|]. split.
        -- destruct (callback _ w1) as [[e|[]] w2]; simpl; [done|by eexists].
        -- left. by rewrite replies_app, Hnone.
      * destruct (callback _ w1) as [[e|[]] w2] eqn:Ec;
          injection Hcases as -> -> ->.
        -- eexists ((mt ++ [_]) ++ [_]), _, _. rewrite <- !app_assoc.
           split; [done|]. split.
           ++ destruct (callback _ w2) as [[e'|[]] w3]; simpl;
                [done|by eexists].
           ++ right. exists (Client.done_text labels_of m data), e.
              by rewrite !replies_app, Hnone.
        -- eexists mt, _, _. split; [done|]. split; [by eexists|by left].
    + injection Hcases as -> -> ->. eexists [_], _, _. split; [done|].
      split; [|by left].
      destruct (callback _ w) as [[e|[]] w2]; simpl; [done|by eexists].
  - destruct (callback _ w) as [[e|[]] w1] eqn:Ec;
      injection Hcases as -> -> ->.
    + eexists [_; _], _, _. split; [done|]. split.
      * destruct (callback _ w1) as [[e'|[]] w3]; simpl; [done|by eexists].
      * right. by exists (Client.need_text a), e.
    + eexists [], _, _. split; [done|]. split; [by eexists|by left].
Qed.

(** X19: with a callback that does not throw, the handler of a label
    action does not throw: it tells the callback one text, last, and
    returns a boolean. It returns [true] exactly when a request was sent
    and no error was logged, and then every request was answered. When
    it returns [false] it has either asked for what the state lacks and
    done nothing else, or logged an error last and told the callback its
    message. *)
Theorem handler_result {W Data}
    (remote : Client.Request → W → (Error + Data) * W) callback labels_of
    a runtime state w out w' t :
  (∀ text w1, (callback text w1).1 = inr tt) →
  Client.handler remote callback labels_of a runtime state w = (out, w', t) →
  ∃ pre text b,
    t = pre ++ [Client.Replied text None]
    ∧ Client.replies pre = []
    ∧ out = inr b
    ∧ (b = true ↔ Client.requests pre ≠ [] ∧ Client.error_lines pre = [])
    ∧ (b = true → Forall Client.answered pre)
    ∧ (b = false →
       (pre = [] ∧ text = Client.need_text a)
       ∨ ∃ pre0 err,
           pre = pre0 ++ [Client.Logged Client.level_error
                            (Client.failed_prefix a +:+ message err)]
           ∧ text = Client.sorry_prefix a +:+ message err).
Proof.
  intros Hquiet Hgo.
  pose proof (handler_cases remote callback labels_of a runtime state w)
    as Hcases. simpl in Hcases. rewrite Hgo in Hcases.
  assert (∀ text w1, ∃ w2, callback text w1 = (inr tt, w2)) as Hcb.
  { intros text w1. specialize (Hquiet text w1).
    destruct (callback text w1) as [r w2]. simpl in Hquiet. subst r.
    by exists w2. }
  destruct (Client.method_of a state) as [m|].
  - destruct runtime as [client|].
    + destruct (Client.invoke remote client m w) as [[[err|data] w1] mt]
        eqn:Em;
        destruct (invoke_transcript remote _ _ _ _ _ _ Em) as [Hnone Hm].
      * destruct (Hcb (Client.sorry_prefix a +:+ message err) w1) as [w2 Ec].
        rewrite Ec in Hcases. injection Hcases as -> -> ->.
        eexists (mt ++ [_]), _, false. rewrite <- app_assoc. simpl.
        split_and!; try done.
        -- by rewrite replies_app, Hnone.
        -- split; [done|]. rewrite error_lines_app, Hm. by intros [_ ?].
        -- intros _. right. by exists mt, err.
      * destruct (Hcb (Client.done_text labels_of m data) w1) as [w2 Ec].
        rewrite Ec in Hcases. injection Hcases as -> -> ->.
        destruct Hm as (Hlines & Hreq & Hans).
        eexists mt, _, true. split_and!; try done.
    + match type of Hcases with
      | context [callback ?x ?y] =>
          destruct (Hcb x y) as [w2 Ec]; rewrite Ec in Hcases
      end.
      injection Hcases as -> -> ->.
      eexists [_], _, false. simpl. split_and!; try done.
      * split; [done|]. by intros [? _].
      * intros _. right. by exists [], Client.client_not_available.
  - destruct (Hcb (Client.need_text a) w) as [w2 Ec].
    rewrite Ec in Hcases. injection Hcases as -> -> ->.
    eexists [], _, false. simpl. split_and!; try done.
    + split; [done|]. by intros [? _].
    + intros _. by left.
Qed.

(** X20: a handler whose state lacks what its action asks for -- a name
    or a colour, an issue number, labels -- asks for it and does nothing
    else: it does not look for the client, so it answers the same with
    and without one, and it sends no request. *)
Theorem handler_incomplete_state {W Data}
    (remote : Client.Request → W → (Error + Data) * W) callback labels_of
    a runtime state w :
  Client.method_of a state = None →
  Client.handler remote callback labels_of a runtime state w
  = Client.handler remote callback labels_of a None state w
  ∧ Client.requests
      (Client.handler remote callback labels_of a runtime state w).2 = []
  ∧ ∃ f rest,
      (Client.handler remote callback labels_of a runtime state w).2
      = Client.Replied (Client.need_text a) f :: rest.
Proof.
  intros Hnone.
  pose proof (handler_cases remote callback labels_of a runtime state w) as H1.
  pose proof (handler_cases remote callback labels_of a None state w) as H2.
  simpl in H1, H2. rewrite Hnone in H1, H2.
  destruct (callback (Client.need_text a) w) as [[e|[]] w1];
    rewrite H1, H2; split_and!; try done; by eexists _, _.
Qed.

(** X21: when the method that a handler calls throws, the error is logged
    twice, by the method and by the handler, and the handler tells the
    callback its message; nothing is sent or logged after that. A handler
    without a client logs and tells that no client is available, and
    sends nothing. *)
Theorem handler_reports_failure {W Data}
    (remote : Client.Request → W → (Error + Data) * W) callback labels_of
    a runtime state w m :
  Client.method_of a state = Some m →
  let t := (Client.handler remote callback labels_of a runtime state w).2 in
  match runtime with
  | None =>
      ∃ f, t = Client.failure_report a Client.client_not_available f
  | Some client =>
      ∀ err w1 mt,
        Client.invoke remote client m w = (inl err, w1, mt) →
        Client.error_lines t
        = [Client.failed_msg m err; Client.failed_prefix a +:+ message err]
        ∧ ∃ f, t = mt ++ Client.failure_report a err f
  end.
Proof.
  intros Hm t. subst t.
  pose proof (handler_cases remote callback labels_of a runtime state w) as H.
  simpl in H. rewrite Hm in H. destruct runtime as [client|].
  - intros err w1 mt Em. rewrite Em in H. rewrite H. simpl.
    destruct (invoke_transcript remote _ _ _ _ _ _ Em) as [_ Hlines].
    split; [|by eexists]. by rewrite error_lines_app, Hlines.
  - rewrite H. by eexists.
Qed.

(** X22: an empty list of labels is refused by [labelGitHubIssue], which
    sends nothing, and accepted by [setGitHubIssueLabels], which sets it
    and tells that all labels were removed. *)
Theorem empty_label_list {W Data}
    (remote : Client.Request → W → (Error + Data) * W) callback labels_of
    client state n w :
  Client.state_issueNumber state = Some n → n ≠ 0%Z →
  Client.state_labels state = Some [] →
  Client.octokit client = true →
  let set_labels :=
    Client.issues_setLabels (Client.owner (Client.config client))
      (Client.repo (Client.config client)) n [] in
  Client.requests
    (Client.handler remote callback labels_of Client.labelGitHubIssue
       (Some client) state w).2 = []
  ∧ Client.requests
      (Client.handler remote callback labels_of Client.setGitHubIssueLabels
         (Some client) state w).2 = [set_labels]
  ∧ ∀ data w1 w2,
      remote set_labels w = (inr data, w1) →
      callback (Client.removed_all_text n) w1 = (inr tt, w2) →
      Client.handler remote callback labels_of Client.setGitHubIssueLabels
        (Some client) state w
      = (inr true, w2,
         [Client.Sent set_labels None;
          Client.Replied (Client.removed_all_text n) None]).
Proof.
  intros Hn Hn0 Hlabels Hocto set_labels. subst set_labels.
  assert (Client.given_number (Client.state_issueNumber state) = Some n) as Hg.
  { rewrite Hn. simpl. by apply Z.eqb_neq in Hn0 as ->. }
  split.
  { pose proof (handler_cases remote callback labels_of
                  Client.labelGitHubIssue (Some client) state w) as H.
    unfold Client.method_of in H. rewrite Hg, Hlabels in H.
    cbv beta iota zeta in H.
    destruct (callback (Client.need_text Client.labelGitHubIssue) w)
      as [[e|[]] w1]; by rewrite H. }
  pose proof (handler_cases remote callback labels_of
                Client.setGitHubIssueLabels (Some client) state w) as H.
  unfold Client.method_of in H. rewrite Hg, Hlabels in H.
  cbv beta iota zeta in H. unfold Client.invoke in H.
  assert (Client.setIssueLabels remote client n (Some []) w =
            match remote (Client.issues_setLabels
                            (Client.owner (Client.config client))
                            (Client.repo (Client.config client)) n []) w with
            | (inl err, w1) =>
                (inl err, w1,
                 [Client.Sent (Client.issues_setLabels
                                 (Client.owner (Client.config client))
                                 (Client.repo (Client.config client)) n [])
                    (Some err);
                  Client.Logged Client.level_error
                    (Client.set_failed_msg n err)])
            | (inr data, w1) =>
                (inr data, w1,
                 [Client.Sent (Client.issues_setLabels
                                 (Client.owner (Client.config client))
                                 (Client.repo (Client.config client)) n [])
                    None])
            end) as Hset.
  { unfold Client.setIssueLabels. rewrite logged_eq, Hocto. simpl.
    apply Z.eqb_neq in Hn0 as ->. rewrite send_eq.
    by destruct (remote _ w) as [[err|data] w1]. }
  rewrite Hset in H.
  destruct (remote _ w) as [[err|data] w1].
  - rewrite H. split; [done|]. by intros.
  - simpl in H. split.
    + destruct (callback (Client.removed_all_text n) w1) as [[e|[]] w2];
        by rewrite H.
    + intros ? ? w2 [= <- <-] Hc. by rewrite Hc in H.
Qed.

(** ** The local clone *)

Section Steps.
Context {W Data : Type} (remote : Client.Request → W → (Error + Data) * W).
Implicit Types (w : W) (this : Client.t).

Lemma answered_requests t :
  Forall Client.answered t →
  Client.error_lines t = [] ∧ Client.replies t = [].
Proof. induction 1 as [|ev l [r ->] _ [IH1 IH2]]; [done|]. by split. Qed.

Lemma steps_ret {A} (a : A) : Client.steps [] (Client.ret (W:=W) a).
Proof. intros w. simpl. split_and!; [constructor|done|done]. Qed.

Lemma steps_send r : Client.steps [r] (Client.send remote r).
Proof.
  intros w. rewrite send_eq. simpl.
  destruct (remote r w) as [[err|data] w1]; simpl.
  - split_and!; [|done|done]. by exists [], r.
  - split_and!; [|done|done].
    apply Forall_cons. split; [by eexists|constructor].
Qed.

Lemma steps_bind {A B} rs1 rs2 (m : Client.M (W:=W) A) (k : A → Client.M B) :
  Client.steps rs1 m → (∀ a, Client.steps rs2 (k a)) →
  Client.steps (rs1 ++ rs2) (Client.bind m k).
Proof.
  intros Hm Hk w. rewrite client_bind_eq.
  destruct (Hm w) as (H1 & H2 & H3).
  destruct (m w) as [[[err|a] w1] t1]; simpl in *.
  - split_and!; [done| |done]. by apply prefix_app_r.
  - specialize (H3 eq_refl).
    destruct (Hk a w1) as (K1 & K2 & K3).
    destruct (k a w1) as [[[err|b] w2] t2]; simpl in *.
    + destruct K1 as (pre & q & -> & Hpre). split_and!; [| |done].
      * exists (t1 ++ pre), q. rewrite app_assoc. split; [done|].
        by apply Forall_app.
      * rewrite requests_app, H3. by apply prefix_app.
    + split_and!.
      * by apply Forall_app.
      * rewrite requests_app, H3. by apply prefix_app.
      * intros _. by rewrite requests_app, H3, K3.
Qed.

Context (path_join : list string → string) (path_dirname : string → string).

Lemma writeFiles_steps this files :
  Client.steps (files ≫= Client.file_requests path_join path_dirname this)
    (Client.writeFiles remote path_join path_dirname this files).
Proof.
  induction files as [|file files IH]; [apply steps_ret|].
  apply (steps_bind [_] (_ :: _)); [apply steps_send|]. intros _.
  apply (steps_bind [_]); [apply steps_send|]. by intros _.
Qed.

Lemma createPullRequest_is_steps this title branch files description :
  Client.octokit this = true →
  Client.steps
    (Client.pull_request_requests path_join path_dirname this title branch
       files description)
    (Client.createPullRequest remote path_join path_dirname this title branch
       files description).
Proof.
  intros Hocto. unfold Client.createPullRequest. rewrite Hocto.
  apply (steps_bind [_] (_ :: _)); [apply steps_send|]. intros _.
  apply (steps_bind [_]); [apply steps_send|]. intros _.
  apply steps_bind; [apply writeFiles_steps|]. intros _.
  apply (steps_bind [_] [_; _; _]); [apply steps_send|]. intros _.
  apply (steps_bind [_] [_; _]); [apply steps_send|]. intros _.
  apply (steps_bind [_] [_]); [apply steps_send|]. intros _.
  apply steps_send.
Qed.

Lemma createCommit_is_steps this message files :
  Client.steps
    (Client.commit_requests path_join path_dirname this message files)
    (Client.createCommit remote path_join path_dirname this message files).
Proof.
  unfold Client.createCommit.
  apply (steps_bind [_]); [apply steps_send|]. intros _.
  apply steps_bind; [apply writeFiles_steps|]. intros _.
  apply (steps_bind [_] [_; _]); [apply steps_send|]. intros _.
  apply (steps_bind [_] [_]); [apply steps_send|]. intros _.
  rewrite <- (app_nil_r [_]).
  apply (steps_bind [_] []); [apply steps_send|]. intros _.
  apply steps_ret.
Qed.

End Steps.

(** X24: [createPullRequest], on a client whose [octokit] is set, makes
    its requests in one fixed order -- the [git] of the clone, the new
    branch, for every file its directory and its content, the commit,
    the push of the branch and the pull request -- and stops at the
    first request that fails, whose error it throws as it is. It logs
    nothing and undoes nothing; the pull request is asked for last, and
    only after the push. Its body is the description, or the title for a
    missing or empty one; its base is the configured branch, or "main". *)
Theorem createPullRequest_steps {W Data}
    (remote : Client.Request → W → (Error + Data) * W) path_join path_dirname
    this title branch files description w out w' t :
  Client.octokit this = true →
  Client.createPullRequest remote path_join path_dirname this title branch
    files description w = (out, w', t) →
  let plan :=
    Client.pull_request_requests path_join path_dirname this title branch
      files description in
  Client.all_but_last_answered (failure_of out) t
  ∧ Client.requests t `prefix_of` plan
  ∧ (failure_of out = None → Client.requests t = plan)
  ∧ last plan
    = Some (Client.pulls_create (Client.owner (Client.config this))
              (Client.repo (Client.config this)) title
              (or_else description title) branch
              (or_else (Client.branch (Client.config this)) "main")).
Proof.
  intros Hocto Hgo plan. subst plan.
  pose proof (createPullRequest_is_steps remote path_join path_dirname this
                title branch files description Hocto w) as H.
  rewrite Hgo in H. simpl in H. split_and!; try apply H.
  unfold Client.pull_request_requests.
  by rewrite !app_assoc, last_app.
Qed.

(** X25: [createCommit] makes its requests in one fixed order -- the
    [git] of the clone, for every file its directory and its content,
    the commit, a push without arguments -- and stops at the first
    request that fails, whose error it throws as it is; it logs nothing.
    It makes no branch and asks for no pull request. *)
Theorem createCommit_steps {W Data}
    (remote : Client.Request → W → (Error + Data) * W) path_join path_dirname
    this message files w out w' t :
  Client.createCommit remote path_join path_dirname this message files w
  = (out, w', t) →
  let plan :=
    Client.commit_requests path_join path_dirname this message files in
  Client.all_but_last_answered (failure_of out) t
  ∧ Client.requests t `prefix_of` plan
  ∧ (failure_of out = None → Client.requests t = plan)
  ∧ ∀ q, q ∈ Client.requests t →
         (∀ dir args, q ≠ Client.git_checkout dir args)
         ∧ (∀ o r ti b h ba, q ≠ Client.pulls_create o r ti b h ba).
Proof.
  intros Hgo plan. subst plan.
  pose proof (createCommit_is_steps remote path_join path_dirname this
                message files w) as H.
  rewrite Hgo in H. simpl in H. destruct H as (H1 & H2 & H3).
  split_and!; try done.
  intros q Hq. destruct H2 as [rest Hplan].
  assert (q ∈ Client.commit_requests path_join path_dirname this message files)
    as Hin by (rewrite Hplan; apply elem_of_app; by left).
  clear -Hin. unfold Client.commit_requests in Hin.
  apply elem_of_cons in Hin as [->|Hin]; [done|].
  apply elem_of_app in Hin as [Hin|Hin].
  - apply list_elem_of_bind in Hin as (file & Hin & _).
    unfold Client.file_requests in Hin.
    repeat (apply elem_of_cons in Hin as [->|Hin]; [done|]).
    by apply elem_of_nil in Hin.
  - repeat (apply elem_of_cons in Hin as [->|Hin]; [done|]).
    by apply elem_of_nil in Hin.
Qed.

Section Initialize.
Context {W Data : Type} (remote : Client.Request → W → (Error + Data) * W).
Context (path_join : list string → string) (cwd : string).
Context (existsSync : string → W → bool).
Implicit Types (w : W) (this : Client.t).

Lemma elem_of_failed_clones this errs ev :
  ev ∈ Client.failed_clones this errs →
  (∃ err, ev = Client.Sent
                 (Client.git_clone (Client.repositoryUrl (Client.config this))
                    (Client.repoPath this)) (Some err))
  ∨ ev = Client.Logged Client.level_error
           (Client.retrying_msg (Client.repositoryUrl (Client.config this))).
Proof.
  intros (err & Hev & _)%list_elem_of_bind. unfold Client.failed_clone in Hev.
  apply elem_of_cons in Hev as [->|Hev]; [left; by exists err|].
  apply list_elem_of_singleton in Hev as ->. by right.
Qed.

(** What [cloneRepository] leaves in the transcript. *)
Lemma cloneRepository_transcript this w :
  let clone := Client.git_clone (Client.repositoryUrl (Client.config this))
                 (Client.repoPath this) in
  let go := Client.cloneRepository remote this w in
  (∀ ev, ev ∈ go.2 →
         (∃ f, ev = Client.Sent clone f) ∨ ∃ l msg, ev = Client.Logged l msg)
  ∧ (failure_of go.1.1 = None → Client.Sent clone None ∈ go.2).
Proof.
  intros clone go. subst clone go.
  change (Client.cloneRepository remote this w)
    with (Client.cloneLoop remote this 3 w).
  destruct (cloneLoop_cases remote this 2 w)
    as (errs & w' & [[_ E]|[_ E]]); rewrite E; simpl.
  - split.
    + intros ev [Hev|Hev]%elem_of_app.
      * apply elem_of_failed_clones in Hev as [[err ->]| ->];
          [left; by eexists|right; by eexists _, _].
      * apply elem_of_cons in Hev as [->|Hev]; [left; by eexists|].
        apply list_elem_of_singleton in Hev as ->. right. by eexists _, _.
    + intros _. apply elem_of_app. right. apply list_elem_of_here.
  - split; [|done]. intros ev Hev.
    apply elem_of_failed_clones in Hev as [[err ->]| ->];
      [left; by eexists|right; by eexists _, _].
Qed.

End Initialize.

(** X26: [initialize] first makes the directory of the owner. It then
    clones the repository only when its directory does not exist, and
    pulls only when it does. It checks out a branch only when one is
    configured, and then as its last request, after the repository has
    been cloned or pulled: not when the clone or the pull failed. *)
Theorem initialize_steps {W Data}
    (remote : Client.Request → W → (Error + Data) * W) path_join cwd
    existsSync this w out w' t :
  Client.initialize remote path_join cwd existsSync this w = (out, w', t) →
  let dir := Client.repoPath this in
  let clone := Client.git_clone (Client.repositoryUrl (Client.config this))
                 dir in
  let mkdir :=
    Client.fs_mkdir
      (path_join [cwd; ".repos"; Client.owner (Client.config this)]) in
  (∃ f rest, t = Client.Sent mkdir f :: rest)
  ∧ (clone ∈ Client.requests t → existsSync dir (remote mkdir w).2 = false)
  ∧ (Client.git_pull dir ∈ Client.requests t →
     existsSync dir (remote mkdir w).2 = true)
  ∧ ∀ args f,
      Client.Sent (Client.git_checkout dir args) f ∈ t →
      (∃ b, Client.given (Client.branch (Client.config this)) = Some b
            ∧ args = [b])
      ∧ last t = Some (Client.Sent (Client.git_checkout dir args) f)
      ∧ (Client.Sent clone None ∈ t
         ∨ Client.Sent (Client.git_pull dir) None ∈ t).
Proof.
  intros Hgo dir clone mkdir. subst dir clone mkdir.
  unfold Client.initialize in Hgo.
  rewrite client_bind_eq, send_eq in Hgo.
  destruct (remote _ w) as [[err|data] w1] eqn:Emk; simpl in Hgo.
  { injection Hgo as <- <- <-. split_and!; [by eexists _, _|..].
    - by intros [[=]|[]%elem_of_nil]%elem_of_cons.
    - by intros [[=]|[]%elem_of_nil]%elem_of_cons.
    - by intros ? ? [[=]|[]%elem_of_nil]%elem_of_cons. }
  rewrite client_bind_eq in Hgo. unfold Client.exists_now at 1 in Hgo.
  simpl in Hgo. rewrite client_bind_eq in Hgo.
  set (tail :=
         match Client.given (Client.branch (Client.config this)) with
         | Some b =>
             Client.bind (Client.send remote
                            (Client.simpleGit (Client.repoPath this)))
               (λ _, Client.bind
                       (Client.send remote
                          (Client.git_checkout (Client.repoPath this) [b]))
                       (λ _, Client.ret tt))
         | None => Client.ret tt
         end) in Hgo.
  assert (∀ w2, ∃ co,
            (tail w2).2 = co
            ∧ (co = []
               ∨ (∃ f, co = [Client.Sent (Client.simpleGit
                                            (Client.repoPath this)) f])
               ∨ (∃ b f, Client.given (Client.branch (Client.config this))
                         = Some b
                         ∧ co = [Client.Sent (Client.simpleGit
                                                (Client.repoPath this)) None;
                                 Client.Sent (Client.git_checkout
                                                (Client.repoPath this) [b]) f])))
    as Htail.
  { intros w2. subst tail. eexists. split; [done|].
    destruct (Client.given _) as [b|]; [|by left].
    rewrite client_bind_eq, send_eq.
    destruct (remote _ w2) as [[e|d] w3]; simpl; [right; left; by eexists|].
    rewrite client_bind_eq, send_eq.
    destruct (remote _ w3) as [[e|d'] w4]; simpl; right; right;
      by eexists _, _. }
  destruct (existsSync (Client.repoPath this) w1) eqn:Eex; simpl in Hgo.
  - (* the directory exists: pull *)
    rewrite client_bind_eq, send_eq in Hgo.
    destruct (remote _ w1) as [[e|d] w2]; simpl in Hgo.
    { injection Hgo as <- <- <-. split_and!; [by eexists _, _|..].
      - intros Hin. repeat (apply elem_of_cons in Hin as [[=]|Hin]).
        by apply elem_of_nil in Hin.
      - done.
      - intros ? ? Hin. repeat (apply elem_of_cons in Hin as [[=]|Hin]).
        by apply elem_of_nil in Hin. }
    rewrite client_bind_eq, send_eq in Hgo.
    destruct (remote _ w2) as [[e|d'] w3]; simpl in Hgo.
    { injection Hgo as <- <- <-. split_and!; [by eexists _, _|..].
      - intros Hin. repeat (apply elem_of_cons in Hin as [[=]|Hin]).
        by apply elem_of_nil in Hin.
      - done.
      - intros ? ? Hin. repeat (apply elem_of_cons in Hin as [[=]|Hin]).
        by apply elem_of_nil in Hin. }
    destruct (Htail w3) as (co & Hco & Hcases). rewrite Hco in Hgo.
    injection Hgo as <- <- <-. simpl.
    split_and!; [by eexists _, _|..].
    + intros Hin. exfalso.
      repeat (apply elem_of_cons in Hin as [[=]|Hin]).
      destruct Hcases as [->|[[f ->]|(b & f & _ & ->)]]; simpl in Hin;
        repeat (apply elem_of_cons in Hin as [[=]|Hin]);
        by apply elem_of_nil in Hin.
    + done.
    + intros args f Hin.
      repeat (apply elem_of_cons in Hin as [[=]|Hin]).
      destruct Hcases as [->|[[f' ->]|(b & f' & Hb & ->)]].
      * by apply elem_of_nil in Hin.
      * repeat (apply elem_of_cons in Hin as [[=]|Hin]).
        by apply elem_of_nil in Hin.
      * apply elem_of_cons in Hin as [[=]|Hin].
        apply list_elem_of_singleton in Hin. injection Hin as -> ->.
        split_and!; [by exists b|done|].
        right. do 2 apply list_elem_of_further. apply list_elem_of_here.
  - (* it does not: clone *)
    pose proof (cloneRepository_transcript remote this w1) as [Hevs Hok].
    simpl in Hevs, Hok.
    destruct (Client.cloneRepository remote this w1) as [[[e|[]] w2] tc];
      simpl in Hgo, Hevs, Hok.
    { injection Hgo as <- <- <-. split_and!; [by eexists _, _|done|..].
      - intros Hin. exfalso. apply elem_of_cons in Hin as [[=]|Hin].
        apply list_elem_of_omap in Hin as (ev & Hev & Hq).
        destruct (Hevs ev Hev) as [[f ->]|(l & msg & ->)]; simplify_eq/=.
      - intros args f Hin. exfalso. apply elem_of_cons in Hin as [[=]|Hin].
        destruct (Hevs _ Hin) as [[f' [=]]|(l & msg & [=])]. }
    destruct (Htail w2) as (co & Hco & Hcases). rewrite Hco in Hgo.
    injection Hgo as <- <- <-. simpl.
    split_and!; [by eexists _, _|done|..].
    + intros Hin. exfalso. apply elem_of_cons in Hin as [[=]|Hin].
      rewrite requests_app in Hin.
      apply elem_of_app in Hin as [Hin|Hin].
      * apply list_elem_of_omap in Hin as (ev & Hev & Hq).
        destruct (Hevs ev Hev) as [[f ->]|(l & msg & ->)]; simplify_eq/=.
      * destruct Hcases as [->|[[f ->]|(b & f & _ & ->)]]; simpl in Hin;
          repeat (apply elem_of_cons in Hin as [[=]|Hin]);
          by apply elem_of_nil in Hin.
    + intros args f Hin. apply elem_of_cons in Hin as [[=]|Hin].
      apply elem_of_app in Hin as [Hin|Hin].
      { exfalso. destruct (Hevs _ Hin) as [[f' [=]]|(l & msg & [=])]. }
      destruct Hcases as [->|[[f' ->]|(b & f' & Hb & ->)]].
      * by apply elem_of_nil in Hin.
      * repeat (apply elem_of_cons in Hin as [[=]|Hin]).
        by apply elem_of_nil in Hin.
      * apply elem_of_cons in Hin as [[=]|Hin].
        apply list_elem_of_singleton in Hin. injection Hin as -> ->.
        split_and!; [by exists b| |].
        -- rewrite app_comm_cons.
           change [?a; ?b] with ([a] ++ [b]). rewrite !app_assoc.
           by rewrite last_snoc.
        -- left. apply list_elem_of_further, elem_of_app. left.
           by apply Hok.
Qed.

(** X27: a client made by the constructor has its [octokit]: a label
    method called on it sends a request unless its arguments are
    refused, and when it throws without having sent one, it throws that
    refusal. *)
Theorem constructed_client_sends {W Data}
    (remote : Client.Request → W → (Error + Data) * W) path_join cwd
    settings m w out w' t :
  Client.invoke remote (Client.new_GitHubClient path_join cwd settings) m w
  = (out, w', t) →
  (Client.requests t = [] ↔ is_Some (Client.refused_arguments m))
  ∧ (Client.requests t = [] →
     ∃ err, Client.refused_arguments m = Some err ∧ out = inl err).
Proof.
  intros Hgo.
  destruct (invoke_cases remote
              (Client.new_GitHubClient path_join cwd settings) m w)
    as [[Ho _]|[(_ & err & Hr & E)|
        (_ & Hr & sent & sent0 & r & w1 & -> & Hans & Hlen &
         [(q & err & -> & E)|(q & data & -> & E)])]];
    [done|rewrite E in Hgo; injection Hgo as <- <- <-..].
  - rewrite Hr. split; [done|]. intros _. by exists err.
  - rewrite Hr, !requests_app. simpl. rewrite app_nil_r. split.
    + split; [by intros [_ [=]]%app_eq_nil|by intros [? [=]]].
    + by intros [_ [=]]%app_eq_nil.
  - rewrite Hr, !requests_app. simpl. split.
    + split; [by intros [_ [=]]%app_eq_nil|by intros [? [=]]].
    + by intros [_ [=]]%app_eq_nil.
Qed.

(** X28: in front of an issue tracker that finds the issues it has and
    stores the labels it is given, the methods [getRepoLabels],
    [createLabel] and [labelIssue] of an initialised client are the
    gateway [Repo.client] that the engine was run on: the labels are
    listed as stored, a label without name or colour is refused and any
    other is stored without the [#] of its colour, and an issue is
    labelled unless its number is 0 or the tracker does not have it. *)
Theorem repository_gateway_is_client this (s : Repo.t) :
  Client.octokit this = true →
  (Client.getRepoLabels Tracker.answer this s).1
  = getRepoLabels Repo.client s
  ∧ (∀ name color description,
       Tracker.outcome
         (Client.createLabel Tracker.answer this name color
            (Some description) s)
       = createLabel Repo.client name color description s)
  ∧ (∀ n labels,
       Tracker.outcome
         (Client.labelIssue Tracker.answer this n (Some labels) s)
       = labelIssue Repo.client n labels s).
Proof.
  intros Hocto. split_and!.
  - unfold Client.getRepoLabels. rewrite logged_eq, Hocto. done.
  - intros name color description.
    unfold Client.createLabel. rewrite logged_eq, Hocto. simpl.
    destruct name as [|a name], color as [|c color]; try done.
    rewrite send_eq. simpl. unfold Tracker.outcome, Repo.createLabel. simpl.
    by destruct description.
  - intros n labels.
    unfold Client.labelIssue. rewrite logged_eq, Hocto. simpl.
    unfold Repo.labelIssue.
    destruct (decide (n = 0%Z)) as [->|Hn]; [done|].
    apply Z.eqb_neq in Hn as ->.
    rewrite client_bind_eq, !send_eq. simpl.
    destruct (decide (n ∈ _)); done.
Qed.

(** ** The properties on the data of the test suites *)

(** Two rules with the pattern [/crash/i] in both orders, on an issue
    that both match. *)
Lemma labelsToAdd_rule_order_witness :
  let rule labels :=
    {| Stateful.pattern := Stateful.crash_i;
       Stateful.labels := labels;
       Stateful.description := None |} in
  let rs := [rule ["bug"; "crash"]; rule ["triage"; "bug"]] in
  let rs' := [rule ["triage"; "bug"]; rule ["bug"; "crash"]] in
  Forall (λ rule, Stateful.flagged (Stateful.pattern rule) = false) rs
  ∧ rs ≡ₚ rs'
  ∧ (Stateful.labelsToAdd rs Stateful.crash_again ∅).1
    = ["bug"; "crash"; "triage"]
  ∧ (Stateful.labelsToAdd rs' Stateful.crash_again ∅).1
    = ["triage"; "bug"; "crash"]
  ∧ (Stateful.labelsToAdd rs Stateful.crash_again ∅).1
    ≡ₚ (Stateful.labelsToAdd rs' Stateful.crash_again ∅).1.
Proof.
  intros rule rs rs'.
  assert (Forall (λ rule, Stateful.flagged (Stateful.pattern rule) = false) rs)
    as Hrs by repeat constructor.
  assert (rs ≡ₚ rs') as Hperm by apply perm_swap.
  split; [exact Hrs|]. split; [exact Hperm|].
  split; [vm_compute; reflexivity|]. split; [vm_compute; reflexivity|].
  exact (proj1 (labelsToAdd_rule_order rs rs' Stateful.crash_again ∅ Hrs Hperm)).
Defined.

(** The same two rules, one added after the other. *)
Lemma labelsToAdd_more_rules_witness :
  let rule labels :=
    {| Stateful.pattern := Stateful.crash_i;
       Stateful.labels := labels;
       Stateful.description := None |} in
  let rs := [rule ["bug"; "crash"]] in
  let rs' := [rule ["triage"; "bug"]] in
  Forall (λ rule, Stateful.flagged (Stateful.pattern rule) = false) (rs ++ rs')
  ∧ (Stateful.labelsToAdd (rs ++ rs') Stateful.crash_again ∅).1
    = ["bug"; "crash"; "triage"]
  ∧ (Stateful.labelsToAdd (rs ++ rs') Stateful.crash_again ∅).1
    = (Stateful.labelsToAdd rs Stateful.crash_again ∅).1
        ++ filter (λ l, l ∉ (Stateful.labelsToAdd rs Stateful.crash_again ∅).1)
             (Stateful.labelsToAdd rs' Stateful.crash_again ∅).1.
Proof.
  intros rule rs rs'.
  assert (Forall (λ rule, Stateful.flagged (Stateful.pattern rule) = false)
            (rs ++ rs')) as Hall by repeat constructor.
  split; [exact Hall|]. split; [vm_compute; reflexivity|].
  exact (labelsToAdd_more_rules rs rs' Stateful.crash_again ∅ Hall).
Defined.

(** On the three issues of the test suite, in a repository that has the
    label "bug" only and refuses to create "enhancement": the refusal is
    logged right after the call, and nothing else is; with the line of
    the gateway the logger holds it twice. *)
Lemma run_log_discipline_witness :
  let this := Scenes.creating in
  let client :=
    Mock.client
      (Fixtures.rejecting_label "enhancement" Fixtures.three_issues
         Scenes.only_bug) in
  let t :=
    [Called (GetRepoIssues (Some open)) None;
     Called GetRepoLabels None;
     Called (LabelIssue 1 ["bug"]) None;
     Called (CreateLabel "enhancement" "0075ca"
               "Auto-created label for enhancement") (Some Fixtures.boom);
     LoggedError (create_failed_msg "enhancement" Fixtures.boom);
     Called (CreateLabel "documentation" "0075ca"
               "Auto-created label for documentation") None;
     Called (LabelIssue 3 ["documentation"]) None] in
  rules this ≠ []
  ∧ (∃ r, run client this tt = (inr r, tt, t)
          ∧ log_lines t
            = (refusal_line <$> refused t)
                ++ log_lines (failure_log (inr r : Error + AutoLabelResult)))
  ∧ log_lines t = [create_failed_msg "enhancement" Fixtures.boom]
  ∧ logger t = [create_failed_msg "enhancement" Fixtures.boom;
                create_failed_msg "enhancement" Fixtures.boom].
Proof.
  intros this client t.
  assert (rules this ≠ []) as Hrules by done.
  split; [exact Hrules|]. split; [|split; reflexivity].
  eexists.
  assert (run client this tt = (inr _, tt, t)) as Hrun
    by (vm_compute; reflexivity).
  split; [exact Hrun|].
  exact (proj1 (run_log_discipline client this tt _ tt t Hrules Hrun)).
Defined.

(** The same run: the two fetches come first, each once. *)
Lemma run_fetches_first_witness :
  let this := Scenes.creating in
  let client :=
    Mock.client
      (Fixtures.rejecting_label "enhancement" Fixtures.three_issues
         Scenes.only_bug) in
  let t := (run client this tt).2 in
  fetch_calls t = [GetRepoIssues (Some open); GetRepoLabels]
  ∧ create_calls t = ["enhancement"; "documentation"]
  ∧ fetch_calls t `prefix_of` [GetRepoIssues (Some open); GetRepoLabels]
  ∧ (create_calls t ≠ [] ∨ label_calls t ≠ [] →
     ∃ rest, t = Called (GetRepoIssues (Some open)) None
                   :: Called GetRepoLabels None :: rest
             ∧ fetch_calls rest = []).
Proof.
  intros this client t.
  split; [reflexivity|]. split; [reflexivity|].
  assert (run client this tt = ((run client this tt).1.1,
                                (run client this tt).1.2, t)) as Hrun
    by (vm_compute; reflexivity).
  exact (run_fetches_first client this tt _ _ t Hrun).
Defined.

(** An issue that three rules match, two of which propose "bug": the
    one [labelIssue] call has each label once. *)
Lemma labelIssue_arguments_witness :
  let this :=
    addRules [CommonLabelingRules.bug; Fixtures.triage;
              CommonLabelingRules.security] Fixtures.autoLabeler in
  let client :=
    Mock.client
      (Fixtures.answering [Fixtures.auth_crash_issue]
         [Fixtures.label "bug" "ff0000"; Fixtures.label "triage" "cccccc";
          Fixtures.label "security" "000000"]) in
  let labels := ["bug"; "triage"; "security"] in
  let t := [Called (GetRepoIssues (Some open)) None;
            Called GetRepoLabels None;
            Called (LabelIssue 6 labels) None] in
  (∃ r, run client this tt = (inr r, tt, t))
  ∧ Called (LabelIssue 6 labels) None ∈ t
  ∧ labels ≠ [] ∧ NoDup labels
  ∧ ∀ l, l ∈ labels → ∃ rule, rule ∈ rules this ∧ l ∈ rule_labels rule.
Proof.
  intros this client labels t.
  assert (run client this tt = (inr _, tt, t)) as Hrun
    by (vm_compute; reflexivity).
  assert (Called (LabelIssue 6 labels) None ∈ t) as Hin
    by (do 2 apply list_elem_of_further; apply list_elem_of_here).
  split; [eexists; exact Hrun|]. split; [exact Hin|].
  exact (labelIssue_arguments client this tt _ tt t 6 labels None Hrun Hin).
Defined.

(** An issue that no rule matches: the fetches and nothing else. *)
Lemma run_nothing_to_apply_witness :
  let this := Scenes.creating in
  let issues := [Fixtures.greeting_issue] in
  let client := Mock.client (Fixtures.answering issues Fixtures.three_labels) in
  rules this ≠ []
  ∧ fetched_issues client this tt = inr issues
  ∧ fetched_labels client this tt = inr Fixtures.three_labels
  ∧ nothing_to_apply this (known_names Fixtures.three_labels)
      Fixtures.greeting_issue
  ∧ ∃ w',
      run client this tt
      = (inr {| totalIssues := 1; labeledIssues := 0;
                labelsCreated := 0; details := [] |},
         w',
         [Called (GetRepoIssues (Some open)) None;
          Called GetRepoLabels None]).
Proof.
  intros this issues client.
  assert (rules this ≠ []) as Hrules by done.
  assert (nothing_to_apply this (known_names Fixtures.three_labels)
            Fixtures.greeting_issue) as Hidle by reflexivity.
  split; [exact Hrules|]. split; [reflexivity|]. split; [reflexivity|].
  split; [exact Hidle|].
  apply (run_nothing_to_apply client this tt issues Fixtures.three_labels
           Hrules eq_refl eq_refl).
  intros i Hi _. apply list_elem_of_singleton in Hi. rewrite Hi. exact Hidle.
Defined.

(** The three issues of the test suite in a repository that has the
    label "bug" only and creates what it is asked to: two labels are
    created and every issue gets its candidates. *)
Lemma full_union_when_created_witness :
  let this := Scenes.creating in
  let client :=
    Mock.client (Fixtures.answering Fixtures.three_issues Scenes.only_bug) in
  truthy (get (createMissingLabels (config this))) = true
  ∧ never_refuses client
  ∧ fetched_labels client this tt = inr Scenes.only_bug
  ∧ ∃ r t,
      run client this tt = (inr r, tt, t)
      ∧ create_calls t = ["enhancement"; "documentation"]
      ∧ (appliedLabels <$> details r)
        = [["bug"]; ["enhancement"]; ["documentation"]]
      ∧ ∃ issues,
          fetched_issues client this tt = inr issues
          ∧ NoDup (create_calls t)
          ∧ labelsCreated r = length (create_calls t)
          ∧ (∀ l, l ∈ create_calls t
                  ↔ (l ∉ known_names Scenes.only_bug)
                    ∧ ∃ i, i ∈ issues ∧ skips this i = false
                           ∧ l ∈ labelsToAdd (rules this) i)
          ∧ ∀ i, i ∈ issues → skips this i = false →
                 labelsToAdd (rules this) i ≠ [] →
                 ∃ d, d ∈ details r
                      ∧ issueNumber d = issue_number i
                      ∧ title d = issue_title i
                      ∧ appliedLabels d = labelsToAdd (rules this) i.
Proof.
  intros this client.
  assert (never_refuses client) as Hnever by (intros ? ? ? ?; reflexivity).
  split; [reflexivity|]. split; [exact Hnever|]. split; [reflexivity|].
  eexists _, _.
  assert (run client this tt = (inr _, tt, _)) as Hrun
    by (vm_compute; reflexivity).
  split; [exact Hrun|]. split; [reflexivity|]. split; [reflexivity|].
  exact (full_union_when_created client this tt Scenes.only_bug _ tt _
           eq_refl Hnever eq_refl Hrun).
Defined.

(** The same run: three issues fetched and labelled, two labels created
    of the three that the rules name. *)
Lemma result_bounds_witness :
  let this := Scenes.creating in
  let client :=
    Mock.client (Fixtures.answering Fixtures.three_issues Scenes.only_bug) in
  fetched_labels client this tt = inr Scenes.only_bug
  ∧ ∃ r t,
      run client this tt = (inr r, tt, t)
      ∧ (totalIssues r, labeledIssues r, labelsCreated r) = (3, 3, 2)
      ∧ labeledIssues r ≤ totalIssues r
      ∧ labelsCreated r ≤ length (concat (rule_labels <$> rules this)).
Proof.
  intros this client. split; [reflexivity|]. eexists _, _.
  assert (run client this tt = (inr _, tt, _)) as Hrun
    by (vm_compute; reflexivity).
  split; [exact Hrun|]. split; [reflexivity|].
  exact (result_bounds client this tt Scenes.only_bug _ tt _ eq_refl Hrun).
Defined.

(** The title of the first issue of the test suite, in capitals. *)
Lemma catalogue_ignores_case_witness :
  let s := "Bug: Application crashes on startup" in
  let s' := "BUG: APPLICATION CRASHES ON STARTUP" in
  CommonLabelingRules.bug ∈ common_rules
  ∧ case_folded s = case_folded s'
  ∧ rule_pattern CommonLabelingRules.bug s = true
  ∧ rule_pattern CommonLabelingRules.bug s
    = rule_pattern CommonLabelingRules.bug s'.
Proof.
  intros s s'.
  assert (CommonLabelingRules.bug ∈ common_rules) as Hrule
    by apply list_elem_of_here.
  assert (case_folded s = case_folded s') as Hs by reflexivity.
  split; [exact Hrule|]. split; [exact Hs|]. split; [reflexivity|].
  exact (catalogue_ignores_case CommonLabelingRules.bug s s' Hrule Hs).
Defined.

(** The test "should add labels to an issue": two requests, both
    answered, nothing logged. *)
Lemma label_method_discipline_witness :
  let remote := ClientFixtures.answering [] ClientFixtures.none in
  let m := Client.m_labelIssue 123 (Some ["bug"; "enhancement"]) in
  let t :=
    [Client.Sent (Client.issues_get "testowner" "testrepo" 123) None;
     Client.Sent (Client.issues_addLabels "testowner" "testrepo" 123
                    ["bug"; "enhancement"]) None] in
  Client.invoke remote ClientFixtures.client m 0 = (inr [], 2, t)
  ∧ ∃ sent, length sent ≤ 2
            ∧ t = sent ∧ sent ≠ [] ∧ Forall Client.answered sent.
Proof.
  intros remote m t.
  assert (Client.invoke remote ClientFixtures.client m 0 = (inr [], 2, t))
    as Hgo by reflexivity.
  split; [exact Hgo|].
  exact (label_method_discipline remote ClientFixtures.client m 0 _ 2 t Hgo).
Defined.

(** The test "should throw an error if issue number is invalid": no
    request is sent. *)
Lemma label_method_checks_first_witness :
  let remote := ClientFixtures.answering [] ClientFixtures.none in
  let m := Client.m_labelIssue 0 (Some ["bug"]) in
  let t := [Client.Logged Client.level_error
              (Client.label_failed_msg 0 Repo.invalid_issue)] in
  Client.invoke remote ClientFixtures.client m 0
  = (inl Repo.invalid_issue, 0, t)
  ∧ Client.refused_arguments m = Some Repo.invalid_issue
  ∧ Client.requests t = [].
Proof.
  intros remote m t.
  assert (Client.invoke remote ClientFixtures.client m 0
          = (inl Repo.invalid_issue, 0, t)) as Hgo by reflexivity.
  split; [exact Hgo|]. split; [reflexivity|].
  apply (label_method_checks_first remote ClientFixtures.client m 0 _ 0 t Hgo).
  right. by eexists.
Defined.

(** An issue that the repository does not have: the lookup fails with
    "Not Found", which is thrown, and no label is added. *)
Lemma labelIssue_looks_up_first_witness :
  let remote := ClientFixtures.answering [] ClientFixtures.lookups in
  let lookup := Client.issues_get "testowner" "testrepo" 123 in
  let t := [Client.Sent lookup (Some Repo.not_found);
            Client.Logged Client.level_error
              "Failed to label issue #123: Not Found"] in
  Client.labelIssue remote ClientFixtures.client 123 (Some ["bug"]) 0
  = (inl Repo.not_found, 1, t)
  ∧ ∀ pre q f post,
      t = pre ++ Client.Sent q f :: post →
      (q = lookup ∧ pre = [])
      ∨ (q = Client.issues_addLabels "testowner" "testrepo" 123 ["bug"]
         ∧ pre = [Client.Sent lookup None]).
Proof.
  intros remote lookup t.
  assert (Client.labelIssue remote ClientFixtures.client 123 (Some ["bug"]) 0
          = (inl Repo.not_found, 1, t)) as Hgo by reflexivity.
  split; [exact Hgo|].
  exact (proj1 (labelIssue_looks_up_first remote ClientFixtures.client 123
                  ["bug"] 0 _ 1 t Hgo)).
Defined.

(** The test "should handle color codes with # prefix". *)
Lemma createLabel_request_witness :
  let remote := ClientFixtures.answering [] ClientFixtures.none in
  let q := Client.issues_createLabel "testowner" "testrepo" "bug" "ff0000" "" in
  Client.createLabel remote ClientFixtures.client "bug" "#ff0000" None 0
  = (inr [], 1, [Client.Sent q None])
  ∧ "bug" ≠ "" ∧ "#ff0000" ≠ ""
  ∧ ∃ sent_color,
      q = Client.issues_createLabel "testowner" "testrepo" "bug" sent_color ""
      ∧ ("#ff0000" = "#" +:+ sent_color
         ∨ ("#ff0000" = sent_color ∧ ∀ rest, "#ff0000" ≠ "#" +:+ rest)).
Proof.
  intros remote q. split; [reflexivity|].
  apply (createLabel_request remote ClientFixtures.client "bug" "#ff0000"
           None 0 q None).
  apply list_elem_of_here.
Defined.

(** A callback that throws when it is told of the success: it is called
    again, with that error, and the handler returns [false]. *)
Lemma handler_throws_only_callback_errors_witness :
  let remote := ClientFixtures.answering [] ClientFixtures.none in
  let callback := ClientFixtures.throwing_until 3 in
  let a := Client.labelGitHubIssue in
  let t :=
    [Client.Sent (Client.issues_get "testowner" "testrepo" 123) None;
     Client.Sent (Client.issues_addLabels "testowner" "testrepo" 123 ["bug"])
       None;
     Client.Replied (Client.added_text 123 ["bug"]) (Some Fixtures.boom);
     Client.Logged Client.level_error "Failed to label GitHub issue: boom";
     Client.Replied "I couldn't add labels to the GitHub issue: boom" None] in
  Client.handler remote callback ClientFixtures.labels_of a
    (Some ClientFixtures.client) (ClientFixtures.issue_state 123 ["bug"]) 0
  = (inr false, 4, t)
  ∧ ∃ pre text f,
      t = pre ++ [Client.Replied text f]
      ∧ match f with
        | Some e => (inr false : Error + bool) = inl e
        | None => ∃ b, (inr false : Error + bool) = inr b
        end
      ∧ (Client.replies pre = []
         ∨ ∃ text1 e1,
             Client.replies pre = [(text1, Some e1)]
             ∧ text = Client.sorry_prefix a +:+ message e1).
Proof.
  intros remote callback a t.
  assert (Client.handler remote callback ClientFixtures.labels_of a
            (Some ClientFixtures.client)
            (ClientFixtures.issue_state 123 ["bug"]) 0
          = (inr false, 4, t)) as Hgo by reflexivity.
  split; [exact Hgo|].
  exact (handler_throws_only_callback_errors remote callback
           ClientFixtures.labels_of a _ _ 0 _ 4 t Hgo).
Defined.

(** Two labels added to issue 123: one text for the callback, [true]. *)
Lemma handler_result_witness :
  let remote := ClientFixtures.answering [] ClientFixtures.none in
  let a := Client.labelGitHubIssue in
  let t :=
    [Client.Sent (Client.issues_get "testowner" "testrepo" 123) None;
     Client.Sent (Client.issues_addLabels "testowner" "testrepo" 123
                    ["bug"; "enhancement"]) None;
     Client.Replied (Client.added_text 123 ["bug"; "enhancement"]) None] in
  Client.handler remote ClientFixtures.quiet ClientFixtures.labels_of a
    (Some ClientFixtures.client)
    (ClientFixtures.issue_state 123 ["bug"; "enhancement"]) 0
  = (inr true, 3, t)
  ∧ ∃ pre text b,
      t = pre ++ [Client.Replied text None]
      ∧ Client.replies pre = []
      ∧ (inr true : Error + bool) = inr b
      ∧ (b = true ↔ Client.requests pre ≠ [] ∧ Client.error_lines pre = [])
      ∧ (b = true → Forall Client.answered pre)
      ∧ (b = false →
         (pre = [] ∧ text = Client.need_text a)
         ∨ ∃ pre0 err,
             pre = pre0 ++ [Client.Logged Client.level_error
                              (Client.failed_prefix a +:+ message err)]
             ∧ text = Client.sorry_prefix a +:+ message err).
Proof.
  intros remote a t.
  assert (Client.handler remote ClientFixtures.quiet ClientFixtures.labels_of
            a (Some ClientFixtures.client)
            (ClientFixtures.issue_state 123 ["bug"; "enhancement"]) 0
          = (inr true, 3, t)) as Hgo by reflexivity.
  split; [exact Hgo|].
  exact (handler_result remote ClientFixtures.quiet ClientFixtures.labels_of
           a _ _ 0 _ 3 t (λ _ _, eq_refl) Hgo).
Defined.

(** A state without issue number: the handler asks for it, with or
    without a client. *)
Lemma handler_incomplete_state_witness :
  let remote := ClientFixtures.answering [] ClientFixtures.none in
  let go runtime :=
    Client.handler remote ClientFixtures.quiet ClientFixtures.labels_of
      Client.removeGitHubIssueLabel runtime ClientFixtures.no_state 0 in
  Client.method_of Client.removeGitHubIssueLabel ClientFixtures.no_state = None
  ∧ go (Some ClientFixtures.client)
    = (inr false, 1, [Client.Replied Client.need_issue None])
  ∧ go (Some ClientFixtures.client) = go None
  ∧ Client.requests (go (Some ClientFixtures.client)).2 = []
  ∧ ∃ f rest,
      (go (Some ClientFixtures.client)).2
      = Client.Replied (Client.need_text Client.removeGitHubIssueLabel) f
          :: rest.
Proof.
  intros remote go. split; [reflexivity|]. split; [reflexivity|].
  exact (handler_incomplete_state remote ClientFixtures.quiet
           ClientFixtures.labels_of Client.removeGitHubIssueLabel
           (Some ClientFixtures.client) ClientFixtures.no_state 0 eq_refl).
Defined.

(** An issue that the repository does not have: "Not Found" is logged by
    [labelIssue] and by the handler, and told to the callback. *)
Lemma handler_reports_failure_witness :
  let remote := ClientFixtures.answering [] ClientFixtures.lookups in
  let a := Client.labelGitHubIssue in
  let state := ClientFixtures.issue_state 123 ["bug"] in
  let m := Client.m_labelIssue 123 (Some ["bug"]) in
  let mt :=
    [Client.Sent (Client.issues_get "testowner" "testrepo" 123)
       (Some Repo.not_found);
     Client.Logged Client.level_error "Failed to label issue #123: Not Found"] in
  let t :=
    (Client.handler remote ClientFixtures.quiet ClientFixtures.labels_of a
       (Some ClientFixtures.client) state 0).2 in
  Client.method_of a state = Some m
  ∧ Client.invoke remote ClientFixtures.client m 0
    = (inl Repo.not_found, 1, mt)
  ∧ Client.error_lines t
    = ["Failed to label issue #123: Not Found";
       "Failed to label GitHub issue: Not Found"]
  ∧ Client.error_lines t
    = [Client.failed_msg m Repo.not_found;
       Client.failed_prefix a +:+ message Repo.not_found]
  ∧ ∃ f, t = mt ++ Client.failure_report a Repo.not_found f.
Proof.
  intros remote a state m mt t.
  split; [reflexivity|]. split; [reflexivity|]. split; [reflexivity|].
  exact (handler_reports_failure remote ClientFixtures.quiet
           ClientFixtures.labels_of a (Some ClientFixtures.client) state 0 m
           eq_refl Repo.not_found 1 mt eq_refl).
Defined.

(** Issue 123 and the empty list of labels. *)
Lemma empty_label_list_witness :
  let remote := ClientFixtures.answering [] ClientFixtures.none in
  let state := ClientFixtures.issue_state 123 [] in
  let set_labels := Client.issues_setLabels "testowner" "testrepo" 123 [] in
  let go a :=
    Client.handler remote ClientFixtures.quiet ClientFixtures.labels_of a
      (Some ClientFixtures.client) state 0 in
  go Client.labelGitHubIssue
  = (inr false, 1, [Client.Replied Client.need_issue_and_label None])
  ∧ Client.requests (go Client.labelGitHubIssue).2 = []
  ∧ Client.requests (go Client.setGitHubIssueLabels).2 = [set_labels]
  ∧ ∀ data w1 w2,
      remote set_labels 0 = (inr data, w1) →
      ClientFixtures.quiet (Client.removed_all_text 123) w1 = (inr tt, w2) →
      go Client.setGitHubIssueLabels
      = (inr true, w2,
         [Client.Sent set_labels None;
          Client.Replied (Client.removed_all_text 123) None]).
Proof.
  intros remote state set_labels go. split; [reflexivity|].
  exact (empty_label_list remote ClientFixtures.quiet ClientFixtures.labels_of
           ClientFixtures.client state 123 0 eq_refl ltac:(done) eq_refl
           eq_refl).
Defined.

(** A pull request with one file and no description, on the client of
    the test suite: eight requests, the pull request last, with the
    title as body. *)
Lemma createPullRequest_steps_witness :
  let remote := ClientFixtures.answering [] ClientFixtures.none in
  let this := ClientFixtures.constructed in
  let dir := "./.repos/testowner/testrepo" in
  let plan :=
    [Client.simpleGit dir;
     Client.git_checkout dir ["-b"; "docs"];
     Client.fs_mkdir "./.repos/testowner/testrepo/docs";
     Client.fs_writeFile "./.repos/testowner/testrepo/docs/README.md"
       "# Hello";
     Client.git_add dir ".";
     Client.git_commit dir "Add docs";
     Client.git_push dir ["origin"; "docs"];
     Client.pulls_create "testowner" "testrepo" "Add docs" "Add docs" "docs"
       "main"] in
  Client.octokit this = true
  ∧ ∃ t,
      Client.createPullRequest remote ClientFixtures.path_join
        ClientFixtures.path_dirname this "Add docs" "docs"
        [ClientFixtures.readme] None 0 = (inr [], 8, t)
      ∧ Client.requests t = plan
      ∧ Client.all_but_last_answered None t
      ∧ Client.requests t `prefix_of` plan.
Proof.
  intros remote this dir plan. split; [reflexivity|]. eexists.
  assert (Client.createPullRequest remote ClientFixtures.path_join
            ClientFixtures.path_dirname this "Add docs" "docs"
            [ClientFixtures.readme] None 0 = (inr [], 8, _)) as Hgo
    by reflexivity.
  split; [exact Hgo|]. split; [reflexivity|].
  pose proof (createPullRequest_steps remote ClientFixtures.path_join
                ClientFixtures.path_dirname this "Add docs" "docs"
                [ClientFixtures.readme] None 0 _ 8 _ eq_refl Hgo)
    as (H1 & H2 & _).
  exact (conj H1 H2).
Defined.

(** A commit of one file that cannot be written: the error of the write
    is thrown, and nothing is added, committed or pushed. *)
Lemma createCommit_steps_witness :
  let remote := ClientFixtures.answering [] ClientFixtures.writes in
  let this := ClientFixtures.constructed in
  let t :=
    [Client.Sent (Client.simpleGit "./.repos/testowner/testrepo") None;
     Client.Sent (Client.fs_mkdir "./.repos/testowner/testrepo/docs") None;
     Client.Sent
       (Client.fs_writeFile "./.repos/testowner/testrepo/docs/README.md"
          "# Hello") (Some Repo.not_found)] in
  Client.createCommit remote ClientFixtures.path_join
    ClientFixtures.path_dirname this "Add docs" [ClientFixtures.readme] 0
  = (inl Repo.not_found, 3, t)
  ∧ Client.all_but_last_answered (Some Repo.not_found) t
  ∧ Client.requests t
    `prefix_of` Client.commit_requests ClientFixtures.path_join
                  ClientFixtures.path_dirname this "Add docs"
                  [ClientFixtures.readme].
Proof.
  intros remote this t.
  assert (Client.createCommit remote ClientFixtures.path_join
            ClientFixtures.path_dirname this "Add docs"
            [ClientFixtures.readme] 0
          = (inl Repo.not_found, 3, t)) as Hgo by reflexivity.
  split; [exact Hgo|].
  pose proof (createCommit_steps remote ClientFixtures.path_join
                ClientFixtures.path_dirname this "Add docs"
                [ClientFixtures.readme] 0 _ 3 t Hgo) as (H1 & H2 & _).
  exact (conj H1 H2).
Defined.

(** A repository that is not there yet and whose first clone fails: it
    is cloned at the second attempt, and the branch "main" is checked
    out last. *)
Lemma initialize_steps_witness :
  let remote := ClientFixtures.failing_at 1 in
  let this := ClientFixtures.constructed in
  let dir := "./.repos/testowner/testrepo" in
  let clone :=
    Client.git_clone "https://github.com/testowner/testrepo.git" dir in
  let t :=
    [Client.Sent (Client.fs_mkdir "./.repos/testowner") None;
     Client.Sent clone (Some Fixtures.boom);
     Client.Logged Client.level_error
       (Client.retrying_msg "https://github.com/testowner/testrepo.git");
     Client.Sent clone None;
     Client.Logged Client.level_log
       (Client.cloned_msg "https://github.com/testowner/testrepo.git");
     Client.Sent (Client.simpleGit dir) None;
     Client.Sent (Client.git_checkout dir ["main"]) None] in
  Client.initialize remote ClientFixtures.path_join ClientFixtures.cwd
    (λ _ _, false) this 0 = (inr tt, 5, t)
  ∧ Client.Sent (Client.git_checkout dir ["main"]) None ∈ t
  ∧ (∃ b, Client.given (Client.branch (Client.config this)) = Some b
          ∧ ["main"] = [b])
  ∧ last t = Some (Client.Sent (Client.git_checkout dir ["main"]) None)
  ∧ (Client.Sent clone None ∈ t ∨ Client.Sent (Client.git_pull dir) None ∈ t).
Proof.
  intros remote this dir clone t.
  assert (Client.initialize remote ClientFixtures.path_join ClientFixtures.cwd
            (λ _ _, false) this 0 = (inr tt, 5, t)) as Hgo by reflexivity.
  assert (Client.Sent (Client.git_checkout dir ["main"]) None ∈ t) as Hin
    by (do 6 apply list_elem_of_further; apply list_elem_of_here).
  split; [exact Hgo|]. split; [exact Hin|].
  exact (proj2 (proj2 (proj2
           (initialize_steps remote ClientFixtures.path_join
              ClientFixtures.cwd (λ _ _, false) this 0 _ 5 t Hgo)))
           ["main"] None Hin).
Defined.

(** The test "should get all labels for a repository", on a client made
    by the constructor. *)
Lemma constructed_client_sends_witness :
  let remote := ClientFixtures.answering Fixtures.two_labels ClientFixtures.none in
  let t := [Client.Sent (Client.issues_listLabelsForRepo "testowner" "testrepo")
              None] in
  Client.invoke remote ClientFixtures.constructed Client.m_getRepoLabels 0
  = (inr Fixtures.two_labels, 1, t)
  ∧ (Client.requests t = []
     ↔ is_Some (Client.refused_arguments Client.m_getRepoLabels)).
Proof.
  intros remote t.
  assert (Client.invoke remote ClientFixtures.constructed
            Client.m_getRepoLabels 0
          = (inr Fixtures.two_labels, 1, t)) as Hgo by reflexivity.
  split; [exact Hgo|].
  exact (proj1 (constructed_client_sends remote ClientFixtures.path_join
                  ClientFixtures.cwd ClientFixtures.config
                  Client.m_getRepoLabels 0 _ 1 t Hgo)).
Defined.

(** The repository of the four issues: issue 1 is labelled, issue 9 is
    not found, by the client as by the gateway. *)
Lemma repository_gateway_is_client_witness :
  let this := ClientFixtures.client in
  let s := Fixtures.four_issues_repo in
  Client.octokit this = true
  ∧ (Client.labelIssue Tracker.answer this 9 (Some ["bug"]) s).1.1
    = inl Repo.not_found
  ∧ (Client.getRepoLabels Tracker.answer this s).1
    = getRepoLabels Repo.client s
  ∧ (∀ name color description,
       Tracker.outcome
         (Client.createLabel Tracker.answer this name color
            (Some description) s)
       = createLabel Repo.client name color description s)
  ∧ (∀ n labels,
       Tracker.outcome
         (Client.labelIssue Tracker.answer this n (Some labels) s)
       = labelIssue Repo.client n labels s).
Proof.
  intros this s. split; [reflexivity|]. split; [reflexivity|].
  exact (repository_gateway_is_client this s eq_refl).
Defined.
